(** * Eight-point estimation of the fundamental matrix (utils.py, Q1.py)

    A shallow embedding of the estimation pipeline of [utils.py] and of the
    two error metrics of [Q1.py], with the properties of the specification
    stated and settled against it; then of the rest of the two files that
    computes (the lines and the distances of the main block, the mouse
    callback, the disparity errors), with further properties of the code.

    Numbers.  The program computes on numpy [float64] values.  Every
    function below is written once, over a type of scalars with the
    operations the source uses, and read at two instances:
    - [float], the kernel's binary64 numbers, on which a definition
      evaluates to what the program computes (NaN and infinities included);
    - [R], the real numbers, on which the algebraic identities of the
      algorithm are exact.

    Arrays.  A numpy array is a view of a buffer; [x.T] and basic slices
    share the buffer of [x], [np.r_], [np.c_] and [np.dot] allocate.  The
    buffers live in a store, threaded through the functions that read or
    write caller memory.  The buffers hold [float64] numbers: what is
    proved of a function that writes into its argument is proved for
    [float64] arrays. *)

From Stdlib Require Import Floats Uint63.
From Stdlib Require Import Reals Lra Lia ZArith List String ClassicalEpsilon.
From stdpp Require Import base list pretty.
Import ListNotations.

(** ** Exceptions and results *)

(** The exceptions the modelled code can meet: [ShapeError] is the class
    of utils.py, the others are Python's and numpy's own. *)
Inductive exn : Type :=
| ShapeError (x : string)
| ZeroDivisionError
| IndexError
| ValueError
| LinAlgError.

Inductive outcome (A : Type) : Type :=
| Return (a : A)
| Raise (e : exn).
Arguments Return {A} a.
Arguments Raise {A} e.

(** [ShapeError.__str__] *)
Definition ShapeError_str (x : string) : string := x.

(** ** Scalars *)

Class Scalar (K : Type) : Type := {
  szero : K;
  sone : K;
  sadd : K -> K -> K;
  ssub : K -> K -> K;
  smul : K -> K -> K;
  sdiv : K -> K -> K;
  ssqrt : K -> K;
  sabs : K -> K;
  sneg : K -> K;
  sgtb : K -> K -> bool;      (* [a > b] *)
  sofnat : nat -> K;          (* an [int] met in float arithmetic *)
  seps : K                    (* [np.finfo(float).eps] *)
}.

Declare Scope scalar_scope.
Delimit Scope scalar_scope with sc.
Infix "+" := sadd : scalar_scope.
Infix "-" := ssub : scalar_scope.
Infix "*" := smul : scalar_scope.
Infix "/" := sdiv : scalar_scope.
Notation "- x" := (sneg x) : scalar_scope.

(** binary64, as numpy computes *)
#[export] Instance float_scalar : Scalar float := {|
  szero := 0%float;
  sone := 1%float;
  sadd := PrimFloat.add;
  ssub := PrimFloat.sub;
  smul := PrimFloat.mul;
  sdiv := PrimFloat.div;
  ssqrt := PrimFloat.sqrt;
  sabs := PrimFloat.abs;
  sneg := PrimFloat.opp;
  sgtb := fun a b => PrimFloat.ltb b a;
  sofnat := fun n => PrimFloat.of_uint63 (Uint63.of_Z (Z.of_nat n));
  seps := 0x1p-52%float
|}.

(** exact arithmetic *)
#[export] Instance R_scalar : Scalar R := {|
  szero := 0%R;
  sone := 1%R;
  sadd := Rplus;
  ssub := Rminus;
  smul := Rmult;
  sdiv := Rdiv;
  ssqrt := R_sqrt.sqrt;
  sabs := Rabs;
  sneg := Ropp;
  sgtb := fun a b => if Rlt_dec b a then true else false;
  sofnat := INR;
  seps := (/ 2 ^ 52)%R
|}.

(** ** Q1.py: the two error metrics *)

Section Metrics.
Context {K : Type} `{Scalar K}.
Local Open Scope scalar_scope.

(** [np.dot((p[0], p[1], 1), line)] *)
Definition dot_pt_line (p : K * K) (l : K * K * K) : K :=
  let '(a, b, c) := l in
  fst p * a + snd p * b + sone * c.

(** [x ** 2] *)
Definition sq (x : K) : K := x * x.

(** The body of the loop of [epipolar_distance]: one step of the
    accumulation. *)
Definition epipolar_step (distance : K)
    (it : (K * K) * (K * K) * (K * K * K) * (K * K * K)) : K :=
  let '(l_pt, r_pt, l_line, r_line) := it in
  let left :=
    sq (dot_pt_line l_pt l_line)
    / ssqrt (sq (fst (fst l_line)) + sq (snd (fst l_line))) in
  let right :=
    sq (dot_pt_line r_pt r_line)
    / ssqrt (sq (fst (fst r_line)) + sq (snd (fst r_line))) in
  distance + (left + right).

(** [epipolar_distance(l_pts, r_pts, l_lines, r_lines)].  [zip] stops at
    the shortest list; the division is by [len(l_pts)], and Python raises
    on [0 / 0] when it is empty (the accumulator is then still the [int]
    0).  The unused read of the image shape and the [print] are left out. *)
Definition epipolar_distance (l_pts r_pts : list (K * K))
    (l_lines r_lines : list (K * K * K)) : outcome K :=
  let distance :=
    fold_left epipolar_step
      (combine (combine (combine l_pts r_pts) l_lines) r_lines) szero in
  match length l_pts with
  | O => Raise ZeroDivisionError
  | n => Return (distance / sofnat n)
  end.

(** [algebraic_distance(r_pts, l_lines)] *)
Definition algebraic_distance (r_pts : list (K * K))
    (l_lines : list (K * K * K)) : outcome K :=
  let distance :=
    fold_left (fun d it => d + sabs (dot_pt_line (fst it) (snd it)))
      (combine r_pts l_lines) szero in
  match length r_pts with
  | O => Raise ZeroDivisionError
  | n => Return (distance / sofnat n)
  end.

(** The symmetric epipolar distance as the specification words it: each
    squared residual over the squared magnitude [a^2 + b^2] of the line
    normal, summed over both images and averaged over the points. *)
Definition sed_term (p : K * K) (l : K * K * K) : K :=
  sq (dot_pt_line p l) / (sq (fst (fst l)) + sq (snd (fst l))).

Definition symmetric_epipolar_spec (l_pts r_pts : list (K * K))
    (l_lines r_lines : list (K * K * K)) : K :=
  fold_left
    (fun d it =>
       let '(l_pt, r_pt, l_line, r_line) := it in
       d + (sed_term l_pt l_line + sed_term r_pt r_line))
    (combine (combine (combine l_pts r_pts) l_lines) r_lines) szero
  / sofnat (length l_pts).

End Metrics.

(** ** numpy arrays: buffers, views and the store *)

(** A buffer is the row-major table of elements an array owns, [float64]
    numbers here; the store is the list of buffers, the caller's first.
    [stdout] collects what is printed.  Arrays of another type are not
    modelled: an assignment into an [int64] array, as [normalize2dpts]
    makes into a caller's array of integers in a homogeneous layout, cuts
    the fraction of the value assigned. *)
Record world (K : Type) : Type := World {
  heap : list (list (list K));
  stdout : list string
}.
Arguments World {K} heap stdout.
Arguments heap {K} w.
Arguments stdout {K} w.

(** An array is a view: the buffer it reads and writes ([base]), where its
    element (0, 0) lies in it ([roff], [coff]), its shape, and whether its
    two axes are those of the buffer exchanged ([transposed]).  Arrays that
    are not two-dimensional only ever have their shape inspected. *)
Record ndarray : Type := NDArray {
  base : nat;
  roff : nat;
  coff : nat;
  shape : list nat;
  transposed : bool
}.

Definition ndim (a : ndarray) : nat := length (shape a).
Definition shape0 (a : ndarray) : nat := nth 0 (shape a) 0.
Definition shape1 (a : ndarray) : nat := nth 1 (shape a) 0.

(** [max(a.shape)], [min(a.shape)] *)
Definition max_shape (a : ndarray) : nat := foldr Nat.max 0 (shape a).
Definition min_shape (a : ndarray) : nat :=
  foldr Nat.min (hd 0 (shape a)) (shape a).

(** Where element (i, j) of the view lies in its buffer. *)
Definition addr (a : ndarray) (i j : nat) : nat * nat :=
  if transposed a then (roff a + j, coff a + i) else (roff a + i, coff a + j).

(** [a.T] *)
Definition transpose_view (a : ndarray) : ndarray :=
  NDArray (base a) (roff a) (coff a) (rev (shape a)) (negb (transposed a)).

(** [a[lo:hi]], with the clamping of Python's slices. *)
Definition slice_rows (a : ndarray) (lo hi : nat) : ndarray :=
  let hi' := Nat.min hi (shape0 a) in
  let lo' := Nat.min lo hi' in
  if transposed a
  then NDArray (base a) (roff a) (coff a + lo') [hi' - lo'; shape1 a] true
  else NDArray (base a) (roff a + lo') (coff a) [hi' - lo'; shape1 a] false.

(** [a[:, lo:hi]] *)
Definition slice_cols (a : ndarray) (lo hi : nat) : ndarray :=
  let hi' := Nat.min hi (shape1 a) in
  let lo' := Nat.min lo hi' in
  if transposed a
  then NDArray (base a) (roff a + lo') (coff a) [shape0 a; hi' - lo'] true
  else NDArray (base a) (roff a) (coff a + lo') [shape0 a; hi' - lo'] false.

Section Arrays.
Context {K : Type} `{Scalar K}.
Local Open Scope scalar_scope.

Definition get (h : list (list (list K))) (a : ndarray) (i j : nat) : option K :=
  h !! base a ≫= fun b => b !! fst (addr a i j) ≫= fun r => r !! snd (addr a i j).

(** [a[i, j] = v] *)
Definition set (h : list (list (list K))) (a : ndarray) (i j : nat) (v : K)
    : list (list (list K)) :=
  alter (alter (fun r => <[snd (addr a i j) := v]> r) (fst (addr a i j)))
        (base a) h.

(** [a[i]], read *)
Definition row (h : list (list (list K))) (a : ndarray) (i : nat) : list K :=
  map (fun j => default szero (get h a i j)) (seq 0 (shape1 a)).

(** The elements of a two-dimensional view, row by row. *)
Definition read (h : list (list (list K))) (a : ndarray) : list (list K) :=
  map (row h a) (seq 0 (shape0 a)).

(** [xs[mask]] *)
Fixpoint select (mask : list bool) (xs : list K) : list K :=
  match mask, xs with
  | true :: m, x :: r => x :: select m r
  | false :: m, _ :: r => select m r
  | _, _ => []
  end.

(** [a[i, mask] = vals], from column [j] on: the positions the mask
    selects take the values in turn. *)
Fixpoint set_masked_from (h : list (list (list K))) (a : ndarray) (i j : nat)
    (mask : list bool) (vals : list K) : list (list (list K)) :=
  match mask with
  | [] => h
  | true :: m =>
      match vals with
      | v :: vs => set_masked_from (set h a i j v) a i (S j) m vs
      | [] => h
      end
  | false :: m => set_masked_from h a i (S j) m vals
  end.

Definition set_masked (h : list (list (list K))) (a : ndarray) (i : nat)
    (mask : list bool) (vals : list K) : list (list (list K)) :=
  set_masked_from h a i 0 mask vals.

(** A new array owning the table [m]. *)
Definition alloc (h : list (list (list K))) (m : list (list K))
    : ndarray * list (list (list K)) :=
  (NDArray (length h) 0 0 [length m; length (hd [] m)] false, h ++ [m]).

(** [np.ones((1, n))] *)
Definition ones_row (n : nat) : list (list K) := [repeat sone n].

(** Elementwise operations on one-dimensional arrays of one length. *)
Fixpoint map2 (f : K -> K -> K) (xs ys : list K) : list K :=
  match xs, ys with
  | x :: xr, y :: yr => f x y :: map2 f xr yr
  | _, _ => []
  end.

(** [np.add.reduce]; the elements are added from the left (numpy may
    associate the additions of a long array otherwise, which changes the
    rounding of a binary64 sum and nothing in exact arithmetic). *)
Definition sum (xs : list K) : K :=
  match xs with
  | [] => szero
  | x :: r => fold_left sadd r x
  end.

(** [np.mean]: on an empty array, 0.0 / 0. *)
Definition mean (xs : list K) : K := sum xs / sofnat (length xs).

(** Column [j] of a table; [None], Python's [IndexError], when a row is
    too short. *)
Definition col (j : nat) (m : list (list K)) : option (list K) :=
  mapM (fun r => r !! j) m.

(** [m.T] of a table (a value, not a view). *)
Definition transpose (m : list (list K)) : list (list K) :=
  map (fun j => map (fun r => default szero (r !! j)) m)
      (seq 0 (length (hd [] m))).

(** [np.dot] of two vectors of one length. *)
Definition vdot (u v : list K) : K := sum (map2 smul u v).

(** [np.dot(A, B)], for tables of matching shapes. *)
Definition dot (A B : list (list K)) : list (list K) :=
  map (fun ra => map (fun cb => vdot ra cb) (transpose B)) A.

(** [np.eye(3)] *)
Definition eye3 : list (list K) :=
  [[sone; szero; szero]; [szero; sone; szero]; [szero; szero; sone]].

(** [np.diag([a, b, c])] *)
Definition diag3 (a b c : K) : list (list K) :=
  [[a; szero; szero]; [szero; b; szero]; [szero; szero; c]].

(** [m[i][j] = v] on a table the function owns. *)
Definition mset (m : list (list K)) (i j : nat) (v : K) : list (list K) :=
  alter (fun r => <[j := v]> r) i m.

(** [v.reshape(3, 3)] of a vector of 9 elements. *)
Definition reshape33 (v : list K) : outcome (list (list K)) :=
  match v with
  | [a; b; c; d; e; f; g; h; i] => Return [[a; b; c]; [d; e; f]; [g; h; i]]
  | _ => Raise ValueError
  end.

End Arrays.

(** ** The monad of utils.py: a store, and exceptions that keep it *)

Definition M (K A : Type) : Type := world K -> outcome A * world K.

Definition ret {K A : Type} (a : A) : M K A := fun w => (Return a, w).

Definition raise {K A : Type} (e : exn) : M K A := fun w => (Raise e, w).

Definition bind {K A B : Type} (c : M K A) (k : A -> M K B) : M K B :=
  fun w =>
    match c w with
    | (Return a, w') => k a w'
    | (Raise e, w') => (Raise e, w')
    end.

(** A computation that raises or returns without touching the store. *)
Definition lift {K A : Type} (o : outcome A) : M K A := fun w => (o, w).

Declare Scope monad_scope.
Delimit Scope monad_scope with monad.
Notation "x <- c ;; k" := (bind c (fun x => k))
  (at level 20, c at level 99, k at level 200) : monad_scope.
Notation "' p <- c ;; k" := (bind c (fun x => let 'p := x in k))
  (at level 20, p pattern, c at level 99, k at level 200) : monad_scope.

(** ** utils.py *)

Section Utils.
Context {K : Type} `{Scalar K}.
Local Open Scope scalar_scope.
Local Open Scope monad_scope.

(** [np.linalg.svd], a function of numpy: [svd A] is [(U, S, Vh)], or the
    exception it raises. *)
Variable svd : list (list K) -> outcome (list (list K) * list K * list (list K)).

(** [np.r_[a, np.ones((1, npts))]]: a new array, the rows of [a] and a row
    of ones; numpy refuses rows of another length. *)
Definition r_ones (a : ndarray) (npts : nat) : M K ndarray :=
  fun w =>
    if shape1 a =? npts
    then let '(a', h') := alloc (heap w) (read (heap w) a ++ ones_row npts) in
         (Return a', World h' (stdout w))
    else (Raise ValueError, w).

Definition process_input_pointpairs (args : list ndarray)
    : M K (ndarray * ndarray * nat) :=
  match args with
  | [x1; x2] =>
      if negb (bool_decide (shape x1 = shape x2))
      then raise (ShapeError "the two arguments should have same size")
      else if negb (ndim x1 =? 2)
      then raise (ShapeError "Each input has to be a 2D array")
      else
        let npts := max_shape x1 in
        let d := min_shape x1 in
        if npts <? 8
        then raise (ShapeError
               "At least 8 points are needed to compute the fundamental matrix")
        else if d =? 2
        then
          if 2 =? shape0 x1
          then (* input is a fat matrix *)
            x1' <- r_ones x1 npts ;;
            x2' <- r_ones x2 npts ;;
            ret (x1', x2', npts)
          else (* input is a tall matrix *)
            x1' <- r_ones (transpose_view x1) npts ;;
            x2' <- r_ones (transpose_view x2) npts ;;
            ret (x1', x2', npts)
        else if d =? 3
        then
          if 3 =? shape1 x1
          then (* input is a tall matrix *)
            ret (transpose_view x1, transpose_view x2, npts)
          else ret (x1, x2, npts)
        else raise (ShapeError "x1 and x2 must be 2xN or Nx2 or 3xN or Nx3")
  | [x] =>
      if negb (ndim x =? 2)
      then raise (ShapeError "Each input has to be a 2D array")
      else
        let npts := max_shape x in
        let d := min_shape x in
        if npts <? 8
        then raise (ShapeError
               "At least 8 points are needed to compute the fundamental matrix")
        else if d =? 4
        then
          if 4 =? shape0 x
          then (* input is a fat matrix *)
            x1 <- r_ones (slice_rows x 0 2) npts ;;
            x2 <- r_ones (slice_rows x 2 4) npts ;;
            ret (x1, x2, npts)
          else (* input is a tall matrix *)
            x1 <- r_ones (transpose_view (slice_cols x 0 2)) npts ;;
            x2 <- r_ones (transpose_view (slice_cols x 2 4)) npts ;;
            ret (x1, x2, npts)
        else if d =? 6
        then
          if 6 =? shape0 x
          then ret (slice_rows x 0 3, slice_rows x 3 6, npts)
          else ret (transpose_view (slice_cols x 0 3),
                    transpose_view (slice_cols x 3 6), npts)
        else raise (ShapeError
               "Single argument x must be 4xN or Nx4 or 6xN or Nx6")
  | _ => raise (ShapeError "Wrong number of arguments supplied")
  end.

(** [constraint_matrix(x1, x2)]: the nine columns, stacked by [np.c_].
    The function only reads its arguments, here the tables of their
    elements. *)
Definition constraint_matrix (x1 x2 : list (list K)) : list (list K) :=
  let npts := length (nth 0 x1 []) in
  let x10 := nth 0 x1 [] in
  let x11 := nth 1 x1 [] in
  let x20 := nth 0 x2 [] in
  let x21 := nth 1 x2 [] in
  transpose
    [map2 smul x20 x10; map2 smul x20 x11; x20;
     map2 smul x21 x10; map2 smul x21 x11; x21;
     x10; x11; repeat sone npts].

(** [normalize2dpts(pts)].  The three assignments through [finiteind]
    write into the buffer of [pts]; [newpts] and [T] are new arrays,
    returned as the tables of their elements. *)
Definition normalize2dpts (pts : ndarray)
    : M K (list (list K) * list (list K)) :=
  fun w =>
    if negb (shape0 pts =? 3)
    then (Raise (ShapeError "pts must be 3xN"), w)
    else
      let h := heap w in
      let finiteind := map (fun x => sgtb (sabs x) seps) (row h pts 2) in
      let h := set_masked h pts 0 finiteind
                 (map2 sdiv (select finiteind (row h pts 0))
                            (select finiteind (row h pts 2))) in
      let h := set_masked h pts 1 finiteind
                 (map2 sdiv (select finiteind (row h pts 1))
                            (select finiteind (row h pts 2))) in
      let h := set_masked h pts 2 finiteind
                 (map (fun _ => sone) (select finiteind (row h pts 2))) in
      (* Centroid of finite points *)
      let c0 := mean (select finiteind (row h pts 0)) in
      let c1 := mean (select finiteind (row h pts 1)) in
      (* Shift origin to centroid. *)
      let newp0 := map (fun x => x - c0) (select finiteind (row h pts 0)) in
      let newp1 := map (fun x => x - c1) (select finiteind (row h pts 1)) in
      let meandist :=
        mean (map ssqrt (map2 sadd (map sq newp0) (map sq newp1))) in
      let scale := ssqrt (sofnat 2) / meandist in
      let T := eye3 in
      let T := mset T 0 0 scale in
      let T := mset T 1 1 scale in
      let T := mset T 0 2 (- scale * c0) in
      let T := mset T 1 2 (- scale * c1) in
      let newpts := dot T (read h pts) in
      (Return (newpts, T), World h (stdout w)).

(** [eight_point_algorithm(x1, x2, normalize)] *)
Definition eight_point_algorithm (x1 x2 : ndarray) (normalize : bool)
    : M K (list (list K)) :=
  '(x1v, x2v, Ts) <-
    (if normalize
     then
       (* perform the normalization (translation and scaling) *)
       '(x1n, T1) <- normalize2dpts x1 ;;
       '(x2n, T2) <- normalize2dpts x2 ;;
       ret (x1n, x2n, Some (T1, T2))
     else fun w => (Return (read (heap w) x1, read (heap w) x2, None), w)) ;;
  (* assemble the constraint matrix *)
  let A := constraint_matrix x1v x2v in
  '(_, _, Vh) <- lift (svd A) ;;
  let V := transpose Vh in
  v <- lift (match col 8 V with
             | Some v => Return v
             | None => Raise IndexError
             end) ;;
  F <- lift (reshape33 v) ;;
  (* F should be of rank 2: the lower-rank approximation by svd *)
  '(U, D, V) <- lift (svd F) ;;
  d0 <- lift (match D !! 0 with Some d => Return d | None => Raise IndexError end) ;;
  d1 <- lift (match D !! 1 with Some d => Return d | None => Raise IndexError end) ;;
  let F := dot (dot U (diag3 d0 d1 szero)) V in
  match Ts with
  | Some (T1, T2) =>
      (* denormalize *)
      ret (dot (dot (transpose T2) F) T1)
  | None => ret F
  end.

(** [fundamental_matrix( *args, normalize)]: [Some F], or [None] after the
    message of a [ShapeError] is printed; any other exception leaves the
    function. *)
Definition fundamental_matrix (args : list ndarray) (normalize : bool)
    : M K (option (list (list K))) :=
  fun w =>
    match ('(x1, x2, npts) <- process_input_pointpairs args ;;
           eight_point_algorithm x1 x2 normalize) w with
    | (Return F, w') => (Return (Some F), w')
    | (Raise (ShapeError x), w') =>
        (Return None,
         World (heap w')
               (stdout w' ++
                ["ShapeError, exception message: " ++ ShapeError_str x]%string))
    | (Raise e, w') => (Raise e, w')
    end.

End Utils.

(** ** The error kinds of the specification *)

Inductive ErrorKind : Type :=
| ShapeMismatch
| InvalidDimensionality
| InsufficientPoints
| DegenerateInput.

(** The code has one exception class and tells the cases apart by message;
    the kinds of the specification's taxonomy, read off the messages of
    [process_input_pointpairs].  No message of utils.py stands for
    [DegenerateInput]. *)
Definition error_kind (x : string) : option ErrorKind :=
  if String.eqb x "the two arguments should have same size"
  then Some ShapeMismatch
  else if String.eqb x "Each input has to be a 2D array"
  then Some ShapeMismatch
  else if String.eqb x
            "At least 8 points are needed to compute the fundamental matrix"
  then Some InsufficientPoints
  else if String.eqb x "x1 and x2 must be 2xN or Nx2 or 3xN or Nx3"
  then Some InvalidDimensionality
  else if String.eqb x "Single argument x must be 4xN or Nx4 or 6xN or Nx6"
  then Some InvalidDimensionality
  else None.


(** What [fundamental_matrix] prints when it catches [ShapeError x]. *)
Definition shape_error_line (x : string) : string :=
  ("ShapeError, exception message: " ++ ShapeError_str x)%string.

(** ** Notions used in the statements *)

Section Notions.
Context {K : Type} `{Scalar K}.
Local Open Scope scalar_scope.

(** A view all of whose elements lie in its buffer, as every numpy array
    does. *)
Definition valid (h : list (list (list K))) (a : ndarray) : Prop :=
  forall i j, i < shape0 a -> j < shape1 a -> is_Some (get h a i j).

(** Two views with no element in common. *)
Definition separate (a b : ndarray) : Prop :=
  base a <> base b \/
  forall i j i' j', i < shape0 a -> j < shape1 a ->
                    i' < shape0 b -> j' < shape1 b ->
                    addr a i j <> addr b i' j'.

(** What column [k] of a row holds after [a[i, mask] = vals], counting
    [k] from where the mask starts, when it held [old]. *)
Fixpoint masked_val (mask : list bool) (vals : list K) (old : K) (k : nat) : K :=
  match mask with
  | [] => old
  | true :: m =>
      match vals with
      | v :: vs =>
          match k with
          | 0 => v
          | S k' => masked_val m vs old k'
          end
      | [] => old
      end
  | false :: m =>
      match k with
      | 0 => old
      | S k' => masked_val m vals old k'
      end
  end.

(** A point is finite when its third coordinate is above machine epsilon
    in absolute value. *)
Definition finite (x : K) : bool := sgtb (sabs x) seps.

(** The table of a 3xN array of finite points after its points are
    de-homogenised. *)
Definition dehomog (m : list (list K)) : list (list K) :=
  match m with
  | [r0; r1; r2] =>
      [map2 sdiv r0 r2; map2 sdiv r1 r2; map (fun _ => sone) r2]
  | _ => m
  end.

(** The mean distance of the points (xs, ys) from the origin and from
    their centroid, the scale that takes the latter to the square root of
    2, and the similarity transform of translation and scale. *)
Definition mean_distance_origin (xs ys : list K) : K :=
  mean (map ssqrt (map2 sadd (map sq xs) (map sq ys))).

Definition mean_distance (xs ys : list K) : K :=
  mean_distance_origin (map (fun x => x - mean xs) xs)
                       (map (fun y => y - mean ys) ys).

Definition norm_scale (xs ys : list K) : K :=
  ssqrt (sofnat 2) / mean_distance xs ys.

Definition similarity (scale c0 c1 : K) : list (list K) :=
  [[scale; szero; - scale * c0];
   [szero; scale; - scale * c1];
   [szero; szero; sone]].

Definition norm_T (xs ys : list K) : list (list K) :=
  similarity (norm_scale xs ys) (mean xs) (mean ys).


(** The layouts whose canonical arrays the code takes from the caller's
    arrays as they are: 3xN or Nx3 pairs, 6xN or Nx6 single arrays. *)
Definition homogeneous_layout (args : list ndarray) : bool :=
  match args with
  | [x1; _] => min_shape x1 =? 3
  | [x] => min_shape x =? 6
  | _ => false
  end.

(** Determinant of a 3x3 table: 0 exactly when its rank is at most 2,
    that is, when its smallest singular value is 0. *)
Definition det3 (M : list (list K)) : K :=
  match M with
  | [[a; b; c]; [d; e; f]; [g; h; i]] =>
      a * (e * i - f * h) - b * (d * i - f * g) + c * (d * h - e * g)
  | _ => szero
  end.

Definition is3x3 (M : list (list K)) : Prop :=
  exists a b c d e f g h i, M = [[a; b; c]; [d; e; f]; [g; h; i]].

(** [k * M] *)
Definition scale_table (k : K) (M : list (list K)) : list (list K) :=
  map (map (smul k)) M.

(** [A . v = 0] *)
Definition annihilates (A : list (list K)) (v : list K) : Prop :=
  Forall (fun r => vdot r v = szero) A.

(** The null space of [A], among the vectors of 9 elements, is the line
    of [f]. *)
Definition kernel_line (A : list (list K)) (f : list K) : Prop :=
  annihilates A f /\
  forall v, length v = 9 -> annihilates A v -> exists k, v = map (smul k) f.

(** A result of [np.linalg.svd] on a table of rows of 9 elements, as far
    as the algorithm relies on it: [Vh] is 9x9 and its last row, the right
    singular vector of the smallest singular value, is not the zero vector
    and is a null vector of the table when the table has one. *)
Definition svd_last_row_ok (A : list (list K))
    (r : outcome (list (list K) * list K * list (list K))) : Prop :=
  exists U S Vh v,
    r = Return (U, S, Vh) /\
    length Vh = 9 /\ Forall (fun row => length row = 9) Vh /\
    Vh !! 8 = Some v /\ v <> repeat szero 9 /\
    ((exists u, length u = 9 /\ u <> repeat szero 9 /\ annihilates A u) ->
     annihilates A v).

(** A result of [np.linalg.svd] on a 3x3 table, as far as the algorithm
    relies on it: the three factors give the table back, and the smallest
    singular value, the last, is 0 when the table is singular. *)
Definition svd_rank_ok (M : list (list K))
    (r : outcome (list (list K) * list K * list (list K))) : Prop :=
  exists U d1 d2 d3 Vh,
    r = Return (U, [d1; d2; d3], Vh) /\
    is3x3 U /\ is3x3 Vh /\
    dot (dot U (diag3 d1 d2 d3)) Vh = M /\
    (det3 M = szero -> d3 = szero).

Definition svd_ok (M : list (list K))
    (r : outcome (list (list K) * list K * list (list K))) : Prop :=
  (Forall (fun row => length row = 9) M -> svd_last_row_ok M r) /\
  (is3x3 M -> svd_rank_ok M r).

(** The factors [np.linalg.svd] returns for a 3x3 table are 3x3. *)
Definition svd_shapes
    (svd : list (list K) -> outcome (list (list K) * list K * list (list K)))
    : Prop :=
  forall M U D Vh, is3x3 M -> svd M = Return (U, D, Vh) ->
                   is3x3 U /\ is3x3 Vh.

(** Row of the constraint matrix for the left point [p1] and the right
    point [p2], given by their first two coordinates. *)
Definition crow (p1 p2 : K * K) : list K :=
  [fst p2 * fst p1; fst p2 * snd p1; fst p2;
   snd p2 * fst p1; snd p2 * snd p1; snd p2;
   fst p1; snd p1; sone].

(** Where the similarity of scale [s] and centre [(a, b)] takes the point
    [p], as [np.dot(T, pts)] computes its first two coordinates. *)
Definition similarity_point (s a b : K) (p : K * K) : K * K :=
  (vdot [s; szero; - s * a] [fst p; snd p; sone],
   vdot [szero; s; - s * b] [fst p; snd p; sone]).

(** The 3x3 table of a vector of 9 elements, row by row. *)
Definition table9 (v : list K) : list (list K) :=
  match v with
  | [a; b; c; d; e; f; g; h; i] => [[a; b; c]; [d; e; f]; [g; h; i]]
  | _ => []
  end.

(** [x2^T . F . x1], the residual of the epipolar constraint for the
    homogeneous points [x1] and [x2]. *)
Definition epipolar_residual (F : list (list K)) (x1 x2 : list K) : K :=
  vdot x2 (map (fun r => vdot r x1) F).

End Notions.

(** ** Q1.py: the main block *)

Section MainBlock.
Context {K : Type} `{Scalar K}.
Local Open Scope scalar_scope.

(** [np.dot(F, (p[0], p[1], 1))] for a 3x3 matrix [F], as a line.  The
    matrices [fundamental_matrix] returns are 3x3; numpy refuses a matrix
    whose rows do not have 3 elements. *)
Definition dot_mat_pt (F : list (list K)) (p : K * K) : outcome (K * K * K) :=
  match F with
  | [[a; b; c]; [d; e; f]; [g; h; i]] =>
      let v := [fst p; snd p; sone] in
      Return (vdot [a; b; c] v, vdot [d; e; f] v, vdot [g; h; i] v)
  | _ => Raise ValueError
  end.

(** The loop of the main block over [zip(pts_left, pts_right)]: the line
    of each left point in the right image, [F . pl], and the line of each
    right point in the left image, [F^T . pr].  The result is
    [(lines_left, lines_right)]. *)
Fixpoint epipolar_lines (F : list (list K)) (pts : list ((K * K) * (K * K)))
    : outcome (list (K * K * K) * list (K * K * K)) :=
  match pts with
  | [] => Return ([], [])
  | (pl, pr) :: rest =>
      match dot_mat_pt F pl with
      | Raise e => Raise e
      | Return lr =>
          match dot_mat_pt (transpose F) pr with
          | Raise e => Raise e
          | Return ll =>
              match epipolar_lines F rest with
              | Raise e => Raise e
              | Return (lines_left, lines_right) =>
                  Return (ll :: lines_left, lr :: lines_right)
              end
          end
      end
  end.

(** The two distances the main block appends for an estimate [F]:
    [epipolar_distance(pts_left, pts_right, lines_left, lines_right)] and
    [algebraic_distance(pts_right, lines_right)], on the lines of the loop
    above, as they are computed when the drawing in between returns. *)
Definition main_distances (F : list (list K)) (pts_left pts_right : list (K * K))
    : outcome (K * K) :=
  match epipolar_lines F (combine pts_left pts_right) with
  | Raise e => Raise e
  | Return (lines_left, lines_right) =>
      match epipolar_distance pts_left pts_right lines_left lines_right with
      | Raise e => Raise e
      | Return sed =>
          match algebraic_distance pts_right lines_right with
          | Raise e => Raise e
          | Return alg => Return (sed, alg)
          end
      end
  end.

(** The drawing between the lines and the distances (lines 157 to 169):
    [draw_lines] for each image, the plot and the saved file, the work of
    OpenCV, matplotlib and PIL.  It changes nothing the distances read,
    and it may raise: [draw_lines] divides by the second coefficient of
    each line and converts the quotient with [int], which raises on an
    infinite or NaN quotient. *)
Variable drawing :
  list (K * K * K) -> list (K * K * K) -> list (K * K) -> list (K * K)
  -> outcome unit.

(** One pass of the main block from the estimate on (lines 150 to 173):
    the lines, the drawing, the two distances. *)
Definition main_pass (F : list (list K)) (pts_left pts_right : list (K * K))
    : outcome (K * K) :=
  match epipolar_lines F (combine pts_left pts_right) with
  | Raise e => Raise e
  | Return (lines_left, lines_right) =>
      match drawing lines_left lines_right pts_left pts_right with
      | Raise e => Raise e
      | Return _ =>
          match epipolar_distance pts_left pts_right lines_left lines_right with
          | Raise e => Raise e
          | Return sed =>
              match algebraic_distance pts_right lines_right with
              | Raise e => Raise e
              | Return alg => Return (sed, alg)
              end
          end
      end
  end.

End MainBlock.

(** ** utils.py: the disparity errors *)

Section Disparity.
Context {K : Type} `{Scalar K}.
Local Open Scope scalar_scope.

(** [np.median], a function of numpy. *)
Variable median : list K -> K.

(** [gt[:, :, 0]] of an image given as rows of pixels, each pixel the
    list of its channels; Python's [IndexError] when a pixel has no
    channel.  The rows of a numpy array have one length, and so have its
    pixels; an array without pixels and without channels, of shape
    (0, n, 0), is not told from one without pixels here, and numpy raises
    [IndexError] for it. *)
Definition channel0 (gt : list (list (list K))) : option (list (list K)) :=
  mapM (mapM (fun px => px !! 0)) gt.

(** [np.where(errors > t)[0].shape[0]] *)
Definition count_above (t : K) (errors : list K) : nat :=
  length (List.filter (fun e => sgtb e t) errors).

(** [calc_errors(disparity_matrix, gt)]: the mean and the median of the
    absolute differences, and the percentages of the differences above
    0.5 and above 4.  The last two divide one [int] by another, and
    Python raises when no difference was formed. *)
Definition calc_errors (disparity_matrix : list (list K))
    (gt : list (list (list K))) : outcome (K * K * K * K) :=
  let flat_d := concat disparity_matrix in
  match channel0 gt with
  | None => Raise IndexError
  | Some g =>
      let flat_gt := map (fun x => x / sofnat 3) (concat g) in
      let errors :=
        map (fun e => sabs (fst e - snd e)) (combine flat_gt flat_d) in
      let avg_error := mean errors in
      let med_error := median errors in
      match length errors with
      | O => Raise ZeroDivisionError
      | n =>
          let bad_05 :=
            sofnat (count_above (sone / sofnat 2) errors) / sofnat n
            * sofnat 100 in
          let bad_4 :=
            sofnat (count_above (sofnat 4) errors) / sofnat n * sofnat 100 in
          Return (avg_error, med_error, bad_05, bad_4)
      end
  end.

End Disparity.

(** ** Further notions used in the statements *)

Section Notions2.
Context {K : Type} `{Scalar K}.
Local Open Scope scalar_scope.

(** The homogeneous coordinates [(x, y, 1)] of an image point. *)
Definition homog (p : K * K) : list K := [fst p; snd p; sone].

(** The line [(k * a, k * b, k * c)]. *)
Definition scale_line (k : K) (l : K * K * K) : K * K * K :=
  (k * fst (fst l), k * snd (fst l), k * snd l).

(** What position [k] of a row holds after [a[i, mask] = vals[mask]],
    when it held [old]. *)
Definition pick (mask : list bool) (vals : list K) (old : K) (k : nat) : K :=
  match mask !! k, vals !! k with
  | Some true, Some v => v
  | _, _ => old
  end.

End Notions2.

(** ** Q1.py: the mouse callback *)

(** The two global lists of clicked points, and the lines printed on the
    shell. *)
Record clicks : Type := Clicks {
  POINTS_LEFT : list (Z * Z);
  POINTS_RIGHT : list (Z * Z);
  shell : list string
}.

Section Mouse.

(** [cv2.EVENT_LBUTTONDOWN] and [cv2.EVENT_RBUTTONDOWN], constants of
    OpenCV. *)
Variables EVENT_LBUTTONDOWN EVENT_RBUTTONDOWN : Z.

(** What [print(x, ',', y)] writes. *)
Definition print_xy (x y : Z) : string :=
  (pretty x ++ " , " ++ pretty y)%string.

(** [click_event(event, x, y, flags, params)]: two tests, one after the
    other; [flags] and [params] are not read. *)
Definition click_event (event x y : Z) (s : clicks) : clicks :=
  let s :=
    if Z.eqb event EVENT_LBUTTONDOWN
    then Clicks (POINTS_LEFT s ++ [(x, y)]) (POINTS_RIGHT s)
                (shell s ++ [print_xy x y])
    else s in
  if Z.eqb event EVENT_RBUTTONDOWN
  then Clicks (POINTS_LEFT s) (POINTS_RIGHT s ++ [(x, y)])
              (shell s ++ [print_xy x y])
  else s.

(** The calls OpenCV makes for a run of mouse events [(event, x, y)], in
    turn. *)
Definition click_events (evs : list (Z * Z * Z)) (s : clicks) : clicks :=
  fold_left (fun s ev => click_event (fst (fst ev)) (snd (fst ev)) (snd ev) s)
            evs s.

(** The points of the events of one button, in the order of the events. *)
Definition clicked (button : Z) (evs : list (Z * Z * Z)) : list (Z * Z) :=
  map (fun ev => (snd (fst ev), snd ev))
      (List.filter (fun ev => Z.eqb (fst (fst ev)) button) evs).

End Mouse.

(** ** Exact arithmetic: inverse similarity, a singular value decomposition,
    and the correspondences of the examples *)

(** The inverse of a similarity of nonzero scale. *)
Definition similarity_inv (s a b : R) : list (list R) :=
  similarity (/ s)%R (- s * a)%R (- s * b)%R.

(** An [np.linalg.svd] for exact arithmetic: some function with the two
    properties the algorithm relies on. *)
Definition svd_choice (M : list (list R))
    : outcome (list (list R) * list R * list (list R)) :=
  epsilon (inhabits (Raise LinAlgError)) (svd_ok M).

(** The singular values [np.linalg.svd] returns are not negative and come
    in descending order. *)
Definition svd_descending
    (r : outcome (list (list R) * list R * list (list R))) : Prop :=
  forall U d1 d2 d3 Vh,
    r = Return (U, [d1; d2; d3], Vh) -> (0 <= d3 /\ d3 <= d2 /\ d2 <= d1)%R.


(** Eight correspondences of the singular matrix [Fs], for which the
    right point is one row below the left: third coordinate 1 in
    [world1], third coordinate 2 (and the other two doubled) in
    [world2].  [Fraw] has for line the null space of the constraint
    matrix of the coordinates of [world2] as held. *)
Definition xs1 : list R := [0; 1; 1; 0; 0; 1; 1; 0]%R.
Definition ys1 : list R := [0; 0; 1; 3; 2; 1; 0; 0]%R.
Definition xs2 : list R := [0; 0; 0; 0; 0; 3; 3; 1]%R.
Definition ys2 : list R := [1; 1; 2; 4; 3; 2; 1; 1]%R.
Definition Fs : list (list R) := [[0; 0; 0]; [0; 0; -1]; [0; 1; 1]]%R.
Definition left1 : ndarray := NDArray 0 0 0 [3; 8] false.
Definition right1 : ndarray := NDArray 1 0 0 [3; 8] false.
Definition hxs1 : list R := [0; 2; 2; 0; 0; 2; 2; 0]%R.
Definition hys1 : list R := [0; 0; 2; 6; 4; 2; 0; 0]%R.
Definition hxs2 : list R := [0; 0; 0; 0; 0; 6; 6; 2]%R.
Definition hys2 : list R := [2; 2; 4; 8; 6; 4; 2; 2]%R.
Definition world2 : world R :=
  World [[hxs1; hys1; repeat 2%R 8]; [hxs2; hys2; repeat 2%R 8]] [].
Definition Fraw : list (list R) := [[0; 0; 0]; [0; 0; -1]; [0; 1; 2]]%R.

(** The correspondences of [world1] as Q1.py passes them: two Nx2 arrays,
    one point a row. *)
Definition world3 : world R :=
  World [[[0; 0]; [1; 0]; [1; 1]; [0; 3]; [0; 2]; [1; 1]; [1; 0]; [0; 0]];
         [[0; 1]; [0; 1]; [0; 2]; [0; 4]; [0; 3]; [3; 2]; [3; 1]; [1; 1]]]%R
        [].
Definition tall1 : ndarray := NDArray 0 0 0 [8; 2] false.
Definition tall2 : ndarray := NDArray 1 0 0 [8; 2] false.

(** ** Binary64: the exact value of a number *)

(** A finite binary64 number is [m * 2 ^ e] for integers [m] and [e]. *)
Definition exact (x : float) : option (Z * Z) :=
  match Prim2SF x with
  | S754_zero _ => Some (0, 0)%Z
  | S754_finite s m e => Some (if s then Z.neg m else Z.pos m, e)
  | _ => None
  end.



(** * Properties *)

Ltac table3 H :=
  destruct H as (? & ? & ? & ? & ? & ? & ? & ? & ? & ->).

(** ** Validation (process_input_pointpairs, fundamental_matrix) *)

Section Validation.
Context {K : Type} `{Scalar K}.
Variable svd : list (list K) -> outcome (list (list K) * list K * list (list K)).

Lemma bind_raise {A B : Type} (c : M K A) (k : A -> M K B) w e w' :
  c w = (Raise e, w') -> bind c k w = (Raise e, w').
Proof. intros Hc. unfold bind. rewrite Hc. reflexivity. Qed.

Lemma bind_return {A B : Type} (c : M K A) (k : A -> M K B) w a w' :
  c w = (Return a, w') -> bind c k w = k a w'.
Proof. intros Hc. unfold bind. rewrite Hc. reflexivity. Qed.


(** What the [try] of [fundamental_matrix] makes of a [ShapeError]. *)
Lemma fundamental_matrix_catches args normalize w x :
  process_input_pointpairs (K := K) args w = (Raise (ShapeError x), w) ->
  fundamental_matrix svd args normalize w
  = (Return None, World (heap w) (stdout w ++ [shape_error_line x])).
Proof.
  intros Hp. unfold fundamental_matrix.
  rewrite (bind_raise _ _ _ _ _ Hp). reflexivity.
Qed.


(** C10.  With a number of arrays other than one or two the entry point
    does not raise: the [ShapeError] of the last branch of validation is
    caught like the others, its message is printed and [None] is
    returned. *)
Theorem fundamental_matrix_wrong_argument_count args normalize w :
  length args <> 1 -> length args <> 2 ->
  fundamental_matrix svd args normalize w
  = (Return None,
     World (heap w)
           (stdout w ++
            [shape_error_line "Wrong number of arguments supplied"])).
Proof.
  intros H1 H2.
  apply fundamental_matrix_catches.
  destruct args as [|a [|b [|c r]]]; simpl in *; try congruence; reflexivity.
Qed.

(** C5, as amended.  Two arrays of one two-dimensional shape whose larger
    dimension is 7 are refused for their number of points; two arrays of
    different shapes are refused for that; a single two-dimensional array
    whose smaller dimension is 5 is refused for its width when its larger
    dimension is at least 8, and for its number of points otherwise, since
    the points are counted first. *)
Theorem validation_boundaries (x1 x2 x : ndarray) (w : world K) :
  (shape x1 = shape x2 -> ndim x1 = 2 -> max_shape x1 = 7 ->
   process_input_pointpairs [x1; x2] w
   = (Raise (ShapeError
        "At least 8 points are needed to compute the fundamental matrix"), w))
  /\
  (shape x1 <> shape x2 ->
   process_input_pointpairs [x1; x2] w
   = (Raise (ShapeError "the two arguments should have same size"), w))
  /\
  (ndim x = 2 -> min_shape x = 5 -> 8 <= max_shape x ->
   process_input_pointpairs [x] w
   = (Raise (ShapeError
        "Single argument x must be 4xN or Nx4 or 6xN or Nx6"), w))
  /\
  (ndim x = 2 -> max_shape x < 8 ->
   process_input_pointpairs [x] w
   = (Raise (ShapeError
        "At least 8 points are needed to compute the fundamental matrix"), w)).
Proof.
  unfold process_input_pointpairs, raise.
  repeat split.
  - intros Hs Hd Hn. rewrite bool_decide_eq_true_2 by exact Hs.
    rewrite Hd, Hn. reflexivity.
  - intros Hs. rewrite bool_decide_eq_false_2 by exact Hs. reflexivity.
  - intros Hd Hm Hn. rewrite Hd, Hm. simpl.
    destruct (Nat.ltb_spec (max_shape x) 8) as [Hlt | _]; [lia | reflexivity].
  - intros Hd Hn. rewrite Hd. simpl.
    destruct (Nat.ltb_spec (max_shape x) 8) as [_ | Hge]; [reflexivity | lia].
Qed.

End Validation.

(** The validation theorems at concrete calls, in binary64. *)


Lemma fundamental_matrix_wrong_argument_count_witness :
  let w := World ([] : list (list (list float))) [] in
  length ([] : list ndarray) <> 1 /\ length ([] : list ndarray) <> 2 /\
  fundamental_matrix (fun _ => Raise LinAlgError) [] false w
  = (Return None,
     World (heap w)
       (stdout w ++ [shape_error_line "Wrong number of arguments supplied"])).
Proof.
  split; [simpl; lia |]. split; [simpl; lia |].
  apply (fundamental_matrix_wrong_argument_count
           (fun _ => Raise LinAlgError) [] false _); simpl; lia.
Defined.

Lemma validation_boundaries_witness :
  let w := World ([] : list (list (list float))) [] in
  let a27 := NDArray 0 0 0 [2; 7] false in
  let a72 := NDArray 1 0 0 [7; 2] false in
  let a59 := NDArray 2 0 0 [5; 9] false in
  let a56 := NDArray 3 0 0 [5; 6] false in
  process_input_pointpairs [a27; a27] w
  = (Raise (ShapeError
       "At least 8 points are needed to compute the fundamental matrix"), w)
  /\
  process_input_pointpairs [a27; a72] w
  = (Raise (ShapeError "the two arguments should have same size"), w)
  /\
  process_input_pointpairs [a59] w
  = (Raise (ShapeError
       "Single argument x must be 4xN or Nx4 or 6xN or Nx6"), w)
  /\
  process_input_pointpairs [a56] w
  = (Raise (ShapeError
       "At least 8 points are needed to compute the fundamental matrix"), w).
Proof.
  intros w a27 a72 a59 a56.
  split; [| split; [| split]].
  - apply (validation_boundaries a27 a27 a59 w); reflexivity.
  - apply (validation_boundaries a27 a72 a59 w). discriminate.
  - apply (validation_boundaries a27 a27 a59 w); [reflexivity | reflexivity |].
    vm_compute. lia.
  - apply (validation_boundaries a27 a27 a56 w); [reflexivity |].
    vm_compute. lia.
Defined.

(** C5 as the specification states it fails at a 5x7 array: its width is
    5, and the error is the one of the point count. *)
Lemma width_five_with_seven_points :
  let w := World [repeat (repeat 0%float 7) 5] [] in
  let x := NDArray 0 0 0 [5; 7] false in
  let m := "At least 8 points are needed to compute the fundamental matrix"%string in
  min_shape x = 5 /\
  process_input_pointpairs [x] w = (Raise (ShapeError m), w) /\
  error_kind m = Some InsufficientPoints /\
  error_kind m <> Some InvalidDimensionality.
Proof. repeat split; try reflexivity. discriminate. Qed.

(** ** Arrays and the store *)

Section ArrayFacts.
Context {K : Type} `{Scalar K}.
Implicit Types (h : list (list (list K))) (a b : ndarray).

Lemma addr_inj a i j i' j' : addr a i j = addr a i' j' -> i = i' /\ j = j'.
Proof.
  unfold addr. destruct (transposed a); intros [= H1 H2]; lia.
Qed.

(** Reading after one write, through any view. *)
Lemma get_set h a i j v b i' j' :
  get (set h a i j v) b i' j'
  = if decide (base b = base a /\ addr b i' j' = addr a i j)
    then (fun _ => v) <$> get h b i' j'
    else get h b i' j'.
Proof.
  unfold get, set.
  destruct (decide (base b = base a)) as [Hb | Hb].
  - rewrite Hb, list_lookup_alter_eq.
    destruct (h !! base a) as [buf |]; simpl; [| now destruct (decide _)].
    destruct (decide (fst (addr b i' j') = fst (addr a i j))) as [Hr | Hr].
    + rewrite Hr, list_lookup_alter_eq.
      destruct (buf !! fst (addr a i j)) as [rw |]; simpl;
        [| now destruct (decide _)].
      destruct (decide (snd (addr b i' j') = snd (addr a i j))) as [Hc | Hc].
      * rewrite Hc.
        rewrite decide_True
          by (split; [reflexivity | now apply injective_projections]).
        destruct (decide (snd (addr a i j) < length rw)) as [Hlt | Hge].
        -- rewrite list_lookup_insert_eq by exact Hlt.
           apply lookup_lt_is_Some_2 in Hlt as [x ->]. reflexivity.
        -- rewrite list_insert_ge by lia.
           rewrite (lookup_ge_None_2 rw) by lia. reflexivity.
      * rewrite list_lookup_insert_ne by congruence.
        rewrite decide_False; [reflexivity |].
        intros [_ Heq]. apply Hc. now rewrite Heq.
    + rewrite list_lookup_alter_ne by congruence.
      rewrite decide_False; [reflexivity |].
      intros [_ Heq]. apply Hr. now rewrite Heq.
  - rewrite list_lookup_alter_ne by congruence.
    rewrite decide_False; [reflexivity | tauto].
Qed.

Lemma set_length h a i j v : length (set h a i j v) = length h.
Proof. unfold set. apply length_alter. Qed.

Lemma set_other_buffer h a i j v k :
  k <> base a -> set h a i j v !! k = h !! k.
Proof. intros Hk. unfold set. apply list_lookup_alter_ne. congruence. Qed.

(** Reading after a masked write into row [i], from column [j] on. *)
Lemma get_set_masked_from a i mask : forall vals h j i' j',
  get (set_masked_from h a i j mask vals) a i' j'
  = if decide (i' = i /\ j <= j')
    then (fun old => masked_val mask vals old (j' - j)) <$> get h a i' j'
    else get h a i' j'.
Proof.
  induction mask as [| [|] m IH]; intros vals h j i' j'; simpl.
  - destruct (decide _); [| reflexivity].
    now destruct (get h a i' j').
  - destruct vals as [| v vs].
    + destruct (decide _); [| reflexivity]. now destruct (get h a i' j').
    + rewrite IH, get_set.
      destruct (decide (i' = i /\ S j <= j')) as [[-> Hj] | Hn].
      * rewrite decide_False
          by (intros [_ Ha]; apply addr_inj in Ha; lia).
        rewrite decide_True by (split; [reflexivity | lia]).
        replace (j' - j) with (S (j' - S j)) by lia. reflexivity.
      * destruct (decide (i' = i /\ j <= j')) as [[-> Hj] | Hn'].
        -- assert (j' = j) as -> by lia.
           rewrite decide_True by (split; reflexivity).
           rewrite Nat.sub_diag. reflexivity.
        -- rewrite decide_False; [reflexivity |].
           intros [_ Ha]. apply addr_inj in Ha. lia.
  - rewrite IH.
    destruct (decide (i' = i /\ S j <= j')) as [[-> Hj] | Hn].
    + rewrite decide_True by (split; [reflexivity | lia]).
      replace (j' - j) with (S (j' - S j)) by lia. reflexivity.
    + destruct (decide (i' = i /\ j <= j')) as [[-> Hj] | Hn']; [| reflexivity].
      assert (j' = j) as -> by lia.
      rewrite Nat.sub_diag. now destruct (get h a i j).
Qed.

(** A masked write leaves alone what another view shows, when the two
    share no element. *)
Lemma get_set_masked_from_other a b i mask : forall vals h j i' j',
  (forall jj, j <= jj < j + length mask ->
     base b <> base a \/ addr b i' j' <> addr a i jj) ->
  get (set_masked_from h a i j mask vals) b i' j' = get h b i' j'.
Proof.
  induction mask as [| [|] m IH]; intros vals h j i' j' Hsep; simpl.
  - reflexivity.
  - destruct vals as [| v vs]; [reflexivity |].
    rewrite IH by (intros jj Hjj; apply Hsep; simpl; lia).
    rewrite get_set. rewrite decide_False; [reflexivity |].
    intros [Hb Ha]. destruct (Hsep j) as [Hs | Hs]; [simpl; lia | |]; auto.
  - apply IH. intros jj Hjj. apply Hsep. simpl. lia.
Qed.

Lemma set_masked_from_length a i mask : forall vals h j,
  length (set_masked_from h a i j mask vals) = length h.
Proof.
  induction mask as [| [|] m IH]; intros vals h j; simpl; auto.
  destruct vals; auto. now rewrite IH, set_length.
Qed.

Lemma set_masked_from_other_buffer a i mask k : forall vals h j,
  k <> base a -> set_masked_from h a i j mask vals !! k = h !! k.
Proof.
  induction mask as [| [|] m IH]; intros vals h j Hk; simpl; auto.
  destruct vals; auto. now rewrite IH, set_other_buffer.
Qed.

(** With no position selected nothing is written. *)
Lemma set_masked_from_none a i n : forall vals h j,
  set_masked_from h a i j (repeat false n) vals = h.
Proof. induction n as [| n IH]; intros; simpl; auto. Qed.

Lemma select_none n : forall xs : list K, select (repeat false n) xs = [].
Proof. induction n as [| n IH]; intros [| x xs]; simpl; auto. Qed.

Lemma select_all : forall xs : list K, select (repeat true (length xs)) xs = xs.
Proof. induction xs as [| x xs IH]; simpl; congruence. Qed.

Lemma masked_val_all : forall (vals : list K) old k,
  k < length vals ->
  masked_val (repeat true (length vals)) vals old k = nth k vals old.
Proof.
  induction vals as [| v vs IH]; intros old k Hk; simpl in *; [lia |].
  destruct k as [| k]; [reflexivity |]. apply IH. lia.
Qed.

Lemma map2_length (f : K -> K -> K) : forall xs ys,
  length xs = length ys -> length (map2 f xs ys) = length xs.
Proof.
  induction xs as [| x xs IH]; intros [| y ys] Hl; simpl in *; try lia.
  now rewrite IH by lia.
Qed.

Lemma map2_lookup (f : K -> K -> K) : forall xs ys i x y,
  xs !! i = Some x -> ys !! i = Some y -> map2 f xs ys !! i = Some (f x y).
Proof.
  induction xs as [| x0 xs IH]; intros [| y0 ys] [| i] x y Hx Hy;
    simpl in *; try discriminate.
  - congruence.
  - eapply IH; eauto.
Qed.

Lemma row_length h a i : length (row h a i) = shape1 a.
Proof. unfold row. now rewrite length_map, length_seq. Qed.

Lemma row_lookup h a i j :
  j < shape1 a -> row h a i !! j = Some (default szero (get h a i j)).
Proof.
  intros Hj. unfold row.
  rewrite list_lookup_fmap, lookup_seq_lt by exact Hj. reflexivity.
Qed.

Lemma row_ext h h' a b i :
  shape1 a = shape1 b ->
  (forall j, j < shape1 a -> get h' a i j = get h b i j) ->
  row h' a i = row h b i.
Proof.
  intros Hs He. unfold row. rewrite <- Hs.
  apply map_ext_in. intros j Hj. apply in_seq in Hj.
  rewrite He by lia. reflexivity.
Qed.

Lemma read_three h a :
  shape0 a = 3 -> read h a = [row h a 0; row h a 1; row h a 2].
Proof. intros Hs. unfold read. rewrite Hs. reflexivity. Qed.

(** Row [k] of the view after [a[i, :] = vals]. *)
Lemma row_set_masked_all h a i vals k :
  valid h a -> k < shape0 a -> length vals = shape1 a ->
  row (set_masked h a i (repeat true (shape1 a)) vals) a k
  = if decide (k = i) then vals else row h a k.
Proof.
  intros Hv Hk Hl. unfold set_masked.
  apply list_eq. intros j.
  destruct (decide (j < shape1 a)) as [Hj | Hj].
  - rewrite row_lookup, get_set_masked_from by exact Hj.
    destruct (decide (k = i)) as [-> | Hne].
    + rewrite decide_True by (split; [reflexivity | lia]).
      destruct (Hv i j Hk Hj) as [x ->]. simpl.
      rewrite Nat.sub_0_r, <- Hl, masked_val_all by lia.
      destruct (lookup_lt_is_Some_2 vals j) as [y Hy]; [lia |].
      rewrite (nth_lookup_Some _ _ _ _ Hy). now rewrite Hy.
    + rewrite decide_False by tauto.
      rewrite row_lookup by exact Hj. reflexivity.
  - rewrite (lookup_ge_None_2 (row _ _ _))
      by (rewrite row_length; lia).
    symmetry. apply lookup_ge_None_2.
    destruct (decide (k = i)); [| rewrite row_length]; lia.
Qed.

(** A masked write keeps every view in its buffer. *)
Lemma valid_set_masked h a b i mask vals :
  valid h b -> valid (set_masked h a i mask vals) b.
Proof.
  intros Hv i' j' Hi Hj. unfold set_masked.
  specialize (Hv i' j' Hi Hj).
  revert vals h Hv. generalize 0.
  induction mask as [| [|] m IH]; intros j vals h Hv; simpl; auto.
  destruct vals as [| v vs]; auto.
  apply IH. rewrite get_set.
  destruct (decide _); [| exact Hv].
  destruct Hv as [x ->]. now exists v.
Qed.

(** ... and what a separate view shows. *)
Lemma row_set_masked_separate h a b i mask vals k :
  separate a b -> i < shape0 a -> length mask = shape1 a -> k < shape0 b ->
  row (set_masked h a i mask vals) b k = row h b k.
Proof.
  intros Hsep Hi Hl Hk. apply row_ext; [reflexivity |].
  intros j Hj. unfold set_masked.
  apply get_set_masked_from_other. intros jj Hjj.
  destruct Hsep as [Hb | Ha]; [left; congruence | right].
  intros He. apply (Ha i jj k j); auto; lia.
Qed.

(** ** normalize2dpts *)

Lemma similarity_eq (scale c0 c1 : K) :
  mset (mset (mset (mset eye3 0 0 scale) 1 1 scale) 0 2
          (smul (sneg scale) c0)) 1 2 (smul (sneg scale) c1)
  = similarity scale c0 c1.
Proof. reflexivity. Qed.

Lemma map_const_true {A : Type} (f : A -> bool) (l : list A) :
  Forall (fun x => f x = true) l -> map f l = repeat true (length l).
Proof. induction 1; simpl; congruence. Qed.

Lemma map_const_false {A : Type} (f : A -> bool) (l : list A) :
  Forall (fun x => f x = false) l -> map f l = repeat false (length l).
Proof. induction 1; simpl; congruence. Qed.

(** The function raises for one reason only. *)
Lemma normalize2dpts_returns pts w :
  shape0 pts = 3 ->
  exists r h', normalize2dpts pts w = (Return r, World h' (stdout w)).
Proof.
  intros Hs. unfold normalize2dpts. rewrite Hs. simpl. eauto.
Qed.

Lemma normalize2dpts_raises pts w :
  shape0 pts <> 3 ->
  normalize2dpts pts w = (Raise (ShapeError "pts must be 3xN"), w).
Proof.
  intros Hs. unfold normalize2dpts.
  destruct (Nat.eqb_spec (shape0 pts) 3); [contradiction | reflexivity].
Qed.

(** It writes into the buffer of its argument and nowhere else. *)
Lemma normalize2dpts_frame pts w r w' :
  normalize2dpts pts w = (r, w') ->
  stdout w' = stdout w /\
  length (heap w') = length (heap w) /\
  forall k, k <> base pts -> heap w' !! k = heap w !! k.
Proof.
  unfold normalize2dpts.
  destruct (negb _); intros [= <- <-]; [auto |]. simpl.
  unfold set_masked. split; [reflexivity |]. split.
  - now rewrite !set_masked_from_length.
  - intros k Hk. now rewrite !set_masked_from_other_buffer by exact Hk.
Qed.

Lemma select_all_row h a i :
  select (repeat true (shape1 a)) (row h a i) = row h a i.
Proof. rewrite <- (row_length h a i) at 1. apply select_all. Qed.

Lemma read_set_masked_separate h a b i mask vals :
  separate a b -> i < shape0 a -> length mask = shape1 a ->
  read (set_masked h a i mask vals) b = read h b.
Proof.
  intros Hsep Hi Hl. unfold read. apply map_ext_in.
  intros k Hk. apply in_seq in Hk.
  apply row_set_masked_separate; auto; lia.
Qed.

(** With every point finite: the buffer holds the de-homogenised points
    afterwards, and the transform is the similarity of their centroid and
    mean distance. *)
Lemma normalize2dpts_all_finite pts w :
  shape0 pts = 3 -> valid (heap w) pts ->
  Forall (fun x => finite x = true) (row (heap w) pts 2) ->
  let m := dehomog (read (heap w) pts) in
  let xs := nth 0 m [] in
  let ys := nth 1 m [] in
  exists h',
    normalize2dpts pts w
    = (Return (dot (norm_T xs ys) m, norm_T xs ys), World h' (stdout w)) /\
    read h' pts = m /\
    (forall b, valid (heap w) b -> valid h' b) /\
    (forall b, separate pts b -> read h' b = read (heap w) b).
Proof.
  intros Hs Hv Hf m xs ys.
  unfold normalize2dpts. rewrite Hs. simpl negb. cbv iota. cbv zeta.
  change (fun x : K => sgtb (sabs x) seps) with (finite (K := K)).
  rewrite (map_const_true _ _ Hf), row_length.
  set (h := heap w) in *.
  rewrite !(select_all_row h).
  set (r0 := row h pts 0). set (r1 := row h pts 1). set (r2 := row h pts 2).
  assert (Hl0 : length r0 = shape1 pts) by apply row_length.
  assert (Hl1 : length r1 = shape1 pts) by apply row_length.
  assert (Hl2 : length r2 = shape1 pts) by apply row_length.
  set (h1 := set_masked h pts 0 _ (map2 sdiv r0 r2)).
  assert (Hv1 : valid h1 pts) by now apply valid_set_masked.
  assert (H10 : row h1 pts 0 = map2 sdiv r0 r2).
  { unfold h1. rewrite row_set_masked_all; auto; [lia |].
    rewrite map2_length; congruence. }
  assert (H11 : row h1 pts 1 = r1).
  { unfold h1. rewrite row_set_masked_all; auto; [lia |].
    rewrite map2_length; congruence. }
  assert (H12 : row h1 pts 2 = r2).
  { unfold h1. rewrite row_set_masked_all; auto; [lia |].
    rewrite map2_length; congruence. }
  rewrite !(select_all_row h1), H11, H12.
  set (h2 := set_masked h1 pts 1 _ (map2 sdiv r1 r2)).
  assert (Hv2 : valid h2 pts) by now apply valid_set_masked.
  assert (H20 : row h2 pts 0 = map2 sdiv r0 r2).
  { unfold h2. rewrite row_set_masked_all; auto; [lia |].
    rewrite map2_length; congruence. }
  assert (H21 : row h2 pts 1 = map2 sdiv r1 r2).
  { unfold h2. rewrite row_set_masked_all; auto; [lia |].
    rewrite map2_length; congruence. }
  assert (H22 : row h2 pts 2 = r2).
  { unfold h2. rewrite row_set_masked_all; auto; [lia |].
    rewrite map2_length; congruence. }
  rewrite !(select_all_row h2), H22.
  set (h3 := set_masked h2 pts 2 _ (map (fun _ => sone) r2)).
  assert (H30 : row h3 pts 0 = map2 sdiv r0 r2).
  { unfold h3. rewrite row_set_masked_all; auto; [lia |].
    rewrite length_map; congruence. }
  assert (H31 : row h3 pts 1 = map2 sdiv r1 r2).
  { unfold h3. rewrite row_set_masked_all; auto; [lia |].
    rewrite length_map; congruence. }
  assert (H32 : row h3 pts 2 = map (fun _ => sone) r2).
  { unfold h3. rewrite row_set_masked_all; auto; [lia |].
    rewrite length_map; congruence. }
  assert (Hm : m = [map2 sdiv r0 r2; map2 sdiv r1 r2; map (fun _ => sone) r2]).
  { unfold m. rewrite (read_three h pts Hs). reflexivity. }
  assert (Hr3 : read h3 pts = m).
  { rewrite (read_three h3 pts Hs), H30, H31, H32. now rewrite Hm. }
  rewrite !(select_all_row h3), H30, H31, similarity_eq, Hr3.
  exists h3. split; [| split; [| split]].
  - unfold xs, ys. rewrite Hm. reflexivity.
  - exact Hr3.
  - intros b Hb. unfold h3, h2, h1. now repeat apply valid_set_masked.
  - intros b Hb. unfold h3, h2, h1.
    rewrite !read_set_masked_separate; auto;
      rewrite ?repeat_length; auto; lia.
Qed.

Lemma r_ones_heap a n w r w' :
  r_ones (K := K) a n w = (r, w') ->
  stdout w' = stdout w /\
  ((exists e, r = Raise e /\ w' = w) \/
   (exists a' m, r = Return a' /\ heap w' = heap w ++ [m] /\
                 base a' = length (heap w))).
Proof.
  unfold r_ones, alloc. destruct (shape1 a =? n); intros [= <- <-].
  - split; [reflexivity |]. right. eauto.
  - split; [reflexivity |]. left. eauto.
Qed.

End ArrayFacts.

(** ** Which buffers a call touches *)

Section Frames.
Context {K : Type} `{Scalar K}.
Variable svd : list (list K) -> outcome (list (list K) * list K * list (list K)).

Ltac crunch Hp :=
  repeat (match type of Hp with
          | context [match ?l with [] => _ | _ :: _ => _ end] => destruct l
          | context [if ?b then _ else _] => destruct b
          | context [let '(_, _) := ?p in _] => destruct p
          | context [match ?o with Return _ => _ | Raise _ => _ end] => destruct o
          | context [match ?o with Some _ => _ | None => _ end] => destruct o
          end; simpl in Hp).

(** After the normalisation the algorithm computes without the store. *)
Lemma eight_point_algorithm_frame x1 x2 normalize w r w' :
  eight_point_algorithm svd x1 x2 normalize w = (r, w') ->
  stdout w' = stdout w /\
  length (heap w') = length (heap w) /\
  forall k, normalize = false \/ (k <> base x1 /\ k <> base x2) ->
            heap w' !! k = heap w !! k.
Proof.
  unfold eight_point_algorithm.
  unfold bind at 1.
  destruct normalize.
  - unfold bind at 1.
    destruct (normalize2dpts x1 w) as [[[x1n T1] | e1] w1] eqn:E1;
      apply normalize2dpts_frame in E1 as (Ho1 & Hl1 & Hf1).
    + unfold bind at 1.
      destruct (normalize2dpts x2 w1) as [[[x2n T2] | e2] w2] eqn:E2;
        apply normalize2dpts_frame in E2 as (Ho2 & Hl2 & Hf2).
      * unfold ret at 1. unfold bind, lift, ret. intros Hp.
        assert (w' = w2) as ->.
        { crunch Hp; congruence. }
        split; [congruence |]. split; [congruence |].
        intros k [Hk | [Hk1 Hk2]]; [discriminate |].
        rewrite Hf2, Hf1; auto.
      * intros [= <- <-].
        split; [congruence |]. split; [congruence |].
        intros k [Hk | [Hk1 Hk2]]; [discriminate |].
        rewrite Hf2, Hf1; auto.
    + intros [= <- <-].
      split; [congruence |]. split; [congruence |].
      intros k [Hk | [Hk1 Hk2]]; [discriminate |]. auto.
  - unfold bind, lift, ret. intros Hp.
    assert (w' = w) as ->.
    { crunch Hp; congruence. }
    auto.
Qed.

(** The two allocations of a Euclidean layout. *)
Lemma r_ones_twice a b n w r w' :
  (bind (r_ones a n) (fun x1 =>
     bind (r_ones b n) (fun x2 => ret (x1, x2, n)))) w = (r, w') ->
  stdout w' = stdout w /\
  (exists l, heap w' = heap w ++ l) /\
  forall x1 x2 npts, r = Return (x1, x2, npts) ->
    length (heap w) <= base x1 /\ length (heap w) <= base x2.
Proof.
  unfold bind, ret.
  destruct (r_ones a n w) as [o1 w1] eqn:E1.
  apply r_ones_heap in E1 as (Ho1 & [(e & -> & ->) | (a' & m & -> & Hh1 & Hb1)]).
  - intros [= <- <-]. split; [reflexivity |]. split; [| discriminate].
    exists []. now rewrite app_nil_r.
  - destruct (r_ones b n w1) as [o2 w2] eqn:E2.
    apply r_ones_heap in E2
      as (Ho2 & [(e & -> & ->) | (b' & m' & -> & Hh2 & Hb2)]);
      intros [= <- <-]; (split; [congruence |]).
    + split; [eauto | discriminate].
    + split.
      * exists [m; m']. rewrite Hh2, Hh1, <- app_assoc. reflexivity.
      * intros x1 x2 npts [= <- <- <-]. rewrite Hb1, Hb2, Hh1, length_app. lia.
Qed.

(** Validation allocates and never writes: the store grows at its end,
    and the canonical arrays of a Euclidean layout are the new arrays. *)
Lemma process_input_pointpairs_heap args w r w' :
  process_input_pointpairs (K := K) args w = (r, w') ->
  stdout w' = stdout w /\
  (exists l, heap w' = heap w ++ l) /\
  forall x1 x2 npts, r = Return (x1, x2, npts) ->
    homogeneous_layout args = false ->
    length (heap w) <= base x1 /\ length (heap w) <= base x2.
Proof.
  unfold process_input_pointpairs, homogeneous_layout. intros Hp.
  assert (Hnil : exists l, heap w = heap w ++ l)
    by (exists []; now rewrite app_nil_r).
  repeat (match type of Hp with
          | context [match ?l with [] => _ | _ :: _ => _ end] => destruct l
          | context [if ?b then _ else _] => destruct b eqn:?
          end; simpl in Hp);
    try (apply r_ones_twice in Hp as (Ho & Hl & Hb);
         split; [exact Ho |]; split; [exact Hl |];
         intros x1 x2 npts Hr _; now apply (Hb x1 x2 npts));
    unfold raise, ret in Hp; simplify_eq;
    (split; [reflexivity |]); (split; [exact Hnil |]);
    intros x1 x2 npts Hr Hh; try discriminate; congruence.
Qed.

Lemma eight_point_algorithm_world x1 x2 w r1 w1 r2 w2 :
  normalize2dpts x1 w = (Return r1, w1) ->
  normalize2dpts x2 w1 = (Return r2, w2) ->
  snd (eight_point_algorithm svd x1 x2 true w) = w2.
Proof.
  intros E1 E2. unfold eight_point_algorithm.
  unfold bind at 1. unfold bind at 1. rewrite E1. destruct r1 as [x1n T1].
  unfold bind at 1. rewrite E2. destruct r2 as [x2n T2].
  unfold ret at 1. unfold bind, lift, ret.
  repeat (match goal with
          | |- context [match ?o with Return _ => _ | Raise _ => _ end] =>
              destruct o
          | |- context [match ?o with Some _ => _ | None => _ end] =>
              destruct o
          | |- context [let '(_, _) := ?p in _] => destruct p
          end; simpl); reflexivity.
Qed.

Lemma fundamental_matrix_heap args normalize w :
  heap (snd (fundamental_matrix svd args normalize w))
  = heap (snd (bind (process_input_pointpairs args)
                 (fun '(x1, x2, _) => eight_point_algorithm svd x1 x2 normalize)
                 w)).
Proof.
  unfold fundamental_matrix.
  destruct (bind _ _ w) as [[F | []] w']; reflexivity.
Qed.

(** C3, as amended.  When [normalize] is false, and for the Euclidean
    layouts whatever [normalize] is, a call of the entry point leaves
    every buffer of the caller as it was; and the canonical arrays of a
    Euclidean layout are new arrays, outside the caller's buffers. *)
Theorem estimation_keeps_caller_buffers args normalize w :
  normalize = false \/ homogeneous_layout args = false ->
  (forall k, k < length (heap w) ->
     heap (snd (fundamental_matrix svd args normalize w)) !! k = heap w !! k)
  /\
  (forall x1 x2 npts w1,
     process_input_pointpairs args w = (Return (x1, x2, npts), w1) ->
     homogeneous_layout args = false ->
     length (heap w) <= base x1 /\ length (heap w) <= base x2).
Proof.
  intros Hc. split.
  - intros k Hk. rewrite fundamental_matrix_heap. unfold bind.
    destruct (process_input_pointpairs args w) as [r w1] eqn:Ep.
    apply process_input_pointpairs_heap in Ep as (_ & [l Hl] & Hb).
    assert (Hk1 : heap w1 !! k = heap w !! k)
      by (rewrite Hl; now apply lookup_app_l).
    destruct r as [[[x1 x2] npts] | e]; [| exact Hk1].
    destruct (eight_point_algorithm svd x1 x2 normalize w1) as [r2 w2] eqn:E8.
    apply eight_point_algorithm_frame in E8 as (_ & _ & Hf).
    simpl. rewrite Hf; [exact Hk1 |].
    destruct Hc as [-> | Hh]; [now left | right].
    destruct (Hb x1 x2 npts eq_refl Hh). lia.
  - intros x1 x2 npts w1 Ep Hh.
    apply process_input_pointpairs_heap in Ep as (_ & _ & Hb).
    now apply (Hb x1 x2 npts).
Qed.

End Frames.

Lemma estimation_keeps_caller_buffers_witness :
  let h := [[[1; 2; 3; 4; 5; 6; 7; 8]; [1; 3; 2; 5; 4; 7; 6; 9]];
            [[2; 3; 4; 5; 6; 7; 8; 9]; [1; 3; 2; 5; 4; 7; 6; 9]]]%float in
  let a := NDArray 0 0 0 [2; 8] false in
  let b := NDArray 1 0 0 [2; 8] false in
  let svd0 : list (list float) -> _ := fun _ => Raise LinAlgError in
  (true = false \/ homogeneous_layout [a; b] = false) /\
  (forall k, k < length h ->
     heap (snd (fundamental_matrix svd0 [a; b] true (World h []))) !! k = h !! k).
Proof.
  intros h a b svd0.
  split; [right; reflexivity |].
  apply (estimation_keeps_caller_buffers svd0 [a; b] true (World h [])).
  right. reflexivity.
Defined.

(** C3 as the specification states it fails on a homogeneous layout with
    [normalize] true: the canonical arrays are the caller's, and the
    normalisation divides their points by the third coordinate in place,
    whatever [np.linalg.svd] does afterwards. *)
Lemma homogeneous_input_is_overwritten :
  let h := [[[2; 4; 6; 8; 10; 12; 14; 16]; [2; 6; 4; 10; 8; 14; 12; 18];
             [2; 2; 2; 2; 2; 2; 2; 2]];
            [[4; 6; 8; 10; 12; 14; 16; 18]; [2; 6; 4; 10; 8; 14; 12; 18];
             [2; 2; 2; 2; 2; 2; 2; 2]]]%float in
  let a := NDArray 0 0 0 [3; 8] false in
  let b := NDArray 1 0 0 [3; 8] false in
  process_input_pointpairs [a; b] (World h []) = (Return (a, b, 8), World h [])
  /\
  forall svd,
    heap (snd (fundamental_matrix svd [a; b] true (World h [])))
    = [[[1; 2; 3; 4; 5; 6; 7; 8]; [1; 3; 2; 5; 4; 7; 6; 9];
        [1; 1; 1; 1; 1; 1; 1; 1]];
       [[2; 3; 4; 5; 6; 7; 8; 9]; [1; 3; 2; 5; 4; 7; 6; 9];
        [1; 1; 1; 1; 1; 1; 1; 1]]]%float.
Proof.
  intros h a b. split; [reflexivity |]. intros svd.
  rewrite fundamental_matrix_heap.
  rewrite (bind_return _ _ _ (a, b, 8) (World h [])) by reflexivity.
  erewrite eight_point_algorithm_world; [| vm_compute; reflexivity ..].
  reflexivity.
Qed.

(** ** The normaliser without finite points (normalize2dpts) *)

Section Degenerate.
Context {K : Type} `{Scalar K}.

(** C2, as amended.  On a 3xN array without a finite point the normaliser
    raises nothing and writes nothing: the selections are empty, the
    centroid and the mean distance are means of an empty array, and the
    transform built from them is returned with the points it maps. *)
Theorem normalize2dpts_without_finite_point pts w :
  shape0 pts = 3 ->
  Forall (fun x => finite x = false) (row (heap w) pts 2) ->
  let T := similarity (sdiv (ssqrt (sofnat 2)) (mean [])) (mean []) (mean []) in
  normalize2dpts pts w = (Return (dot T (read (heap w) pts), T), w).
Proof.
  intros Hs Hf. unfold normalize2dpts. rewrite Hs. simpl negb. cbv iota.
  cbv zeta.
  change (fun x : K => sgtb (sabs x) seps) with (finite (K := K)).
  rewrite (map_const_false _ _ Hf).
  unfold set_masked. rewrite !set_masked_from_none, !select_none.
  rewrite similarity_eq. simpl. destruct w; reflexivity.
Qed.

End Degenerate.

Lemma normalize2dpts_without_finite_point_witness :
  let w := World [[[1; 2]; [1; 3]; [0; 0]]]%float [] in
  let pts := NDArray 0 0 0 [3; 2] false in
  let T := similarity (sdiv (ssqrt (sofnat 2)) (mean [])) (mean []) (mean []) in
  shape0 pts = 3 /\
  Forall (fun x => finite x = false) (row (heap w) pts 2) /\
  normalize2dpts pts w = (Return (dot T (read (heap w) pts), T), w).
Proof.
  intros w pts T.
  split; [reflexivity |]. split; [repeat constructor |].
  apply (normalize2dpts_without_finite_point pts w);
    [reflexivity | repeat constructor].
Defined.

(** C2 as the specification states it fails at two points at infinity:
    no error is raised, and a transform is returned, of NaN since the
    means are 0.0 / 0 in binary64. *)
Lemma normalize2dpts_degenerate_returns :
  let w := World [[[1; 2]; [1; 3]; [0; 0]]]%float [] in
  let pts := NDArray 0 0 0 [3; 2] false in
  normalize2dpts pts w
  = (Return ([[nan; nan]; [nan; nan]; [0; 0]],
             [[nan; 0; nan]; [0; nan; nan]; [0; 0; 1]])%float, w).
Proof. vm_compute. reflexivity. Qed.

(** ** The constraint matrix (constraint_matrix) *)

Section Constraint.
Context {K : Type} `{Scalar K}.

Lemma repeat_lookup (x : K) n i : i < n -> repeat x n !! i = Some x.
Proof.
  revert i. induction n as [| n IH]; intros [| i] Hi; simpl; try lia; auto.
  apply IH. lia.
Qed.

Lemma transpose_lookup (m : list (list K)) i :
  i < length (hd [] m) ->
  transpose m !! i = Some (map (fun r => default szero (r !! i)) m).
Proof.
  intros Hi. unfold transpose.
  rewrite list_lookup_fmap, lookup_seq_lt by exact Hi. reflexivity.
Qed.

Lemma transpose_length (m : list (list K)) :
  length (transpose m) = length (hd [] m).
Proof. unfold transpose. now rewrite length_map, length_seq. Qed.

Lemma map2_length_min (f : K -> K -> K) : forall xs ys,
  length (map2 f xs ys) = Nat.min (length xs) (length ys).
Proof.
  induction xs as [| x xs IH]; intros [| y ys]; simpl; auto.
Qed.

(** The constraint matrix has one row for each point of the first row of
    [x2] and of [x1]. *)
Lemma constraint_matrix_length (x1 x2 : list (list K)) :
  length (constraint_matrix x1 x2)
  = Nat.min (length (nth 0 x2 [])) (length (nth 0 x1 [])).
Proof.
  unfold constraint_matrix. rewrite transpose_length. simpl.
  apply map2_length_min.
Qed.

(** The rows of the constraint matrix, point by point. *)
Lemma constraint_matrix_lookup (x1 x2 : list (list K)) i a1 b1 a2 b2 :
  nth 0 x1 [] !! i = Some a1 -> nth 1 x1 [] !! i = Some b1 ->
  nth 0 x2 [] !! i = Some a2 -> nth 1 x2 [] !! i = Some b2 ->
  constraint_matrix x1 x2 !! i = Some (crow (a1, b1) (a2, b2)).
Proof.
  intros Ha1 Hb1 Ha2 Hb2. unfold constraint_matrix.
  rewrite transpose_lookup.
  - simpl.
    rewrite (map2_lookup smul _ _ _ _ _ Ha2 Ha1).
    rewrite (map2_lookup smul _ _ _ _ _ Ha2 Hb1).
    rewrite (map2_lookup smul _ _ _ _ _ Hb2 Ha1).
    rewrite (map2_lookup smul _ _ _ _ _ Hb2 Hb1).
    rewrite Ha1, Hb1, Ha2, Hb2.
    rewrite repeat_lookup by (apply lookup_lt_Some in Ha1; exact Ha1).
    reflexivity.
  - simpl. rewrite map2_length_min.
    apply lookup_lt_Some in Ha1, Ha2. lia.
Qed.


End Constraint.



(** ** The symmetric epipolar distance (Q1.py) *)

(** C1.  At one correspondence with left and right point (1, 0) and both
    lines (2, 0, 0), [epipolar_distance] returns 4: each squared residual
    4 is divided by the norm 2 of the line normal.  The symmetric epipolar
    distance of the specification is 2 there: each is divided by the
    squared norm 4.  Evaluated in binary64. *)
Lemma epipolar_distance_divides_by_norm :
  let p := (1, 0)%float in
  let l := (2, 0, 0)%float in
  epipolar_distance [p] [p] [l] [l] = Return 4%float /\
  symmetric_epipolar_spec [p] [p] [l] [l] = 2%float.
Proof. split; vm_compute; reflexivity. Qed.

(** ** Exact arithmetic: sums and columns *)

Section RealSums.
Local Open Scope R_scope.

Lemma fold_left_Rplus (r : list R) : forall a,
  fold_left Rplus r a = a + fold_right Rplus 0 r.
Proof.
  induction r as [| x r IH]; intros a; simpl; [lra |].
  rewrite IH. lra.
Qed.

Lemma sum_cons (x : R) (xs : list R) : sum (x :: xs) = x + sum xs.
Proof.
  destruct xs as [| y xs]; simpl; [lra |].
  rewrite !fold_left_Rplus. lra.
Qed.

Lemma eps_lt_1 : / 2 ^ 52 < 1.
Proof.
  assert (Hp : 1 < 2 ^ 52) by (apply Rlt_pow_R1; [lra | lia]).
  pose proof (Rinv_lt_contravar 1 (2 ^ 52)) as Hi.
  rewrite Rinv_1 in Hi. apply Hi; lra.
Qed.

Lemma finite_R (x : R) : finite x = true <-> / 2 ^ 52 < Rabs x.
Proof.
  unfold finite. simpl. destruct (Rlt_dec _ _); split; auto; discriminate.
Qed.

Lemma finite_one : finite 1 = true.
Proof. apply finite_R. rewrite Rabs_R1. apply eps_lt_1. Qed.

Lemma sum_map_affine_on {A : Type} (a b : R) (f : A -> R) (l : list A) :
  sum (map (fun p => a * f p + b) l) = a * sum (map f l) + INR (length l) * b.
Proof.
  induction l as [| x l IH].
  - simpl. lra.
  - cbn [map length]. rewrite !sum_cons, IH, S_INR. lra.
Qed.

Lemma sum_map_ext {A : Type} (f g : A -> R) (l : list A) :
  (forall x, In x l -> f x = g x) -> sum (map f l) = sum (map g l).
Proof. intros He. f_equal. now apply map_ext_in. Qed.

Lemma sum_map_scale_on {A : Type} (a : R) (f : A -> R) (l : list A) :
  sum (map (fun p => a * f p) l) = a * sum (map f l).
Proof.
  induction l as [| x l IH].
  - simpl. lra.
  - cbn [map]. rewrite !sum_cons, IH. lra.
Qed.

Lemma sum_map_nonneg {A : Type} (f : A -> R) (l : list A) :
  (forall x, 0 <= f x) -> 0 <= sum (map f l).
Proof.
  intros Hf. induction l as [| x l IH]; [simpl; lra |].
  cbn [map]. rewrite sum_cons. specialize (Hf x). lra.
Qed.

Lemma sum_map_pos {A : Type} (f : A -> R) (l : list A) (a : A) :
  (forall x, 0 <= f x) -> In a l -> 0 < f a -> 0 < sum (map f l).
Proof.
  intros Hf Ha Hpos. induction l as [| x l IH]; [contradiction |].
  cbn [map]. rewrite sum_cons. destruct Ha as [-> | Ha].
  - pose proof (sum_map_nonneg f l Hf). lra.
  - specialize (IH Ha). specialize (Hf x). lra.
Qed.

End RealSums.

Section Columns.
Context {K : Type} `{Scalar K}.

Lemma map2_map_on {A : Type} (f : K -> K -> K) (g k : A -> K) (l : list A) :
  map2 f (map g l) (map k l) = map (fun p => f (g p) (k p)) l.
Proof. induction l as [| x l IH]; simpl; congruence. Qed.

Lemma map_fst_combine (xs ys : list K) :
  length xs = length ys -> map fst (combine xs ys) = xs.
Proof.
  revert ys. induction xs as [| x xs IH]; intros [| y ys] Hl;
    simpl in *; try lia; auto.
  now rewrite IH by lia.
Qed.

Lemma map_snd_combine (xs ys : list K) :
  length xs = length ys -> map snd (combine xs ys) = ys.
Proof.
  revert ys. induction xs as [| x xs IH]; intros [| y ys] Hl;
    simpl in *; try lia; auto.
  now rewrite IH by lia.
Qed.

Lemma transpose_cons3 (x y o : K) xs ys os :
  transpose [x :: xs; y :: ys; o :: os] = [x; y; o] :: transpose [xs; ys; os].
Proof.
  unfold transpose. cbn [hd length seq map].
  f_equal. rewrite <- seq_shift, map_map. reflexivity.
Qed.

(** The columns of a table of three rows of one length. *)
Lemma transpose_three : forall xs ys os : list K,
  length ys = length xs -> length os = length xs ->
  transpose [xs; ys; os]
  = map (fun p => [fst (fst p); snd (fst p); snd p])
        (combine (combine xs ys) os).
Proof.
  induction xs as [| x xs IH]; intros [| y ys] [| o os] Hy Ho;
    simpl in *; try lia; [reflexivity |].
  rewrite transpose_cons3, IH by lia. reflexivity.
Qed.

Lemma dot_three (A : list (list K)) xs ys os :
  length ys = length xs -> length os = length xs ->
  dot A [xs; ys; os]
  = map (fun ra =>
           map (fun p => vdot ra [fst (fst p); snd (fst p); snd p])
               (combine (combine xs ys) os)) A.
Proof.
  intros Hy Ho. unfold dot. rewrite transpose_three by assumption.
  apply map_ext. intros ra. now rewrite map_map.
Qed.

End Columns.

(** ** The normaliser on finite points (normalize2dpts) *)

Section Normaliser.
Local Open Scope R_scope.

Lemma sqrt_sq_scaled (s a b : R) :
  0 <= s ->
  sqrt ((s * a) * (s * a) + (s * b) * (s * b)) = s * sqrt (a * a + b * b).
Proof.
  intros Hs.
  replace ((s * a) * (s * a) + (s * b) * (s * b))
    with ((s * s) * (a * a + b * b)) by ring.
  rewrite sqrt_mult_alt by nra.
  now rewrite sqrt_square.
Qed.

(** The mean distance of points from the origin, as a sum over the
    points. *)
Lemma mean_distance_origin_on {A : Type} (f g : A -> R) (l : list A) :
  mean_distance_origin (map f l) (map g l)
  = sum (map (fun p => sqrt (f p * f p + g p * g p)) l) / INR (length l).
Proof.
  unfold mean_distance_origin, mean.
  rewrite !map_map, map2_map_on, map_map, !length_map. reflexivity.
Qed.

Lemma mean_on {A : Type} (f : A -> R) (l : list A) :
  mean (map f l) = sum (map f l) / INR (length l).
Proof. unfold mean. now rewrite length_map. Qed.

(** Points that are not all at their centroid have a mean distance to
    it. *)
Lemma mean_distance_nonzero (P : list (R * R)) (p : R * R) :
  In p P -> fst p <> mean (map fst P) ->
  mean_distance (map fst P) (map snd P) <> 0.
Proof.
  intros Hp Hne. unfold mean_distance.
  rewrite (map_map fst (fun x => _ x (mean (map fst P)))).
  rewrite (map_map snd (fun y => _ y (mean (map snd P)))).
  rewrite mean_distance_origin_on.
  set (c0 := mean (map fst P)) in *. set (c1 := mean (map snd P)).
  cbn [ssub R_scalar].
  assert (Hn : 0 < INR (length P)).
  { destruct P; [contradiction |]. apply lt_0_INR. simpl. lia. }
  assert (Hs : 0 < sum (map (fun q : R * R =>
                    sqrt ((fst q - c0) * (fst q - c0)
                          + (snd q - c1) * (snd q - c1))) P)).
  { apply sum_map_pos with (a := p); [| exact Hp |].
    - intros q. apply sqrt_pos.
    - apply sqrt_lt_R0.
      assert (0 < (fst p - c0) * (fst p - c0)) by (apply Rsqr_pos_lt; lra).
      pose proof (Rle_0_sqr (snd p - c1)) as Hsq. unfold Rsqr in Hsq.
      lra. }
  apply Rgt_not_eq. apply Rdiv_lt_0_compat; assumption.
Qed.

(** The similarity of the centroid and mean distance of points takes
    them to points of centroid 0 and mean distance the square root of
    2. *)
Lemma similarity_normalises (P : list (R * R)) :
  let xs := map fst P in
  let ys := map snd P in
  let s := sqrt 2 / mean_distance xs ys in
  let c0 := mean xs in
  let c1 := mean ys in
  mean_distance xs ys <> 0 ->
  let X := map (fun p => s * fst p + 0 * snd p + - s * c0 * 1) P in
  let Y := map (fun p => 0 * fst p + s * snd p + - s * c1 * 1) P in
  mean X = 0 /\ mean Y = 0 /\ mean_distance_origin X Y = sqrt 2.
Proof.
  intros xs ys s c0 c1 Hmd X Y.
  assert (Hmd' : mean_distance xs ys
                 = sum (map (fun p => sqrt ((fst p - c0) * (fst p - c0)
                                             + (snd p - c1) * (snd p - c1))) P)
                   / INR (length P)).
  { unfold mean_distance, c0, c1, xs, ys.
    rewrite (map_map fst (fun x => _ x (mean (map fst P)))).
    rewrite (map_map snd (fun y => _ y (mean (map snd P)))).
    rewrite mean_distance_origin_on. reflexivity. }
  assert (Hn : INR (length P) <> 0).
  { intros Hz. apply Hmd. rewrite Hmd', Hz.
    unfold Rdiv. rewrite Rinv_0. ring. }
  assert (Hpos : 0 < mean_distance xs ys).
  { assert (0 <= mean_distance xs ys); [| lra].
    rewrite Hmd'. apply Rmult_le_pos.
    - apply sum_map_nonneg. intros p. apply sqrt_pos.
    - left. apply Rinv_0_lt_compat.
      destruct (length P); [now simpl in Hn |]. apply lt_0_INR. lia. }
  assert (Hs : 0 < s).
  { unfold s. apply Rdiv_lt_0_compat; [| exact Hpos].
    apply sqrt_lt_R0. lra. }
  split; [| split].
  - unfold X. rewrite mean_on.
    rewrite (sum_map_ext _ (fun p => s * fst p + - s * c0)) by (intros; ring).
    rewrite sum_map_affine_on. unfold c0, xs. rewrite mean_on. field. exact Hn.
  - unfold Y. rewrite mean_on.
    rewrite (sum_map_ext _ (fun p => s * snd p + - s * c1)) by (intros; ring).
    rewrite sum_map_affine_on. unfold c1, ys. rewrite mean_on. field. exact Hn.
  - unfold X, Y. rewrite mean_distance_origin_on.
    rewrite (sum_map_ext _
               (fun p => s * sqrt ((fst p - c0) * (fst p - c0)
                                   + (snd p - c1) * (snd p - c1)))).
    + rewrite sum_map_scale_on.
      replace (s * _ / INR (length P)) with (s * mean_distance xs ys)
        by (rewrite Hmd'; field; exact Hn).
      unfold s. field. exact Hmd.
    + intros p _. rewrite <- sqrt_sq_scaled by lra. f_equal. ring.
Qed.

Lemma combine_map_const {A B C : Type} (b : C) : forall (l : list A) (l' : list B),
  length l = length l' ->
  combine l (map (fun _ => b) l') = map (fun x => (x, b)) l.
Proof.
  induction l as [| x l IH]; intros [| y l'] Hl; simpl in *; try lia; auto.
  now rewrite IH by lia.
Qed.

Lemma INR_2 : INR 2 = 2.
Proof. simpl. lra. Qed.

(** The table [dot T m] for the de-homogenised points [m] of an array of
    finite points. *)
Lemma dot_dehomog (T : list (list R)) (r0 r1 r2 : list R) :
  length r0 = length r2 -> length r1 = length r2 ->
  dot T (dehomog [r0; r1; r2])
  = map (fun ra => map (fun p => vdot ra [fst p; snd p; 1])
                       (combine (map2 Rdiv r0 r2) (map2 Rdiv r1 r2))) T.
Proof.
  intros H0 H1. unfold dehomog.
  assert (Hx : length (map2 sdiv r0 r2) = length r2)
    by (rewrite map2_length; congruence).
  assert (Hy : length (map2 sdiv r1 r2) = length r2)
    by (rewrite map2_length; congruence).
  rewrite dot_three by (rewrite ?length_map; congruence).
  apply map_ext. intros ra.
  rewrite (combine_map_const (sone (K := R)))
    by (rewrite length_combine, Hx, Hy; lia).
  rewrite map_map. reflexivity.
Qed.

(** C7, as amended.  In exact arithmetic, for a 3xN array of [float64]
    numbers (the store holds no other) whose points are finite and whose
    mean distance to their centroid is not 0, the normaliser
    returns the similarity of scale the square root of 2 over that mean
    distance that moves the centroid to the origin, and points of
    centroid 0 and mean distance to the origin the square root of 2. *)
Theorem normalize2dpts_normalises (pts : ndarray) (w : world R) :
  shape0 pts = 3%nat -> valid (heap w) pts ->
  Forall (fun x => finite x = true) (row (heap w) pts 2) ->
  let m := dehomog (read (heap w) pts) in
  let xs := nth 0 m [] in
  let ys := nth 1 m [] in
  mean_distance xs ys <> 0 ->
  exists newpts h',
    normalize2dpts pts w
    = (Return (newpts,
               similarity (sqrt 2 / mean_distance xs ys) (mean xs) (mean ys)),
       World h' (stdout w)) /\
    mean (nth 0 newpts []) = 0 /\
    mean (nth 1 newpts []) = 0 /\
    mean_distance_origin (nth 0 newpts []) (nth 1 newpts []) = sqrt 2.
Proof.
  intros Hs Hv Hf m xs ys Hmd.
  destruct (normalize2dpts_all_finite pts w Hs Hv Hf) as (h' & Hn & _).
  subst xs ys m. rewrite (read_three _ _ Hs) in *.
  set (r0 := row (heap w) pts 0) in *.
  set (r1 := row (heap w) pts 1) in *.
  set (r2 := row (heap w) pts 2) in *.
  assert (H0 : length r0 = length r2) by (unfold r0, r2; now rewrite !row_length).
  assert (H1 : length r1 = length r2) by (unfold r1, r2; now rewrite !row_length).
  rewrite dot_dehomog in Hn by assumption.
  cbn [dehomog nth] in *.
  set (X := map2 sdiv r0 r2) in *. set (Y := map2 sdiv r1 r2) in *.
  assert (HX : length X = length Y)
    by (unfold X, Y; rewrite !map2_length; congruence).
  pose proof (similarity_normalises (combine X Y)) as Hsim.
  rewrite map_fst_combine, map_snd_combine in Hsim by exact HX.
  specialize (Hsim Hmd).
  unfold norm_T, norm_scale in Hn.
  cbn [ssqrt sofnat sdiv R_scalar] in Hn. rewrite INR_2 in Hn.
  eexists _, h'. split; [exact Hn |].
  unfold similarity. cbn [map nth]. exact Hsim.
Qed.

End Normaliser.

Lemma normalize2dpts_normalises_witness :
  let w := World [[[0; 2]; [0; 0]; [1; 1]]]%R [] in
  let pts := NDArray 0 0 0 [3; 2] false in
  let m := dehomog (read (heap w) pts) in
  let xs := nth 0 m [] in
  let ys := nth 1 m [] in
  shape0 pts = 3 /\ valid (heap w) pts /\
  Forall (fun x => finite x = true) (row (heap w) pts 2) /\
  mean_distance xs ys <> 0%R /\
  exists newpts h',
    normalize2dpts pts w
    = (Return (newpts,
               similarity (sqrt 2 / mean_distance xs ys)%R (mean xs) (mean ys)),
       World h' (stdout w)) /\
    mean (nth 0 newpts []) = 0%R /\
    mean (nth 1 newpts []) = 0%R /\
    mean_distance_origin (nth 0 newpts []) (nth 1 newpts []) = sqrt 2.
Proof.
  intros w pts m xs ys.
  assert (Hs : shape0 pts = 3) by reflexivity.
  assert (Hv : valid (heap w) pts).
  { intros i j Hi Hj.
    change (shape0 pts) with 3 in Hi. change (shape1 pts) with 2 in Hj.
    destruct i as [| [| [| i]]]; [| | | lia];
      (destruct j as [| [| j]]; [| | lia]); simpl; eauto. }
  assert (Hf : Forall (fun x => finite x = true) (row (heap w) pts 2))
    by (repeat constructor; apply finite_one).
  assert (Hmd : mean_distance xs ys <> 0%R).
  { apply (mean_distance_nonzero [(0 / 1, 0 / 1); (2 / 1, 0 / 1)]%R
             (0 / 1, 0 / 1)%R); [now left |].
    unfold mean, sum. simpl. lra. }
  split; [exact Hs |]. split; [exact Hv |]. split; [exact Hf |].
  split; [exact Hmd |].
  exact (normalize2dpts_normalises pts w Hs Hv Hf Hmd).
Defined.

(** C7 as the specification states it fails at two finite points that
    coincide: their mean distance to the centroid is 0, the scale is
    infinite in binary64, and the points returned are NaN, whose centroid
    is not the origin. *)
Lemma normalize2dpts_coincident_points :
  let w := World [[[1; 1]; [1; 1]; [1; 1]]]%float [] in
  let pts := NDArray 0 0 0 [3; 2] false in
  let newpts := [[nan; nan]; [nan; nan]; [1; 1]]%float in
  let T := [[infinity; 0; neg_infinity]; [0; infinity; neg_infinity];
            [0; 0; 1]]%float in
  Forall (fun x => finite x = true) (row (heap w) pts 2) /\
  normalize2dpts pts w = (Return (newpts, T), w) /\
  mean (nth 0 newpts []) = nan /\
  PrimFloat.eqb (mean (nth 0 newpts [])) 0 = false.
Proof.
  repeat split; try (vm_compute; reflexivity).
  repeat constructor.
Qed.

(** ** The solver (eight_point_algorithm) *)

Section Solver.
Context {K : Type} `{Scalar K}.
Variable svd : list (list K) -> outcome (list (list K) * list K * list (list K)).

(** What the code after the normalisation computes from the two tables
    of points. *)
Lemma eight_point_algorithm_run_false x1 x2 w U0 S0 Vh v F0 U d1 d2 D V :
  svd (constraint_matrix (read (heap w) x1) (read (heap w) x2))
  = Return (U0, S0, Vh) ->
  col 8 (transpose Vh) = Some v -> reshape33 v = Return F0 ->
  svd F0 = Return (U, d1 :: d2 :: D, V) ->
  eight_point_algorithm svd x1 x2 false w
  = (Return (dot (dot U (diag3 d1 d2 szero)) V), w).
Proof.
  intros HA Hv HF HF0. unfold eight_point_algorithm, bind, lift, ret.
  rewrite HA, Hv, HF, HF0. reflexivity.
Qed.

Lemma eight_point_algorithm_run_true x1 x2 w x1n T1 w1 x2n T2 w2
    U0 S0 Vh v F0 U d1 d2 D V :
  normalize2dpts x1 w = (Return (x1n, T1), w1) ->
  normalize2dpts x2 w1 = (Return (x2n, T2), w2) ->
  svd (constraint_matrix x1n x2n) = Return (U0, S0, Vh) ->
  col 8 (transpose Vh) = Some v -> reshape33 v = Return F0 ->
  svd F0 = Return (U, d1 :: d2 :: D, V) ->
  eight_point_algorithm svd x1 x2 true w
  = (Return (dot (dot (transpose T2) (dot (dot U (diag3 d1 d2 szero)) V)) T1),
     w2).
Proof.
  intros H1 H2 HA Hv HF HF0. unfold eight_point_algorithm, bind, lift, ret.
  rewrite H1, H2, HA, Hv, HF, HF0. reflexivity.
Qed.

(** Conversely, a matrix is returned only that way. *)
Lemma eight_point_algorithm_inv x1 x2 normalize w F w' :
  eight_point_algorithm svd x1 x2 normalize w = (Return F, w') ->
  exists F0 U d1 d2 D V,
    is3x3 F0 /\ svd F0 = Return (U, d1 :: d2 :: D, V) /\
    ((normalize = false /\ w' = w /\
      F = dot (dot U (diag3 d1 d2 szero)) V /\
      exists U0 S0 Vh v,
        svd (constraint_matrix (read (heap w) x1) (read (heap w) x2))
        = Return (U0, S0, Vh) /\
        col 8 (transpose Vh) = Some v /\ reshape33 v = Return F0)
     \/
     (normalize = true /\
      exists s1 a1 b1 s2 a2 b2,
        F = dot (dot (transpose (similarity s2 a2 b2))
                     (dot (dot U (diag3 d1 d2 szero)) V))
                (similarity s1 a1 b1))).
Proof.
  unfold eight_point_algorithm. unfold bind at 1.
  destruct normalize.
  - unfold bind at 1.
    destruct (normalize2dpts x1 w) as [[[x1n T1] | e1] w1] eqn:E1;
      [| discriminate].
    unfold bind at 1.
    destruct (normalize2dpts x2 w1) as [[[x2n T2] | e2] w2] eqn:E2;
      [| discriminate].
    unfold ret at 1. unfold bind, lift, ret.
    destruct (svd (constraint_matrix x1n x2n)) as [[[U0 S0] Vh] | e];
      [| discriminate].
    destruct (col 8 (transpose Vh)) as [v |]; [| discriminate].
    destruct (reshape33 v) as [F0 | e] eqn:EF; [| discriminate].
    destruct (svd F0) as [[[U D] V] | e] eqn:ES; [| discriminate].
    destruct D as [| d1 [| d2 D]]; try discriminate. simpl.
    intros [= <- <-].
    exists F0, U, d1, d2, D, V. split; [| split; [exact ES |]].
    + unfold reshape33 in EF.
      destruct v as [|? [|? [|? [|? [|? [|? [|? [|? [|? [|]]]]]]]]]];
        try discriminate.
      injection EF as <-. unfold is3x3. eauto 10.
    + right. split; [reflexivity |].
      unfold normalize2dpts in E1, E2.
      destruct (negb (shape0 x1 =? 3)); [discriminate |].
      destruct (negb (shape0 x2 =? 3)); [discriminate |].
      cbv zeta in E1, E2. rewrite similarity_eq in E1, E2.
      injection E1 as _ <- _. injection E2 as _ <- _. eauto 10.
  - unfold bind, lift, ret.
    destruct (svd (constraint_matrix _ _)) as [[[U0 S0] Vh] | e] eqn:EA;
      [| discriminate].
    destruct (col 8 (transpose Vh)) as [v |] eqn:Ev; [| discriminate].
    destruct (reshape33 v) as [F0 | e] eqn:EF; [| discriminate].
    destruct (svd F0) as [[[U D] V] | e] eqn:ES; [| discriminate].
    destruct D as [| d1 [| d2 D]]; try discriminate. simpl.
    intros [= <- <-].
    exists F0, U, d1, d2, D, V. split; [| split; [exact ES |]].
    + unfold reshape33 in EF.
      destruct v as [|? [|? [|? [|? [|? [|? [|? [|? [|? [|]]]]]]]]]];
        try discriminate.
      injection EF as <-. unfold is3x3. eauto 10.
    + left. repeat split; eauto 10.
Qed.

End Solver.

(** ** Rank (eight_point_algorithm) *)

Section Rank.
Local Open Scope R_scope.

Lemma det3_rank2 (U V : list (list R)) (d1 d2 : R) :
  is3x3 U -> is3x3 V -> det3 (dot (dot U (diag3 d1 d2 0)) V) = 0.
Proof.
  intros HU HV. table3 HU. table3 HV.
  cbn. ring.
Qed.

Lemma det3_similarity (M : list (list R)) (s1 a1 b1 s2 a2 b2 : R) :
  is3x3 M ->
  det3 (dot (dot (transpose (similarity s2 a2 b2)) M) (similarity s1 a1 b1))
  = s2 * s2 * det3 M * (s1 * s1).
Proof.
  intros HM. table3 HM. cbn. ring.
Qed.

Lemma is3x3_dot (A B : list (list R)) : is3x3 A -> is3x3 B -> is3x3 (dot A B).
Proof.
  intros HA HB. table3 HA. table3 HB. cbn. unfold is3x3. eauto 10.
Qed.

Lemma is3x3_diag3 (a b c : R) : is3x3 (diag3 a b c).
Proof. unfold is3x3, diag3. eauto 10. Qed.

(** Whatever [np.linalg.svd] computes, as long as its factors of a 3x3
    table are 3x3: a matrix the solver returns is singular. *)
Lemma returned_matrix_singular
    (svd : list (list R) -> outcome (list (list R) * list R * list (list R)))
    (x1 x2 : ndarray) (normalize : bool) (w : world R) F w' :
  svd_shapes svd ->
  eight_point_algorithm svd x1 x2 normalize w = (Return F, w') ->
  det3 F = 0.
Proof.
  intros Hsh Hrun.
  apply eight_point_algorithm_inv in Hrun
    as (F0 & U & d1 & d2 & D & V & HF0 & Hsvd & Hcase).
  destruct (Hsh F0 U _ V HF0 Hsvd) as [HU HV].
  destruct Hcase as [(-> & -> & -> & _)
                    | (-> & s1 & a1 & b1 & s2 & a2 & b2 & ->)].
  - now apply det3_rank2.
  - rewrite det3_similarity
      by (apply is3x3_dot; [apply is3x3_dot; [exact HU | apply is3x3_diag3]
                           | exact HV]).
    cbn [szero R_scalar]. rewrite det3_rank2 by assumption. ring.
Qed.

End Rank.

(** ** Tables of points *)

Section Tables.
Context {K : Type} `{Scalar K}.

(** Column [j] of the transpose of a rectangular table is its row [j]. *)
Lemma col_transpose (M : list (list K)) n j r :
  Forall (fun row => length row = n) M -> length (hd [] M) = n ->
  M !! j = Some r -> col j (transpose M) = Some r.
Proof.
  intros Hrect Hhd Hj. unfold col. apply mapM_Some_2.
  assert (Hr : length r = n)
    by (eapply (proj1 (Forall_lookup _ _) Hrect); eauto).
  apply Forall2_same_length_lookup_2.
  - rewrite transpose_length. congruence.
  - intros i row x Hrow Hx.
    assert (Hi : i < n) by (apply lookup_lt_Some in Hx; lia).
    rewrite transpose_lookup in Hrow by lia.
    injection Hrow as <-.
    rewrite list_lookup_fmap, Hj. simpl. now rewrite Hx.
Qed.

Lemma combine_lookup {A B : Type} : forall (l : list A) (k : list B) i a b,
  l !! i = Some a -> k !! i = Some b -> combine l k !! i = Some (a, b).
Proof.
  induction l as [| x l IH]; intros [| y k] [| i] a b Ha Hb;
    simpl in *; try discriminate.
  - congruence.
  - now apply IH.
Qed.

Lemma combine_map {A B C D : Type} (f : A -> C) (g : B -> D) :
  forall (l : list A) (k : list B),
    combine (map f l) (map g k)
    = map (fun q => (f (fst q), g (snd q))) (combine l k).
Proof.
  induction l as [| x l IH]; intros [| y k]; simpl; auto.
  now rewrite IH.
Qed.

Lemma combine_map_same {A C D : Type} (f : A -> C) (g : A -> D) (l : list A) :
  combine (map f l) (map g l) = map (fun p => (f p, g p)) l.
Proof. induction l as [| x l IH]; simpl; congruence. Qed.

Lemma constraint_matrix_points (x1 x2 : list (list K)) :
  length (nth 1 x1 []) = length (nth 0 x1 []) ->
  length (nth 0 x2 []) = length (nth 0 x1 []) ->
  length (nth 1 x2 []) = length (nth 0 x1 []) ->
  constraint_matrix x1 x2
  = map (fun q => crow (fst q) (snd q))
        (combine (combine (nth 0 x1 []) (nth 1 x1 []))
                 (combine (nth 0 x2 []) (nth 1 x2 []))).
Proof.
  intros H1 H2 H3. apply list_eq. intros i.
  destruct (decide (i < length (nth 0 x1 []))) as [Hi | Hi].
  - destruct (lookup_lt_is_Some_2 (nth 0 x1 []) i Hi) as [a1 Ha1].
    destruct (lookup_lt_is_Some_2 (nth 1 x1 []) i) as [b1 Hb1]; [lia |].
    destruct (lookup_lt_is_Some_2 (nth 0 x2 []) i) as [a2 Ha2]; [lia |].
    destruct (lookup_lt_is_Some_2 (nth 1 x2 []) i) as [b2 Hb2]; [lia |].
    rewrite (constraint_matrix_lookup _ _ _ _ _ _ _ Ha1 Hb1 Ha2 Hb2).
    rewrite list_lookup_fmap.
    rewrite (combine_lookup _ _ i (a1, b1) (a2, b2));
      [reflexivity | now apply combine_lookup ..].
  - rewrite !lookup_ge_None_2; [reflexivity | |].
    + rewrite length_map, !length_combine. lia.
    + rewrite constraint_matrix_length. lia.
Qed.

Lemma constraint_matrix_rows (x1 x2 : list (list K)) :
  Forall (fun row => length row = 9) (constraint_matrix x1 x2).
Proof.
  unfold constraint_matrix, transpose.
  apply Forall_fmap, Forall_forall. intros j _. reflexivity.
Qed.

End Tables.

(** ** Normalised and original coordinates *)

Section Transfer.
Local Open Scope R_scope.

Lemma vec9 (v : list R) :
  length v = 9%nat -> exists a b c d e f g h i, v = [a; b; c; d; e; f; g; h; i].
Proof.
  intros Hl.
  destruct v as [|a [|b [|c [|d [|e [|f [|g [|h [|i [|]]]]]]]]]];
    simpl in Hl; try lia.
  eauto 10.
Qed.

(** A row of the constraint matrix of the normalised points, applied to
    [g], is the row of the points themselves applied to [T2^T . G . T1]. *)
Lemma crow_transfer (s1 a1 b1 s2 a2 b2 : R) (p1 p2 : R * R) (v : list R) :
  length v = 9%nat ->
  vdot (crow (similarity_point s1 a1 b1 p1) (similarity_point s2 a2 b2 p2)) v
  = vdot (crow p1 p2)
         (concat (dot (dot (transpose (similarity s2 a2 b2)) (table9 v))
                      (similarity s1 a1 b1))).
Proof.
  intros Hv. apply vec9 in Hv as (g1 & g2 & g3 & g4 & g5 & g6 & g7 & g8 & g9 & ->).
  destruct p1 as [x1 y1], p2 as [x2 y2]. cbn. ring.
Qed.

Lemma similarity_cancel_r (s1 a1 b1 s2 a2 b2 : R) (G : list (list R)) :
  s1 <> 0 -> s2 <> 0 -> is3x3 G ->
  dot (dot (transpose (similarity s2 a2 b2))
           (dot (dot (transpose (similarity_inv s2 a2 b2)) G)
                (similarity_inv s1 a1 b1)))
      (similarity s1 a1 b1)
  = G.
Proof.
  intros H1 H2 HG. table3 HG. cbn.
  repeat (f_equal; try (field; auto)).
Qed.

Lemma similarity_cancel_l (s1 a1 b1 s2 a2 b2 : R) (G : list (list R)) :
  s1 <> 0 -> s2 <> 0 -> is3x3 G ->
  dot (dot (transpose (similarity_inv s2 a2 b2))
           (dot (dot (transpose (similarity s2 a2 b2)) G)
                (similarity s1 a1 b1)))
      (similarity_inv s1 a1 b1)
  = G.
Proof.
  intros H1 H2 HG. table3 HG. cbn.
  repeat (f_equal; try (field; auto)).
Qed.

Lemma det3_scale (k : R) (M : list (list R)) :
  is3x3 M -> det3 (scale_table k M) = k * k * k * det3 M.
Proof. intros HM. table3 HM. cbn. ring. Qed.

Lemma table9_concat (M : list (list R)) : is3x3 M -> table9 (concat M) = M.
Proof. intros HM. table3 HM. reflexivity. Qed.

Lemma concat_table9 (v : list R) : length v = 9%nat -> concat (table9 v) = v.
Proof.
  intros Hv. apply vec9 in Hv as (? & ? & ? & ? & ? & ? & ? & ? & ? & ->).
  reflexivity.
Qed.

Lemma table9_scale (k : R) (M : list (list R)) :
  is3x3 M -> table9 (map (Rmult k) (concat M)) = scale_table k M.
Proof. intros HM. table3 HM. reflexivity. Qed.

Lemma reshape33_table9 (v : list R) :
  length v = 9%nat -> reshape33 v = Return (table9 v).
Proof.
  intros Hv. apply vec9 in Hv as (? & ? & ? & ? & ? & ? & ? & ? & ? & ->).
  reflexivity.
Qed.

Lemma is3x3_table9 (v : list R) : length v = 9%nat -> is3x3 (table9 v).
Proof.
  intros Hv. apply vec9 in Hv as (? & ? & ? & ? & ? & ? & ? & ? & ? & ->).
  unfold is3x3. simpl. eauto 10.
Qed.

Lemma is3x3_scale (k : R) (M : list (list R)) : is3x3 M -> is3x3 (scale_table k M).
Proof. intros HM. table3 HM. unfold is3x3. cbn. eauto 10. Qed.

Lemma is3x3_similarity (s a b : R) : is3x3 (similarity s a b).
Proof. unfold is3x3, similarity. eauto 10. Qed.

Lemma is3x3_transpose (M : list (list R)) : is3x3 M -> is3x3 (transpose M).
Proof. intros HM. table3 HM. unfold is3x3. cbn. eauto 10. Qed.

Lemma length_concat3 (M : list (list R)) : is3x3 M -> length (concat M) = 9%nat.
Proof. intros HM. table3 HM. reflexivity. Qed.

Lemma scale_zero (M : list (list R)) :
  is3x3 M -> map (Rmult 0) (concat M) = repeat 0 9.
Proof.
  intros HM. table3 HM. cbn. repeat (f_equal; try ring).
Qed.

Lemma dot_zero (A B : list (list R)) :
  is3x3 A -> is3x3 B ->
  concat (dot (dot A (table9 (repeat 0 9))) B) = repeat 0 9.
Proof.
  intros HA HB. table3 HA. table3 HB. cbn. repeat (f_equal; try ring).
Qed.

Lemma dot_scale (k : R) (A G B : list (list R)) :
  is3x3 A -> is3x3 G -> is3x3 B ->
  dot (dot A (scale_table k G)) B = scale_table k (dot (dot A G) B).
Proof.
  intros HA HG HB. table3 HA. table3 HG. table3 HB. cbn.
  repeat (f_equal; try ring).
Qed.

Lemma concat_scale (k : R) (M : list (list R)) :
  is3x3 M -> concat (scale_table k M) = map (Rmult k) (concat M).
Proof. intros HM. table3 HM. reflexivity. Qed.

Lemma annihilates_map {A : Type} (f : A -> list R) (P : list A) (v : list R) :
  annihilates (map f P) v <-> Forall (fun q => vdot (f q) v = 0) P.
Proof. unfold annihilates. apply Forall_fmap. Qed.

(** The constraint matrix of the normalised points has for null space the
    line of [T2^-T . Fs . T1^-1] when that of the points themselves has
    the line of [Fs]. *)
Lemma normalised_kernel (P : list ((R * R) * (R * R)))
    (s1 a1 b1 s2 a2 b2 : R) (Fs : list (list R)) :
  s1 <> 0 -> s2 <> 0 ->
  is3x3 Fs -> det3 Fs = 0 -> concat Fs <> repeat 0 9 ->
  kernel_line (map (fun q => crow (fst q) (snd q)) P) (concat Fs) ->
  let Gs := dot (dot (transpose (similarity_inv s2 a2 b2)) Fs)
                (similarity_inv s1 a1 b1) in
  is3x3 Gs /\ det3 Gs = 0 /\ concat Gs <> repeat 0 9 /\
  kernel_line
    (map (fun q => crow (similarity_point s1 a1 b1 (fst q))
                        (similarity_point s2 a2 b2 (snd q))) P)
    (concat Gs) /\
  dot (dot (transpose (similarity s2 a2 b2)) Gs) (similarity s1 a1 b1) = Fs.
Proof.
  intros H1 H2 HFs Hdet Hnz [Hker Hline] Gs.
  assert (HGs : is3x3 Gs).
  { unfold Gs. apply is3x3_dot; [apply is3x3_dot |]; auto.
    - apply is3x3_transpose, is3x3_similarity.
    - apply is3x3_similarity. }
  assert (Hback : dot (dot (transpose (similarity s2 a2 b2)) Gs)
                      (similarity s1 a1 b1) = Fs)
    by now apply similarity_cancel_r.
  split; [exact HGs |]. split; [| split; [| split; [split |]]].
  - unfold Gs, similarity_inv. rewrite det3_similarity by exact HFs.
    rewrite Hdet. ring.
  - intros Hz. apply Hnz. rewrite <- Hback.
    rewrite <- (table9_concat Gs HGs), Hz.
    apply dot_zero; [apply is3x3_transpose |]; apply is3x3_similarity.
  - apply annihilates_map. apply (proj1 (annihilates_map _ _ _)) in Hker.
    eapply Forall_impl; [exact Hker |].
    intros q Hq. cbv beta in Hq |- *.
    rewrite crow_transfer by now apply length_concat3.
    now rewrite table9_concat, Hback by exact HGs.
  - intros v Hlv Hv.
    assert (Hv' : annihilates (map (fun q => crow (fst q) (snd q)) P)
                    (concat (dot (dot (transpose (similarity s2 a2 b2))
                                      (table9 v))
                                 (similarity s1 a1 b1)))).
    { apply annihilates_map. apply (proj1 (annihilates_map _ _ _)) in Hv.
      eapply Forall_impl; [exact Hv |].
      intros q Hq. cbv beta in Hq |- *. now rewrite <- crow_transfer. }
    assert (H3 : is3x3 (dot (dot (transpose (similarity s2 a2 b2)) (table9 v))
                            (similarity s1 a1 b1))).
    { apply is3x3_dot; [apply is3x3_dot |].
      - apply is3x3_transpose, is3x3_similarity.
      - now apply is3x3_table9.
      - apply is3x3_similarity. }
    destruct (Hline _ (length_concat3 _ H3) Hv') as [k Hk].
    exists k.
    apply (f_equal table9) in Hk.
    rewrite table9_concat in Hk by exact H3.
    change (smul k) with (Rmult k) in Hk.
    rewrite table9_scale in Hk by exact HFs.
    rewrite <- (concat_table9 v Hlv).
    rewrite <- (similarity_cancel_l s1 a1 b1 s2 a2 b2 (table9 v) H1 H2)
      by now apply is3x3_table9.
    assert (Hi2 : is3x3 (transpose (similarity_inv s2 a2 b2)))
      by apply is3x3_transpose, is3x3_similarity.
    assert (Hi1 : is3x3 (similarity_inv s1 a1 b1)) by apply is3x3_similarity.
    rewrite Hk, dot_scale by assumption.
    fold Gs. rewrite concat_scale by exact HGs. reflexivity.
  - exact Hback.
Qed.

End Transfer.

(** ** What the solver returns on exact correspondences *)

Section Estimates.
Local Open Scope R_scope.
Variable svd : list (list R) -> outcome (list (list R) * list R * list (list R)).
Hypothesis svd_spec : forall M, svd_ok M (svd M).

(** From the two properties of [np.linalg.svd]: on a constraint matrix
    whose null space is the line of a singular [Fs], the solver's [F0] is
    a nonzero multiple of [Fs], and the rank-2 step leaves it as it
    is. *)
Lemma solve_kernel_line (A : list (list R)) (Fs : list (list R)) :
  Forall (fun row => length row = 9%nat) A ->
  is3x3 Fs -> det3 Fs = 0 -> concat Fs <> repeat 0 9 ->
  kernel_line A (concat Fs) ->
  exists k U0 S0 Vh v U d1 d2 D V,
    k <> 0 /\
    svd A = Return (U0, S0, Vh) /\
    col 8 (transpose Vh) = Some v /\
    reshape33 v = Return (scale_table k Fs) /\
    svd (scale_table k Fs) = Return (U, d1 :: d2 :: D, V) /\
    dot (dot U (diag3 d1 d2 0)) V = scale_table k Fs.
Proof.
  intros HA HFs Hdet Hnz [Hker Hline].
  destruct (proj1 (svd_spec A) HA)
    as (U0 & S0 & Vh & v & HsvdA & HlVh & HrVh & Hv & Hvnz & Hnull).
  assert (Hlv : length v = 9%nat)
    by (eapply (proj1 (Forall_lookup _ _) HrVh); eauto).
  assert (HAv : annihilates A v).
  { apply Hnull. exists (concat Fs).
    split; [now apply length_concat3 |]. split; assumption. }
  destruct (Hline v Hlv HAv) as [k Hk].
  assert (Hk0 : k <> 0).
  { intros ->. apply Hvnz. rewrite Hk. now apply scale_zero. }
  assert (Hresh : reshape33 v = Return (scale_table k Fs)).
  { rewrite reshape33_table9 by exact Hlv. rewrite Hk.
    now rewrite table9_scale. }
  assert (H3 : is3x3 (scale_table k Fs)) by now apply is3x3_scale.
  destruct (proj2 (svd_spec (scale_table k Fs)) H3)
    as (U & d1 & d2 & d3 & V & Hsvd & HU & HV & Hprod & Hd3).
  rewrite Hd3 in Hprod
    by (rewrite det3_scale by exact HFs; cbn [szero R_scalar]; rewrite Hdet; ring).
  exists k, U0, S0, Vh, v, U, d1, d2, [d3], V.
  split; [exact Hk0 |]. split; [exact HsvdA |]. split.
  - apply col_transpose with (n := 9%nat); auto.
    destruct Vh as [| r0 Vh]; [discriminate |].
    now inversion HrVh.
  - split; [exact Hresh |]. split; [exact Hsvd | exact Hprod].
Qed.

(** Without normalisation the estimate is a nonzero multiple of the
    matrix whose line is the null space of the constraint matrix of the
    points as the arrays hold them. *)
Lemma unnormalised_estimate (x1 x2 : ndarray) (w : world R) Fs :
  is3x3 Fs -> det3 Fs = 0 -> concat Fs <> repeat 0 9 ->
  kernel_line (constraint_matrix (read (heap w) x1) (read (heap w) x2))
              (concat Fs) ->
  exists k, k <> 0 /\
    eight_point_algorithm svd x1 x2 false w = (Return (scale_table k Fs), w).
Proof.
  intros HFs Hdet Hnz Hker.
  destruct (solve_kernel_line _ Fs (constraint_matrix_rows _ _)
              HFs Hdet Hnz Hker)
    as (k & U0 & S0 & Vh & v & U & d1 & d2 & D & V
        & Hk & HA & Hv & Hr & Hsvd & Hprod).
  exists k. split; [exact Hk |].
  pose proof (eight_point_algorithm_run_false svd x1 x2 w
                _ _ _ _ _ _ _ _ _ _ HA Hv Hr Hsvd) as Hrun.
  cbn [szero R_scalar] in Hrun. now rewrite Hprod in Hrun.
Qed.

Lemma constraint_matrix_dehomog (r0 r1 r2 q0 q1 q2 : list R) :
  length r0 = length r2 -> length r1 = length r2 ->
  length q0 = length r2 -> length q1 = length r2 -> length q2 = length r2 ->
  constraint_matrix (dehomog [r0; r1; r2]) (dehomog [q0; q1; q2])
  = map (fun q => crow (fst q) (snd q))
        (combine (combine (map2 Rdiv r0 r2) (map2 Rdiv r1 r2))
                 (combine (map2 Rdiv q0 q2) (map2 Rdiv q1 q2))).
Proof.
  intros. rewrite constraint_matrix_points; cbn [dehomog nth];
    rewrite ?map2_length_min; [reflexivity | lia ..].
Qed.

Lemma constraint_matrix_normalised (s1 a1 b1 s2 a2 b2 : R)
    (r0 r1 r2 q0 q1 q2 : list R) :
  length r0 = length r2 -> length r1 = length r2 ->
  length q0 = length r2 -> length q1 = length r2 -> length q2 = length r2 ->
  constraint_matrix (dot (similarity s1 a1 b1) (dehomog [r0; r1; r2]))
                    (dot (similarity s2 a2 b2) (dehomog [q0; q1; q2]))
  = map (fun q => crow (similarity_point s1 a1 b1 (fst q))
                       (similarity_point s2 a2 b2 (snd q)))
        (combine (combine (map2 Rdiv r0 r2) (map2 Rdiv r1 r2))
                 (combine (map2 Rdiv q0 q2) (map2 Rdiv q1 q2))).
Proof.
  intros Hr0 Hr1 Hq0 Hq1 Hq2.
  rewrite !dot_dehomog by congruence.
  set (P1 := combine (map2 Rdiv r0 r2) (map2 Rdiv r1 r2)).
  set (P2 := combine (map2 Rdiv q0 q2) (map2 Rdiv q1 q2)).
  assert (HP : length P2 = length P1).
  { unfold P1, P2. rewrite !length_combine, !map2_length_min. lia. }
  rewrite constraint_matrix_points;
    cbn [similarity map nth]; rewrite ?length_map; auto.
  rewrite !combine_map_same, combine_map, map_map. reflexivity.
Qed.

(** With normalisation the estimate is a nonzero multiple of the matrix
    whose line is the null space of the constraint matrix of the
    de-homogenised points. *)
Lemma normalised_estimate (x1 x2 : ndarray) (w : world R) Fs :
  shape0 x1 = 3%nat -> shape0 x2 = 3%nat -> shape1 x1 = shape1 x2 ->
  valid (heap w) x1 -> valid (heap w) x2 -> separate x1 x2 ->
  Forall (fun x => finite x = true) (row (heap w) x1 2) ->
  Forall (fun x => finite x = true) (row (heap w) x2 2) ->
  let m1 := dehomog (read (heap w) x1) in
  let m2 := dehomog (read (heap w) x2) in
  mean_distance (nth 0 m1 []) (nth 1 m1 []) <> 0 ->
  mean_distance (nth 0 m2 []) (nth 1 m2 []) <> 0 ->
  is3x3 Fs -> det3 Fs = 0 -> concat Fs <> repeat 0 9 ->
  kernel_line (constraint_matrix m1 m2) (concat Fs) ->
  exists k w', k <> 0 /\
    eight_point_algorithm svd x1 x2 true w = (Return (scale_table k Fs), w').
Proof.
  intros Hs1 Hs2 Hn Hv1 Hv2 Hsep Hf1 Hf2 m1 m2 Hmd1 Hmd2 HFs Hdet Hnz Hker.
  destruct (normalize2dpts_all_finite x1 w Hs1 Hv1 Hf1)
    as (h1 & E1 & _ & Hval & Hfr).
  assert (Hread2 : read h1 x2 = read (heap w) x2) by now apply Hfr.
  assert (Hf2' : Forall (fun x => finite x = true) (row h1 x2 2)).
  { rewrite !(read_three _ _ Hs2) in Hread2. now injection Hread2 as _ _ ->. }
  destruct (normalize2dpts_all_finite x2 (World h1 (stdout w)) Hs2
              (Hval x2 Hv2) Hf2')
    as (h2 & E2 & _).
  cbn [heap stdout] in E2. rewrite Hread2 in E2.
  fold m1 in E1. fold m2 in E2.
  subst m1 m2. rewrite (read_three _ _ Hs1), (read_three _ _ Hs2) in *.
  set (r0 := row (heap w) x1 0) in *. set (r1 := row (heap w) x1 1) in *.
  set (r2 := row (heap w) x1 2) in *.
  set (q0 := row (heap w) x2 0) in *. set (q1 := row (heap w) x2 1) in *.
  set (q2 := row (heap w) x2 2) in *.
  assert (Hr0 : length r0 = length r2) by (unfold r0, r2; now rewrite !row_length).
  assert (Hr1 : length r1 = length r2) by (unfold r1, r2; now rewrite !row_length).
  assert (Hq0 : length q0 = length r2) by (unfold q0, r2; now rewrite !row_length).
  assert (Hq1 : length q1 = length r2) by (unfold q1, r2; now rewrite !row_length).
  assert (Hq2 : length q2 = length r2) by (unfold q2, r2; now rewrite !row_length).
  rewrite constraint_matrix_dehomog in Hker by assumption.
  cbn [dehomog nth] in Hmd1, Hmd2, E1, E2.
  set (X1 := map2 sdiv r0 r2) in *. set (Y1 := map2 sdiv r1 r2) in *.
  set (X2 := map2 sdiv q0 q2) in *. set (Y2 := map2 sdiv q1 q2) in *.
  unfold norm_T in E1, E2.
  set (s1 := norm_scale X1 Y1) in *. set (s2 := norm_scale X2 Y2) in *.
  assert (Hs1nz : s1 <> 0).
  { unfold s1, norm_scale. cbn [ssqrt sofnat sdiv R_scalar]. rewrite INR_2.
    unfold Rdiv. apply Rmult_integral_contrapositive. split.
    - apply Rgt_not_eq, sqrt_lt_R0. lra.
    - now apply Rinv_neq_0_compat. }
  assert (Hs2nz : s2 <> 0).
  { unfold s2, norm_scale. cbn [ssqrt sofnat sdiv R_scalar]. rewrite INR_2.
    unfold Rdiv. apply Rmult_integral_contrapositive. split.
    - apply Rgt_not_eq, sqrt_lt_R0. lra.
    - now apply Rinv_neq_0_compat. }
  destruct (normalised_kernel _ s1 (mean X1) (mean Y1) s2 (mean X2) (mean Y2)
              Fs Hs1nz Hs2nz HFs Hdet Hnz Hker)
    as (HGs & HdetG & HnzG & HkerG & Hback).
  set (Gs := dot (dot (transpose (similarity_inv s2 (mean X2) (mean Y2))) Fs)
                 (similarity_inv s1 (mean X1) (mean Y1))) in *.
  rewrite <- (constraint_matrix_normalised s1 (mean X1) (mean Y1)
                s2 (mean X2) (mean Y2) r0 r1 r2 q0 q1 q2) in HkerG
    by assumption.
  destruct (solve_kernel_line _ Gs (constraint_matrix_rows _ _)
              HGs HdetG HnzG HkerG)
    as (k & U0 & S0 & Vh & v & U & d1 & d2 & D & V
        & Hk & HA & Hv & Hr & Hsvd & Hprod).
  exists k, (World h2 (stdout w)). split; [exact Hk |].
  pose proof (eight_point_algorithm_run_true svd x1 x2 w
                _ _ _ _ _ _ _ _ _ _ _ _ _ _ _ _ E1 E2 HA Hv Hr Hsvd) as Hrun.
  cbn [szero R_scalar] in Hrun. rewrite Hprod in Hrun.
  rewrite dot_scale in Hrun
    by (auto using is3x3_transpose, is3x3_similarity).
  now rewrite Hback in Hrun.
Qed.

Lemma svd_spec_shapes : svd_shapes svd.
Proof.
  intros M U D Vh HM Hs.
  destruct (proj2 (svd_spec M) HM) as (U' & d1 & d2 & d3 & V' & Hs' & HU & HV & _).
  rewrite Hs in Hs'. injection Hs' as -> _ ->. auto.
Qed.




End Estimates.

(** ** Existence of a singular value decomposition *)

Section SvdExists.
Local Open Scope R_scope.

(** A singular 3x3 table has a row that the other two combine to: from
    coefficients of a dependency of its rows, factors of the table with
    the third singular value 0. *)
Lemma dependent_rows_factor (a b c d e f g h i c1 c2 c3 : R) :
  c1 * a + c2 * d + c3 * g = 0 ->
  c1 * b + c2 * e + c3 * h = 0 ->
  c1 * c + c2 * f + c3 * i = 0 ->
  c1 <> 0 \/ c2 <> 0 \/ c3 <> 0 ->
  exists U V, is3x3 U /\ is3x3 V /\
    dot (dot U (diag3 1 1 0)) V = [[a; b; c]; [d; e; f]; [g; h; i]].
Proof.
  intros Ha Hb Hc [Hn | [Hn | Hn]].
  - exists [[- c2 / c1; - c3 / c1; 0]; [1; 0; 0]; [0; 1; 0]],
           [[d; e; f]; [g; h; i]; [0; 0; 0]].
    split; [unfold is3x3; eauto 10 |]. split; [unfold is3x3; eauto 10 |].
    cbn. repeat f_equal; try ring.
    + apply (Rmult_eq_reg_l c1); [| exact Hn]. field_simplify; [lra | exact Hn].
    + apply (Rmult_eq_reg_l c1); [| exact Hn]. field_simplify; [lra | exact Hn].
    + apply (Rmult_eq_reg_l c1); [| exact Hn]. field_simplify; [lra | exact Hn].
  - exists [[1; 0; 0]; [- c1 / c2; - c3 / c2; 0]; [0; 1; 0]],
           [[a; b; c]; [g; h; i]; [0; 0; 0]].
    split; [unfold is3x3; eauto 10 |]. split; [unfold is3x3; eauto 10 |].
    cbn. repeat f_equal; try ring.
    + apply (Rmult_eq_reg_l c2); [| exact Hn]. field_simplify; [lra | exact Hn].
    + apply (Rmult_eq_reg_l c2); [| exact Hn]. field_simplify; [lra | exact Hn].
    + apply (Rmult_eq_reg_l c2); [| exact Hn]. field_simplify; [lra | exact Hn].
  - exists [[1; 0; 0]; [0; 1; 0]; [- c1 / c3; - c2 / c3; 0]],
           [[a; b; c]; [d; e; f]; [0; 0; 0]].
    split; [unfold is3x3; eauto 10 |]. split; [unfold is3x3; eauto 10 |].
    cbn. repeat f_equal; try ring.
    + apply (Rmult_eq_reg_l c3); [| exact Hn]. field_simplify; [lra | exact Hn].
    + apply (Rmult_eq_reg_l c3); [| exact Hn]. field_simplify; [lra | exact Hn].
    + apply (Rmult_eq_reg_l c3); [| exact Hn]. field_simplify; [lra | exact Hn].
Qed.

Lemma singular_factor (M : list (list R)) :
  is3x3 M -> det3 M = 0 ->
  exists U V, is3x3 U /\ is3x3 V /\ dot (dot U (diag3 1 1 0)) V = M.
Proof.
  intros HM Hdet.
  destruct HM as (a & b & c & d & e & f & g & h & i & ->).
  cbn [det3 sadd ssub smul R_scalar] in Hdet.
  (* a dependency of the rows: a column of cofactors, when one is not 0 *)
  assert (Hcol : forall c1 c2 c3,
            c1 * a + c2 * d + c3 * g = 0 ->
            c1 * b + c2 * e + c3 * h = 0 ->
            c1 * c + c2 * f + c3 * i = 0 ->
            (c1 = 0 /\ c2 = 0 /\ c3 = 0) \/
            exists U V, is3x3 U /\ is3x3 V /\
              dot (dot U (diag3 1 1 0)) V = [[a; b; c]; [d; e; f]; [g; h; i]]).
  { intros c1 c2 c3 Ha Hb Hc.
    destruct (Req_dec c1 0) as [K1 | K1];
      [| right; eapply dependent_rows_factor; eauto].
    destruct (Req_dec c2 0) as [K2 | K2];
      [| right; eapply dependent_rows_factor; eauto].
    destruct (Req_dec c3 0) as [K3 | K3];
      [| right; eapply dependent_rows_factor; eauto].
    left. auto. }
  destruct (Hcol (e * i - f * h) (c * h - b * i) (b * f - c * e))
    as [(A1 & A2 & A3) | Hex]; [lra | ring | ring | | exact Hex].
  destruct (Hcol (f * g - d * i) (a * i - c * g) (c * d - a * f))
    as [(B1 & B2 & B3) | Hex]; [ring | lra | ring | | exact Hex].
  destruct (Hcol (d * h - e * g) (b * g - a * h) (a * e - b * d))
    as [(C1 & C2 & C3) | Hex]; [ring | ring | lra | | exact Hex].
  (* every 2x2 minor is 0: the second row is a multiple of the first, or
     the first is 0 *)
  destruct (Hcol d (- a) 0) as [(D1 & D2 & _) | Hex];
    [lra | lra | lra | | exact Hex].
  destruct (Hcol e (- b) 0) as [(E1 & E2 & _) | Hex];
    [lra | lra | lra | | exact Hex].
  destruct (Hcol f (- c) 0) as [(F1 & F2 & _) | Hex];
    [lra | lra | lra | | exact Hex].
  destruct (Hcol 1 0 0) as [(G1 & _) | Hex];
    [lra | lra | lra | lra | exact Hex].
Qed.

(** Factors as [np.linalg.svd] gives them exist for every 3x3 table. *)
Lemma svd_rank_exists (M : list (list R)) :
  is3x3 M -> exists r, svd_rank_ok M r /\ svd_descending r.
Proof.
  intros HM. destruct (Req_dec (det3 M) 0) as [Hdet | Hdet].
  - destruct (singular_factor M HM Hdet) as (U & V & HU & HV & Hprod).
    exists (Return (U, [1; 1; 0], V)). split.
    + exists U, 1, 1, 0, V. auto.
    + intros U' d1 d2 d3 Vh [= _ <- <- <- _]. lra.
  - exists (Return (M, [1; 1; 1], eye3)). split.
    + exists M, 1, 1, 1, eye3.
      split; [reflexivity |]. split; [exact HM |].
      split; [unfold is3x3, eye3; eauto 10 |].
      split; [| intros Hz; contradiction].
      table3 HM. cbn. repeat f_equal; ring.
    + intros U' d1 d2 d3 Vh [= _ <- <- <- _]. lra.
Qed.

(** ... and a last right singular vector for every table of rows of 9
    elements. *)
Lemma svd_last_row_exists (A : list (list R)) :
  exists r, svd_last_row_ok A r /\ svd_descending r.
Proof.
  destruct (classic (exists u, length u = 9%nat /\ u <> repeat 0 9
                               /\ annihilates A u))
    as [(u & Hl & Hnz & Hu) | Hno].
  - exists (Return ([], [], repeat u 9)). split; [| intros ? ? ? ? ?; discriminate].
    exists [], [], (repeat u 9), u.
    split; [reflexivity |]. split; [reflexivity |].
    split; [| split; [reflexivity | split; [exact Hnz | auto]]].
    simpl. repeat constructor; exact Hl.
  - exists (Return ([], [], repeat (1 :: repeat 0 8) 9)).
    split; [| intros ? ? ? ? ?; discriminate].
    exists [], [], (repeat (1 :: repeat 0 8) 9), (1 :: repeat 0 8).
    split; [reflexivity |]. split; [reflexivity |].
    split; [| split; [reflexivity | split; [| intros Hex; contradiction]]].
    + repeat constructor.
    + simpl. intros [= Hone]. lra.
Qed.

Lemma svd_sorted_exists (M : list (list R)) :
  exists r, svd_ok M r /\ svd_descending r.
Proof.
  destruct (classic (is3x3 M)) as [HM | HM].
  - destruct (svd_rank_exists M HM) as (r & Hr & Hd). exists r.
    split; [| exact Hd]. split; [| auto].
    intros H9. table3 HM. inversion H9 as [| ? ? Hl _]. discriminate.
  - destruct (svd_last_row_exists M) as (r & Hr & Hd). exists r.
    split; [| exact Hd]. split; [auto | intros; contradiction].
Qed.

Lemma svd_exists (M : list (list R)) : exists r, svd_ok M r.
Proof. destruct (svd_sorted_exists M) as (r & Hr & _). now exists r. Qed.

End SvdExists.

Lemma svd_choice_ok (M : list (list R)) : svd_ok M (svd_choice M).
Proof. unfold svd_choice. apply epsilon_spec, svd_exists. Qed.




(** ** Points whose third coordinate is 1 *)

Section UnitThird.
Local Open Scope R_scope.

Lemma map2_div_ones : forall xs os : list R,
  Forall (fun x => x = 1) os -> length xs = length os -> map2 Rdiv xs os = xs.
Proof.
  induction xs as [| x xs IH]; intros [| o os] Ho Hl; simpl in *;
    try lia; [reflexivity |].
  inversion Ho as [| ? ? -> Ho']; subst.
  rewrite IH by (auto; lia). f_equal. field.
Qed.

Lemma map_ones (os : list R) :
  Forall (fun x => x = 1) os -> map (fun _ => 1) os = os.
Proof. induction 1; simpl; congruence. Qed.

(** De-homogenising points whose third coordinate is 1 changes
    nothing. *)
Lemma dehomog_ones (r0 r1 r2 : list R) :
  Forall (fun x => x = 1) r2 -> length r0 = length r2 -> length r1 = length r2 ->
  dehomog [r0; r1; r2] = [r0; r1; r2].
Proof.
  intros Ho H0 H1. unfold dehomog.
  change sdiv with Rdiv. change (sone (K := R)) with 1.
  now rewrite !map2_div_ones, map_ones.
Qed.

Lemma ones_finite (os : list R) :
  Forall (fun x => x = 1) os -> Forall (fun x => finite x = true) os.
Proof.
  intros Ho. eapply Forall_impl; [exact Ho |].
  intros x ->. apply finite_one.
Qed.

End UnitThird.

(** ** The examples *)

Section Data.
Local Open Scope R_scope.

(** An array that shows the whole of a rectangular buffer. *)
Lemma valid_whole (h : list (list (list R))) (b n0 n1 : nat) (m : list (list R)) :
  h !! b = Some m -> length m = n0 -> Forall (fun r => length r = n1) m ->
  valid h (NDArray b 0 0 [n0; n1] false).
Proof.
  intros Hb Hl Hr i j Hi Hj. unfold get, addr, shape0, shape1 in *.
  simpl in *. rewrite Hb. simpl.
  destruct (lookup_lt_is_Some_2 m i) as [r Hri]; [lia |].
  rewrite Hri. simpl. apply lookup_lt_is_Some_2.
  rewrite (proj1 (Forall_lookup _ _) Hr i r Hri). exact Hj.
Qed.

Lemma finite_two : finite 2 = true.
Proof.
  apply finite_R. rewrite Rabs_pos_eq by lra.
  pose proof eps_lt_1. lra.
Qed.

Ltac rows_of H :=
  repeat match type of H with
         | Forall _ (_ :: _) =>
             let E := fresh "E" in
             apply Forall_cons_1 in H as [E H]; cbn in E
         end.

(** The null space of the constraint matrix of [world1] is the line of
    [Fs]: eight linear equations on nine unknowns. *)
Lemma kernel_world1 :
  kernel_line (constraint_matrix [xs1; ys1; repeat 1 8] [xs2; ys2; repeat 1 8])
              (concat Fs).
Proof.
  split.
  - unfold annihilates. cbn. repeat constructor; cbn; ring.
  - intros v Hl Hv.
    apply vec9 in Hl as (v1 & v2 & v3 & v4 & v5 & v6 & v7 & v8 & v9 & ->).
    unfold annihilates in Hv. cbn in Hv. rows_of Hv.
    exists v8. cbn. repeat f_equal; lra.
Qed.

Lemma Fs_facts : is3x3 Fs /\ det3 Fs = 0 /\ concat Fs <> repeat 0 9.
Proof.
  split; [unfold is3x3, Fs; eauto 10 |]. split; [cbn; ring |].
  cbn. intros [= H6 H8]. lra.
Qed.

Lemma world1_spread :
  mean_distance xs1 ys1 <> 0 /\ mean_distance xs2 ys2 <> 0.
Proof.
  split.
  - apply (mean_distance_nonzero (combine xs1 ys1) (0, 0)); [now left |].
    unfold mean, sum. simpl. lra.
  - apply (mean_distance_nonzero (combine xs2 ys2) (0, 1)); [now left |].
    unfold mean, sum. simpl. lra.
Qed.

Lemma Fraw_facts : is3x3 Fraw /\ det3 Fraw = 0 /\ concat Fraw <> repeat 0 9.
Proof.
  split; [unfold is3x3, Fraw; eauto 10 |]. split; [cbn; ring |].
  cbn. intros [= H6 H8]. lra.
Qed.

Lemma world2_valid : valid (heap world2) left1 /\ valid (heap world2) right1.
Proof.
  split; eapply valid_whole; try reflexivity; repeat constructor.
Qed.

Lemma world2_finite :
  Forall (fun x => finite x = true) (row (heap world2) left1 2) /\
  Forall (fun x => finite x = true) (row (heap world2) right1 2).
Proof. split; repeat constructor; apply finite_two. Qed.

Lemma world2_spread :
  let m1 := dehomog (read (heap world2) left1) in
  let m2 := dehomog (read (heap world2) right1) in
  mean_distance (nth 0 m1 []) (nth 1 m1 []) <> 0 /\
  mean_distance (nth 0 m2 []) (nth 1 m2 []) <> 0.
Proof.
  split.
  - apply (mean_distance_nonzero
             (combine (map2 Rdiv hxs1 (repeat 2 8)) (map2 Rdiv hys1 (repeat 2 8)))
             (0 / 2, 0 / 2)); [now left |].
    unfold mean, sum. simpl. lra.
  - apply (mean_distance_nonzero
             (combine (map2 Rdiv hxs2 (repeat 2 8)) (map2 Rdiv hys2 (repeat 2 8)))
             (0 / 2, 2 / 2)); [now left |].
    unfold mean, sum. simpl. lra.
Qed.

(** The null space of the constraint matrix of the points as held ... *)
Lemma kernel_raw :
  kernel_line (constraint_matrix (read (heap world2) left1)
                                 (read (heap world2) right1))
              (concat Fraw).
Proof.
  split.
  - unfold annihilates. cbn. repeat constructor; cbn; ring.
  - intros v Hl Hv.
    apply vec9 in Hl as (v1 & v2 & v3 & v4 & v5 & v6 & v7 & v8 & v9 & ->).
    unfold annihilates in Hv. cbn in Hv. rows_of Hv.
    exists v8. cbn. repeat f_equal; lra.
Qed.

(** ... and of the de-homogenised points. *)
Lemma kernel_dehomog :
  kernel_line (constraint_matrix (dehomog (read (heap world2) left1))
                                 (dehomog (read (heap world2) right1)))
              (concat Fs).
Proof.
  split.
  - unfold annihilates. cbn. repeat constructor; cbn; field.
  - intros v Hl Hv.
    apply vec9 in Hl as (v1 & v2 & v3 & v4 & v5 & v6 & v7 & v8 & v9 & ->).
    unfold annihilates in Hv. cbn in Hv. rows_of Hv.
    exists v8. cbn. repeat f_equal; lra.
Qed.

End Data.

(** C9.  The two estimates differ beyond scale on homogeneous points
    whose third coordinate is not 1, in exact arithmetic and for an
    [np.linalg.svd] with the two properties above.  The eight
    correspondences of [world2] have third coordinate 2 and are exact for
    [Fs], whose line is the null space of the constraint matrix of the
    de-homogenised points.  With normalisation [normalize2dpts] divides
    by the third coordinate and the estimate is a multiple of [Fs];
    without it the constraint matrix is built from the coordinates as
    held, the division is skipped, and the estimate is a multiple of
    [Fraw], which is no multiple of [Fs]. *)
Lemma homogeneous_estimates_differ :
  let m1 := read (heap world2) left1 in
  let m2 := read (heap world2) right1 in
  (forall M, svd_ok M (svd_choice M)) /\
  Forall (fun x => finite x = true) (row (heap world2) left1 2) /\
  Forall (fun x => finite x = true) (row (heap world2) right1 2) /\
  shape1 left1 = 8 /\
  Forall (fun q => epipolar_residual Fs (fst q) (snd q) = 0%R)
         (combine (transpose m1) (transpose m2)) /\
  kernel_line (constraint_matrix (dehomog m1) (dehomog m2)) (concat Fs) /\
  exists Fn Fu wn,
    eight_point_algorithm svd_choice left1 right1 true world2 = (Return Fn, wn) /\
    eight_point_algorithm svd_choice left1 right1 false world2
    = (Return Fu, world2) /\
    forall k, Fn <> scale_table k Fu.
Proof.
  intros m1 m2.
  destruct world2_valid as [Hv1 Hv2].
  destruct world2_finite as [Hf1 Hf2].
  destruct world2_spread as [Hmd1 Hmd2].
  destruct Fs_facts as (HFs & Hdet & Hnz).
  destruct Fraw_facts as (HFr & Hdetr & Hnzr).
  split; [exact svd_choice_ok |]. split; [exact Hf1 |]. split; [exact Hf2 |].
  split; [reflexivity |]. split.
  { cbn. repeat constructor; cbn; ring. }
  split; [exact kernel_dehomog |].
  assert (Hsep : separate left1 right1) by (left; discriminate).
  assert (Hs1 : shape0 left1 = 3) by reflexivity.
  assert (Hs2 : shape0 right1 = 3) by reflexivity.
  assert (Hn : shape1 left1 = shape1 right1) by reflexivity.
  destruct (normalised_estimate svd_choice svd_choice_ok left1 right1 world2 Fs
              Hs1 Hs2 Hn Hv1 Hv2 Hsep
              Hf1 Hf2 Hmd1 Hmd2 HFs Hdet Hnz kernel_dehomog)
    as (kn & wn & Hkn & Hrunn).
  destruct (unnormalised_estimate svd_choice svd_choice_ok left1 right1 world2
              Fraw HFr Hdetr Hnzr kernel_raw)
    as (ku & Hku & Hrunu).
  exists (scale_table kn Fs), (scale_table ku Fraw), wn.
  split; [exact Hrunn |]. split; [exact Hrunu |].
  intros k Heq. unfold scale_table, Fs, Fraw in Heq.
  cbn [map smul R_scalar] in Heq.
  injection Heq as _ _ _ _ _ _ _ H32 H33.
  apply Hkn. lra.
Qed.

(** * Further properties of the code *)

(** ** The canonical arrays of the validation *)

Section Canonical.
Context {K : Type} `{Scalar K}.

Lemma shape_two a : ndim a = 2 -> shape a = [shape0 a; shape1 a].
Proof.
  unfold ndim, shape0, shape1.
  destruct (shape a) as [| n0 [| n1 [| n2 l]]]; simpl; try discriminate.
  reflexivity.
Qed.

Lemma max_shape_two a :
  ndim a = 2 -> max_shape a = Nat.max (shape0 a) (shape1 a).
Proof.
  intros Hd. unfold max_shape. rewrite (shape_two a Hd). simpl. lia.
Qed.

Lemma min_shape_two a :
  ndim a = 2 -> min_shape a = Nat.min (shape0 a) (shape1 a).
Proof.
  intros Hd. unfold min_shape. rewrite (shape_two a Hd). simpl. lia.
Qed.

Lemma transpose_view_shape a :
  ndim a = 2 ->
  shape0 (transpose_view a) = shape1 a /\ shape1 (transpose_view a) = shape0 a.
Proof.
  intros Hd. unfold shape0 at 1, shape1 at 2, transpose_view. simpl.
  rewrite (shape_two a Hd). simpl. auto.
Qed.

Lemma slice_rows_shape a lo hi :
  shape (slice_rows a lo hi)
  = [Nat.min hi (shape0 a) - Nat.min lo (Nat.min hi (shape0 a)); shape1 a].
Proof. unfold slice_rows. destruct (transposed a); reflexivity. Qed.

Lemma slice_cols_shape a lo hi :
  shape (slice_cols a lo hi)
  = [shape0 a; Nat.min hi (shape1 a) - Nat.min lo (Nat.min hi (shape1 a))].
Proof. unfold slice_cols. destruct (transposed a); reflexivity. Qed.

Lemma read_length h a : length (read (K := K) h a) = shape0 a.
Proof. unfold read. now rewrite length_map, length_seq. Qed.

(** [np.r_] succeeds when the array has as many columns as the row of
    ones, and gives a new array of one more row. *)
Lemma r_ones_returns a n w :
  shape1 a = n ->
  r_ones (K := K) a n w
  = (Return (NDArray (length (heap w)) 0 0 [S (shape0 a); n] false),
     World (heap w ++ [read (heap w) a ++ ones_row n]) (stdout w)).
Proof.
  intros Hn. unfold r_ones. rewrite Hn, Nat.eqb_refl. unfold alloc.
  rewrite length_app, read_length.
  replace (shape0 a + length (ones_row (K := K) n)) with (S (shape0 a))
    by (simpl; lia).
  assert (Hh : length (hd [] (read (heap w) a ++ ones_row n)) = n).
  { unfold read. destruct (shape0 a) as [| k] eqn:E.
    - simpl. apply repeat_length.
    - rewrite <- cons_seq. simpl. now rewrite row_length. }
  rewrite Hh. reflexivity.
Qed.

Lemma r_ones_pair a b n w :
  shape0 a = 2 -> shape1 a = n -> shape1 b = n -> shape0 b = 2 ->
  (bind (r_ones a n) (fun x1 =>
     bind (r_ones b n) (fun x2 => ret (x1, x2, n)))) w
  = (Return (NDArray (length (heap w)) 0 0 [3; n] false,
             NDArray (S (length (heap w))) 0 0 [3; n] false, n),
     World (heap w ++ [read (heap w) a ++ ones_row n;
                       read (heap w ++ [read (heap w) a ++ ones_row n]) b
                       ++ ones_row n])
           (stdout w)).
Proof.
  intros Ha0 Ha1 Hb1 Hb0. unfold bind.
  rewrite (r_ones_returns a n w Ha1), r_ones_returns by exact Hb1.
  unfold ret. cbn [heap stdout]. rewrite Ha0, Hb0, length_app, <- app_assoc.
  cbn [length app]. replace (length (heap w) + 1) with (S (length (heap w))) by lia.
  reflexivity.
Qed.

Lemma slice_rows_dims a lo hi :
  shape0 (slice_rows a lo hi)
  = Nat.min hi (shape0 a) - Nat.min lo (Nat.min hi (shape0 a)) /\
  shape1 (slice_rows a lo hi) = shape1 a.
Proof.
  unfold shape0 at 1, shape1 at 1. now rewrite slice_rows_shape.
Qed.

Lemma slice_cols_dims a lo hi :
  shape0 (transpose_view (slice_cols a lo hi))
  = Nat.min hi (shape1 a) - Nat.min lo (Nat.min hi (shape1 a)) /\
  shape1 (transpose_view (slice_cols a lo hi)) = shape0 a.
Proof.
  unfold shape0 at 1, shape1 at 2, transpose_view. cbn [shape].
  now rewrite slice_cols_shape.
Qed.

Lemma process_input_pointpairs_cases args (w : world K) :
  (exists x, process_input_pointpairs args w = (Raise (ShapeError x), w)) \/
  (exists x1 x2 n w',
     process_input_pointpairs args w = (Return (x1, x2, n), w') /\
     shape x1 = [3; n] /\ shape x2 = [3; n] /\ 8 <= n).
Proof.
  unfold process_input_pointpairs.
  destruct args as [| a [| b [| c l]]];
    [left; eexists; reflexivity | | | left; eexists; reflexivity].
  - (* one array *)
    destruct (ndim a =? 2) eqn:Hd; cbn [negb];
      [| left; eexists; reflexivity].
    apply Nat.eqb_eq in Hd.
    pose proof (shape_two a Hd) as Es.
    rewrite (max_shape_two a Hd), (min_shape_two a Hd).
    destruct (Nat.ltb_spec (Nat.max (shape0 a) (shape1 a)) 8) as [Hn | Hn];
      [left; eexists; reflexivity |].
    destruct (Nat.eqb_spec (Nat.min (shape0 a) (shape1 a)) 4) as [H4 | H4].
    + destruct (Nat.eqb_spec 4 (shape0 a)) as [H0 | H0].
      * right. do 4 eexists. split.
        { destruct (slice_rows_dims a 0 2), (slice_rows_dims a 2 4).
          apply r_ones_pair; lia. }
        repeat split; lia.
      * right. do 4 eexists. split.
        { destruct (slice_cols_dims a 0 2), (slice_cols_dims a 2 4).
          apply r_ones_pair; lia. }
        repeat split; lia.
    + destruct (Nat.eqb_spec (Nat.min (shape0 a) (shape1 a)) 6) as [H6 | H6];
        [| left; eexists; reflexivity].
      destruct (Nat.eqb_spec 6 (shape0 a)) as [H0 | H0].
      * right. do 4 eexists. split; [reflexivity |].
        rewrite !slice_rows_shape. repeat split; try lia; f_equal; try lia;
          f_equal; lia.
      * right. do 4 eexists. split; [reflexivity |].
        unfold transpose_view. cbn [shape]. rewrite !slice_cols_shape.
        cbn [rev app]. repeat split; try lia; f_equal; try lia; f_equal; lia.
  - (* two arrays *)
    destruct (bool_decide (shape a = shape b)) eqn:Hs; cbn [negb];
      [| left; eexists; reflexivity].
    apply bool_decide_eq_true in Hs.
    destruct (ndim a =? 2) eqn:Hd; cbn [negb];
      [| left; eexists; reflexivity].
    apply Nat.eqb_eq in Hd.
    assert (Hdb : ndim b = 2) by (unfold ndim in *; congruence).
    assert (Hb0 : shape0 b = shape0 a) by (unfold shape0; congruence).
    assert (Hb1 : shape1 b = shape1 a) by (unfold shape1; congruence).
    pose proof (shape_two a Hd) as Es.
    rewrite (max_shape_two a Hd), (min_shape_two a Hd).
    destruct (Nat.ltb_spec (Nat.max (shape0 a) (shape1 a)) 8) as [Hn | Hn];
      [left; eexists; reflexivity |].
    destruct (Nat.eqb_spec (Nat.min (shape0 a) (shape1 a)) 2) as [H2 | H2].
    + destruct (Nat.eqb_spec 2 (shape0 a)) as [H0 | H0].
      * right. do 4 eexists. split; [apply r_ones_pair; lia |].
        repeat split; lia.
      * right. do 4 eexists. split.
        { destruct (transpose_view_shape a Hd), (transpose_view_shape b Hdb).
          apply r_ones_pair; lia. }
        repeat split; lia.
    + destruct (Nat.eqb_spec (Nat.min (shape0 a) (shape1 a)) 3) as [H3 | H3];
        [| left; eexists; reflexivity].
      destruct (Nat.eqb_spec 3 (shape1 a)) as [H1 | H1].
      * right. do 4 eexists. split; [reflexivity |].
        unfold transpose_view. cbn [shape]. rewrite <- Hs, Es. cbn [rev app].
        repeat split; try lia; f_equal; try lia; f_equal; lia.
      * right. do 4 eexists. split; [reflexivity |].
        rewrite <- Hs, Es.
        repeat split; try lia; f_equal; try lia; f_equal; lia.
Qed.

Lemma process_returns_shapes args (w : world K) x1 x2 n w1 :
  process_input_pointpairs args w = (Return (x1, x2, n), w1) ->
  shape x1 = [3; n] /\ shape x2 = [3; n] /\ 8 <= n.
Proof.
  intros Hp.
  destruct (process_input_pointpairs_cases args w)
    as [[x Hx] | (y1 & y2 & m & w2 & Hy & Hs)]; [congruence |].
  rewrite Hp in Hy. now injection Hy as -> -> -> ->.
Qed.

Lemma shape0_three a n : shape a = [3; n] -> shape0 a = 3.
Proof. unfold shape0. now intros ->. Qed.

Lemma shape_dims a n0 n1 :
  shape a = [n0; n1] -> ndim a = 2 /\ shape0 a = n0 /\ shape1 a = n1.
Proof. unfold ndim, shape0, shape1. now intros ->. Qed.

(** X1.  Whenever the validation returns, its two canonical arrays are
    3xN, where N is the number of points it returns with them, and N is
    at least 8. *)
Theorem process_input_pointpairs_canonical_shape args (w : world K)
    x1 x2 n w' :
  process_input_pointpairs args w = (Return (x1, x2, n), w') ->
  shape x1 = [3; n] /\ shape x2 = [3; n] /\ 8 <= n.
Proof.
  intros Hp.
  destruct (process_input_pointpairs_cases args w)
    as [[x Hx] | (y1 & y2 & m & w2 & Hy & Hs1 & Hs2 & Hm)].
  - rewrite Hx in Hp. discriminate.
  - rewrite Hp in Hy. injection Hy as <- <- <- _. auto.
Qed.

(** X2.  The validation raises no exception but [ShapeError], and a call
    that raises leaves the store and the output as they were: the [np.r_]
    of the Euclidean layouts never fails. *)
Theorem process_input_pointpairs_raises_only_shape_errors args (w : world K)
    e w' :
  process_input_pointpairs args w = (Raise e, w') ->
  exists x, e = ShapeError x /\ w' = w.
Proof.
  intros Hp.
  destruct (process_input_pointpairs_cases args w)
    as [[x Hx] | (y1 & y2 & m & w2 & Hy & _)].
  - rewrite Hx in Hp. injection Hp as <- <-. eauto.
  - rewrite Hy in Hp. discriminate.
Qed.

End Canonical.

Lemma process_input_pointpairs_canonical_shape_witness :
  let w := World ([] : list (list (list float))) [] in
  let a := NDArray 0 0 0 [3; 8] false in
  process_input_pointpairs [a; a] w = (Return (a, a, 8), w) /\
  shape a = [3; 8] /\ shape a = [3; 8] /\ 8 <= 8.
Proof.
  intros w a. split; [reflexivity |].
  apply (process_input_pointpairs_canonical_shape [a; a] w a a 8 w).
  reflexivity.
Defined.

Lemma process_input_pointpairs_raises_only_shape_errors_witness :
  let w := World ([] : list (list (list float))) [] in
  let a := NDArray 0 0 0 [2; 7] false in
  let m :=
    "At least 8 points are needed to compute the fundamental matrix"%string in
  process_input_pointpairs [a; a] w = (Raise (ShapeError m), w) /\
  exists x, ShapeError m = ShapeError x /\ w = w.
Proof.
  intros w a m. split; [reflexivity |].
  apply (process_input_pointpairs_raises_only_shape_errors [a; a] w _ w).
  reflexivity.
Defined.

(** ** Layouts: transposes and combined arrays *)

Section Layouts.
Context {K : Type} `{Scalar K}.

Lemma transpose_view_involutive a : transpose_view (transpose_view a) = a.
Proof.
  destruct a as [b r c s t]. unfold transpose_view. cbn.
  now rewrite rev_involutive, negb_involutive.
Qed.

Lemma transpose_view_ndim a : ndim (transpose_view a) = ndim a.
Proof. unfold ndim, transpose_view. cbn. apply length_rev. Qed.

Lemma slice_rows_transpose_view a lo hi :
  ndim a = 2 ->
  slice_rows (transpose_view a) lo hi = transpose_view (slice_cols a lo hi).
Proof.
  intros Hd. destruct (transpose_view_shape a Hd) as [E0 E1].
  unfold slice_rows, slice_cols. rewrite E0, E1.
  unfold transpose_view at 1 2 3 4 5.  cbn [transposed base roff coff].
  destruct (transposed a); reflexivity.
Qed.

Lemma slice_cols_transpose_view a lo hi :
  ndim a = 2 ->
  transpose_view (slice_cols (transpose_view a) lo hi) = slice_rows a lo hi.
Proof.
  intros Hd.
  rewrite <- slice_rows_transpose_view by now rewrite transpose_view_ndim.
  now rewrite transpose_view_involutive.
Qed.

Lemma process_input_pointpairs_transposed args (w : world K) :
  process_input_pointpairs (map transpose_view args) w
  = process_input_pointpairs args w.
Proof.
  destruct args as [| a [| b [| c l]]]; try reflexivity.
  - (* one array *)
    cbn [map]. unfold process_input_pointpairs.
    rewrite transpose_view_ndim.
    destruct (ndim a =? 2) eqn:Hd; cbn [negb]; [| reflexivity].
    apply Nat.eqb_eq in Hd.
    assert (Hdt : ndim (transpose_view a) = 2) by now rewrite transpose_view_ndim.
    destruct (transpose_view_shape a Hd) as [E0 E1].
    rewrite (max_shape_two _ Hdt), (min_shape_two _ Hdt), E0, E1,
      (max_shape_two a Hd), (min_shape_two a Hd),
      (Nat.max_comm (shape1 a)), (Nat.min_comm (shape1 a)).
    destruct (Nat.ltb_spec (Nat.max (shape0 a) (shape1 a)) 8) as [Hn | Hn];
      [reflexivity |].
    rewrite !slice_rows_transpose_view, !slice_cols_transpose_view by exact Hd.
    destruct (Nat.eqb_spec (Nat.min (shape0 a) (shape1 a)) 4) as [H4 | H4].
    + destruct (Nat.eqb_spec 4 (shape0 a)) as [H0 | H0];
        destruct (Nat.eqb_spec 4 (shape1 a)) as [H1 | H1];
        try reflexivity; lia.
    + destruct (Nat.eqb_spec (Nat.min (shape0 a) (shape1 a)) 6) as [H6 | H6];
        [| reflexivity].
      destruct (Nat.eqb_spec 6 (shape0 a)) as [H0 | H0];
        destruct (Nat.eqb_spec 6 (shape1 a)) as [H1 | H1];
        try reflexivity; lia.
  - (* two arrays *)
    cbn [map]. unfold process_input_pointpairs.
    rewrite transpose_view_ndim.
    assert (Hs : bool_decide (shape (transpose_view a) = shape (transpose_view b))
                 = bool_decide (shape a = shape b)).
    { apply bool_decide_ext. unfold transpose_view. cbn [shape]. split.
      - intros E. apply (f_equal (@rev nat)) in E.
        now rewrite !rev_involutive in E.
      - now intros ->. }
    rewrite Hs.
    destruct (bool_decide (shape a = shape b)); cbn [negb]; [| reflexivity].
    destruct (ndim a =? 2) eqn:Hd; cbn [negb]; [| reflexivity].
    apply Nat.eqb_eq in Hd.
    assert (Hdt : ndim (transpose_view a) = 2) by now rewrite transpose_view_ndim.
    destruct (transpose_view_shape a Hd) as [E0 E1].
    rewrite (max_shape_two _ Hdt), (min_shape_two _ Hdt), E0, E1,
      (max_shape_two a Hd), (min_shape_two a Hd),
      (Nat.max_comm (shape1 a)), (Nat.min_comm (shape1 a)),
      !transpose_view_involutive.
    destruct (Nat.ltb_spec (Nat.max (shape0 a) (shape1 a)) 8) as [Hn | Hn];
      [reflexivity |].
    destruct (Nat.eqb_spec (Nat.min (shape0 a) (shape1 a)) 2) as [H2 | H2].
    + destruct (Nat.eqb_spec 2 (shape0 a)) as [H0 | H0];
        destruct (Nat.eqb_spec 2 (shape1 a)) as [H1 | H1];
        try reflexivity; lia.
    + destruct (Nat.eqb_spec (Nat.min (shape0 a) (shape1 a)) 3) as [H3 | H3];
        [| reflexivity].
      destruct (Nat.eqb_spec 3 (shape0 a)) as [H0 | H0];
        destruct (Nat.eqb_spec 3 (shape1 a)) as [H1 | H1];
        try reflexivity; lia.
Qed.

Lemma fundamental_matrix_transpose_view
    (svd : list (list K) -> outcome (list (list K) * list K * list (list K)))
    args normalize (w : world K) :
  fundamental_matrix svd (map transpose_view args) normalize w
  = fundamental_matrix svd args normalize w.
Proof.
  unfold fundamental_matrix, bind.
  now rewrite process_input_pointpairs_transposed.
Qed.

(** X3.  The layout of the input does not matter: passing the transposes
    of the arrays gives the same outcome of the validation (the same
    canonical arrays, the same store, the same error) and the same outcome
    of the entry point. *)
Theorem transposed_input_same_result args (w : world K) :
  process_input_pointpairs (map transpose_view args) w
  = process_input_pointpairs args w /\
  forall svd normalize,
    fundamental_matrix svd (map transpose_view args) normalize w
    = fundamental_matrix svd args normalize w.
Proof.
  split; [apply process_input_pointpairs_transposed |].
  intros svd normalize. apply fundamental_matrix_transpose_view.
Qed.

End Layouts.

(** ** Views, slices and new arrays *)

Section Views.
Context {K : Type} `{Scalar K}.

Lemma get_transpose_view (h : list (list (list K))) a i j :
  get h (transpose_view a) i j = get h a j i.
Proof.
  unfold get, addr, transpose_view. cbn.
  destruct (transposed a); reflexivity.
Qed.

Lemma get_slice_rows (h : list (list (list K))) a lo hi i j :
  get h (slice_rows a lo hi) i j
  = get h a (Nat.min lo (Nat.min hi (shape0 a)) + i) j.
Proof.
  unfold get, addr, slice_rows.
  destruct (transposed a); cbn; now rewrite Nat.add_assoc.
Qed.

Lemma get_app (h l : list (list (list K))) a i j :
  base a < length h -> get (h ++ l) a i j = get h a i j.
Proof. intros Hb. unfold get. now rewrite lookup_app_l. Qed.

Lemma row_app (h l : list (list (list K))) a i :
  base a < length h -> row (h ++ l) a i = row h a i.
Proof.
  intros Hb. apply row_ext; [reflexivity |]. intros j _. now apply get_app.
Qed.

Lemma read_app (h l : list (list (list K))) a :
  base a < length h -> read (h ++ l) a = read h a.
Proof.
  intros Hb. unfold read. apply map_ext. intros i. now apply row_app.
Qed.

Lemma valid_base (h : list (list (list K))) a :
  valid h a -> 0 < shape0 a -> 0 < shape1 a -> base a < length h.
Proof.
  intros Hv H0 H1. destruct (Hv 0 0 H0 H1) as [x Hx]. unfold get in Hx.
  destruct (h !! base a) as [m |] eqn:E; [| discriminate].
  apply lookup_lt_Some in E. exact E.
Qed.

Lemma valid_app (h l : list (list (list K))) a :
  valid h a -> valid (h ++ l) a.
Proof.
  intros Hv i j Hi Hj. destruct (Hv i j Hi Hj) as [x Hx].
  exists x. unfold get in *.
  destruct (h !! base a) as [m |] eqn:E; [| discriminate].
  rewrite (lookup_app_l_Some _ _ _ _ E). exact Hx.
Qed.

Lemma valid_transpose_view (h : list (list (list K))) a :
  ndim a = 2 -> valid h a -> valid h (transpose_view a).
Proof.
  intros Hd Hv i j Hi Hj. destruct (transpose_view_shape a Hd) as [E0 E1].
  rewrite get_transpose_view. apply Hv; lia.
Qed.

(** A new array holds the table it was allocated with. *)
Lemma get_alloc (h : list (list (list K))) (m : list (list K)) s i j :
  get (h ++ [m]) (NDArray (length h) 0 0 s false) i j = m !! i ≫= (.!! j).
Proof.
  unfold get, addr. cbn. now rewrite list_lookup_middle.
Qed.

Lemma row_alloc (h : list (list (list K))) (m : list (list K)) n0 n i r :
  m !! i = Some r -> length r = n ->
  row (h ++ [m]) (NDArray (length h) 0 0 [n0; n] false) i = r.
Proof.
  intros Hi Hr. apply list_eq. intros j.
  destruct (Nat.lt_ge_cases j n) as [Hj | Hj].
  - rewrite row_lookup by exact Hj. rewrite get_alloc, Hi. cbn.
    destruct (lookup_lt_is_Some_2 r j) as [x Hx]; [lia |].
    now rewrite Hx.
  - rewrite !lookup_ge_None_2; [reflexivity | lia |].
    rewrite row_length. exact Hj.
Qed.

Lemma read_alloc (h : list (list (list K))) (m : list (list K)) n :
  Forall (fun r => length r = n) m ->
  read (h ++ [m]) (NDArray (length h) 0 0 [length m; n] false) = m.
Proof.
  intros Hm. apply list_eq. intros i. unfold read. cbn [shape0 shape nth].
  rewrite list_lookup_fmap.
  destruct (m !! i) as [r |] eqn:E.
  - rewrite lookup_seq_lt by (apply lookup_lt_Some in E; exact E).
    cbn. f_equal. apply row_alloc; [exact E |].
    rewrite Forall_lookup in Hm. exact (Hm i r E).
  - rewrite lookup_seq_ge; [reflexivity |]. now apply lookup_ge_None_1.
Qed.

Lemma valid_alloc (h : list (list (list K))) (m : list (list K)) n :
  Forall (fun r => length r = n) m ->
  valid (h ++ [m]) (NDArray (length h) 0 0 [length m; n] false).
Proof.
  intros Hm i j Hi Hj. cbn in Hi, Hj. rewrite get_alloc.
  destruct (lookup_lt_is_Some_2 m i Hi) as [r Hr]. rewrite Hr. cbn.
  rewrite Forall_lookup in Hm. apply lookup_lt_is_Some_2.
  rewrite (Hm i r Hr). exact Hj.
Qed.

Lemma r_ones_table (h : list (list (list K))) a n :
  shape1 a = n ->
  Forall (fun r => length r = n) (read h a ++ ones_row n) /\
  length (read h a ++ ones_row (K := K) n) = S (shape0 a).
Proof.
  intros Hn. split.
  - apply Forall_app. split.
    + unfold read. apply Forall_fmap, Forall_true. intros i. cbn.
      now rewrite row_length.
    + repeat constructor. apply repeat_length.
  - rewrite length_app, read_length. simpl. lia.
Qed.

End Views.

(** ** The tables of the canonical arrays *)

Section CanonicalTables.
Context {K : Type} `{Scalar K}.

(** An array that shows the upper left of a buffer. *)
Lemma valid_table (h : list (list (list K))) b n0 n1 m :
  h !! b = Some m -> n0 <= length m -> Forall (fun r => n1 <= length r) m ->
  valid h (NDArray b 0 0 [n0; n1] false).
Proof.
  intros Hb Hl Hr i j Hi Hj. unfold get, addr, shape0, shape1 in *.
  simpl in *. rewrite Hb. simpl.
  destruct (lookup_lt_is_Some_2 m i) as [r Hri]; [lia |].
  rewrite Hri. simpl. apply lookup_lt_is_Some_2.
  pose proof (proj1 (Forall_lookup _ _) Hr i r Hri). simpl in *. lia.
Qed.

Lemma euclidean_pair_tables a b (w : world K) n :
  shape a = [2; n] -> shape b = [2; n] -> 8 <= n ->
  valid (heap w) a -> valid (heap w) b ->
  exists x1 x2 w',
    process_input_pointpairs [a; b] w = (Return (x1, x2, n), w') /\
    stdout w' = stdout w /\
    shape x1 = [3; n] /\ shape x2 = [3; n] /\
    read (heap w') x1 = read (heap w) a ++ ones_row n /\
    read (heap w') x2 = read (heap w) b ++ ones_row n /\
    valid (heap w') x1 /\ valid (heap w') x2 /\ separate x1 x2 /\
    (forall c, base c < length (heap w) ->
               read (heap w') c = read (heap w) c).
Proof.
  intros Ha Hb Hn Hva Hvb.
  destruct (shape_dims a 2 n Ha) as (Hda & Ha0 & Ha1).
  destruct (shape_dims b 2 n Hb) as (Hdb & Hb0 & Hb1).
  assert (Hba : base a < length (heap w)) by (apply valid_base; [assumption | lia ..]).
  assert (Hbb : base b < length (heap w)) by (apply valid_base; [assumption | lia ..]).
  set (m1 := read (heap w) a ++ ones_row n).
  set (m2 := read (heap w) b ++ ones_row n).
  destruct (r_ones_table (heap w) a n Ha1) as [Hr1 Hl1].
  destruct (r_ones_table (heap w) b n Hb1) as [Hr2 Hl2].
  fold m1 in Hr1, Hl1. fold m2 in Hr2, Hl2. rewrite Ha0 in Hl1. rewrite Hb0 in Hl2.
  exists (NDArray (length (heap w)) 0 0 [3; n] false),
         (NDArray (S (length (heap w))) 0 0 [3; n] false),
         (World (heap w ++ [m1; m2]) (stdout w)).
  split.
  { unfold process_input_pointpairs.
    rewrite Ha, Hb, bool_decide_eq_true_2 by reflexivity. cbn [negb].
    rewrite Hda, (max_shape_two a Hda), (min_shape_two a Hda), Ha0, Ha1.
    cbn [Nat.eqb negb].
    destruct (Nat.ltb_spec (Nat.max 2 n) 8) as [Hlt | _]; [lia |].
    replace (Nat.min 2 n) with 2 by lia. replace (Nat.max 2 n) with n by lia.
    cbn [Nat.eqb].
    rewrite (r_ones_pair a b n w Ha0 Ha1 Hb1 Hb0).
    fold m1. rewrite (read_app (heap w) [m1] b Hbb). reflexivity. }
  cbn [heap stdout].
  replace (heap w ++ [m1; m2]) with ((heap w ++ [m1]) ++ [m2])
    by (now rewrite <- app_assoc).
  assert (E3 : length (heap w ++ [m1]) = S (length (heap w)))
    by (rewrite length_app; simpl; lia).
  split; [reflexivity |]. split; [reflexivity |]. split; [reflexivity |].
  split.
  { rewrite read_app by (cbn; lia). rewrite <- Hl1. now apply read_alloc. }
  split.
  { rewrite <- E3, <- Hl2. now apply read_alloc. }
  split.
  { apply valid_app. rewrite <- Hl1. now apply valid_alloc. }
  split.
  { rewrite <- E3, <- Hl2. now apply valid_alloc. }
  split.
  { left. cbn. lia. }
  intros c Hc. rewrite <- app_assoc. now apply read_app.
Qed.

(** X4.  For a pair of arrays of at least 8 Euclidean points, 2xN or
    (as Q1.py passes them) Nx2, the validation returns two new 3xN
    arrays: each holds the two rows of coordinates of the caller's array
    (of its transpose, when it is Nx2) and a row of ones, lies in a buffer
    of its own, and the caller's arrays read as before. *)
Theorem euclidean_pair_canonical_arrays a b (w : world K) n (tall : bool) :
  shape a = (if tall then [n; 2] else [2; n]) -> shape b = shape a ->
  8 <= n -> valid (heap w) a -> valid (heap w) b ->
  let a' := if tall then transpose_view a else a in
  let b' := if tall then transpose_view b else b in
  exists x1 x2 w',
    process_input_pointpairs [a; b] w = (Return (x1, x2, n), w') /\
    stdout w' = stdout w /\
    shape x1 = [3; n] /\ shape x2 = [3; n] /\
    read (heap w') x1 = read (heap w) a' ++ ones_row n /\
    read (heap w') x2 = read (heap w) b' ++ ones_row n /\
    valid (heap w') x1 /\ valid (heap w') x2 /\ separate x1 x2 /\
    (forall c, base c < length (heap w) ->
               read (heap w') c = read (heap w) c).
Proof.
  intros Ha Hb Hn Hva Hvb a' b'. subst a' b'. rewrite Ha in Hb.
  destruct tall.
  - destruct (shape_dims a n 2 Ha) as (Hda & _).
    destruct (shape_dims b n 2 Hb) as (Hdb & _).
    rewrite <- (process_input_pointpairs_transposed [a; b]). cbn [map].
    apply euclidean_pair_tables.
    + unfold transpose_view. cbn [shape]. now rewrite Ha.
    + unfold transpose_view. cbn [shape]. now rewrite Hb.
    + exact Hn.
    + now apply valid_transpose_view.
    + now apply valid_transpose_view.
  - now apply euclidean_pair_tables.
Qed.

(** The two halves of a 6xN array. *)
Lemma row_slice_rows (h : list (list (list K))) a lo hi i :
  row h (slice_rows a lo hi) i
  = row h a (Nat.min lo (Nat.min hi (shape0 a)) + i).
Proof.
  unfold row. rewrite (proj2 (slice_rows_dims a lo hi)).
  apply map_ext. intros j. now rewrite get_slice_rows.
Qed.

(** X5.  For a single 6xN array of at least 8 points the validation
    allocates nothing: the canonical arrays are the views [x[0:3]] and
    [x[3:6]] of the caller's buffer, they share no element, and they show
    its first three and its last three rows. *)
Theorem combined_homogeneous_views x (w : world K) n :
  shape x = [6; n] -> 8 <= n ->
  let x1 := slice_rows x 0 3 in
  let x2 := slice_rows x 3 6 in
  process_input_pointpairs [x] w = (Return (x1, x2, n), w) /\
  base x1 = base x /\ base x2 = base x /\
  separate x1 x2 /\
  read (heap w) x1 = take 3 (read (heap w) x) /\
  read (heap w) x2 = drop 3 (read (heap w) x).
Proof.
  intros Hx Hn x1 x2.
  destruct (shape_dims x 6 n Hx) as (Hd & H0 & H1).
  destruct (slice_rows_dims x 0 3) as [E10 E11].
  destruct (slice_rows_dims x 3 6) as [E20 E21].
  rewrite H0 in E10, E20. cbn in E10, E20.
  split.
  { unfold process_input_pointpairs.
    rewrite Hd, (max_shape_two x Hd), (min_shape_two x Hd), H0, H1.
    cbn [Nat.eqb negb].
    destruct (Nat.ltb_spec (Nat.max 6 n) 8) as [Hlt | _]; [lia |].
    replace (Nat.min 6 n) with 6 by lia. replace (Nat.max 6 n) with n by lia.
    reflexivity. }
  split; [unfold x1, slice_rows; destruct (transposed x); reflexivity |].
  split; [unfold x2, slice_rows; destruct (transposed x); reflexivity |].
  split.
  { right. intros i j i' j' Hi Hj Hi' Hj'.
    fold x1 in E10. fold x2 in E20. rewrite E10 in Hi. rewrite E20 in Hi'.
    unfold x1, x2, slice_rows, addr. rewrite H0.
    destruct (transposed x); cbn; intros [= E1 E2]; lia. }
  unfold read. fold x1 in E10. fold x2 in E20. rewrite E10, E20, H0.
  unfold x1, x2. cbn [seq map take drop]. rewrite !row_slice_rows, H0.
  split; reflexivity.
Qed.

(** A combined array is handled as the pair of its halves. *)
Lemma combined_rows_as_pair x (w : world K) k :
  ndim x = 2 -> (k = 2 \/ k = 3) -> shape0 x = 2 * k ->
  process_input_pointpairs [x] w
  = process_input_pointpairs [slice_rows x 0 k; slice_rows x k (2 * k)] w.
Proof.
  intros Hd Hk H0.
  assert (Hs1 : shape (slice_rows x 0 k) = [k; shape1 x])
    by (rewrite slice_rows_shape, H0; f_equal; lia).
  assert (Hs2 : shape (slice_rows x k (2 * k)) = [k; shape1 x])
    by (rewrite slice_rows_shape, H0; f_equal; lia).
  destruct (shape_dims _ _ _ Hs1) as (Hd1 & F0 & F1).
  unfold process_input_pointpairs.
  rewrite Hs1, Hs2, bool_decide_eq_true_2 by reflexivity.
  rewrite Hd, Hd1, (max_shape_two x Hd), (min_shape_two x Hd),
    (max_shape_two _ Hd1), (min_shape_two _ Hd1), F0, F1, H0.
  rewrite Nat.eqb_refl. cbn [negb].
  destruct (Nat.ltb_spec (Nat.max (2 * k) (shape1 x)) 8) as [Hlt | Hge];
    destruct (Nat.ltb_spec (Nat.max k (shape1 x)) 8) as [Hlt' | Hge'];
    try reflexivity; try lia.
  replace (Nat.max (2 * k) (shape1 x)) with (shape1 x) by lia.
  replace (Nat.max k (shape1 x)) with (shape1 x) by lia.
  replace (Nat.min (2 * k) (shape1 x)) with (2 * k) by lia.
  replace (Nat.min k (shape1 x)) with k by lia.
  destruct Hk as [-> | ->]; cbn [Nat.mul Nat.add].
  - reflexivity.
  - destruct (Nat.eqb_spec 3 (shape1 x)) as [E | _]; [lia | reflexivity].
Qed.

(** X6.  A single combined array is handled exactly as the pair of its
    two halves: a 4xN or 6xN array as its upper and lower rows, an Nx4 or
    Nx6 array as its left and right columns ([k] is 2 or 3). *)
Theorem combined_input_as_pair x (w : world K) k :
  ndim x = 2 -> (k = 2 \/ k = 3) ->
  (shape0 x = 2 * k ->
   process_input_pointpairs [x] w
   = process_input_pointpairs [slice_rows x 0 k; slice_rows x k (2 * k)] w) /\
  (shape1 x = 2 * k ->
   process_input_pointpairs [x] w
   = process_input_pointpairs [slice_cols x 0 k; slice_cols x k (2 * k)] w).
Proof.
  intros Hd Hk. split; [now apply combined_rows_as_pair |].
  intros H1.
  rewrite <- (process_input_pointpairs_transposed [x]). cbn [map].
  rewrite (combined_rows_as_pair (transpose_view x) w k).
  - rewrite !slice_rows_transpose_view by exact Hd.
    now rewrite <- (process_input_pointpairs_transposed
                      [slice_cols x 0 k; slice_cols x k (2 * k)]).
  - now rewrite transpose_view_ndim.
  - exact Hk.
  - now rewrite (proj1 (transpose_view_shape x Hd)).
Qed.

End CanonicalTables.

Lemma euclidean_pair_canonical_arrays_witness :
  let w := World [[[1; 1]; [2; 3]; [3; 2]; [4; 5]; [5; 4]; [6; 7]; [7; 6];
                   [8; 9]];
                  [[2; 1]; [3; 3]; [4; 2]; [5; 5]; [6; 4]; [7; 7]; [8; 6];
                   [9; 9]]]%float [] in
  let a := NDArray 0 0 0 [8; 2] false in
  let b := NDArray 1 0 0 [8; 2] false in
  shape a = [8; 2] /\ shape b = shape a /\ 8 <= 8 /\
  valid (heap w) a /\ valid (heap w) b /\
  exists x1 x2 w',
    process_input_pointpairs [a; b] w = (Return (x1, x2, 8), w') /\
    stdout w' = stdout w /\
    shape x1 = [3; 8] /\ shape x2 = [3; 8] /\
    read (heap w') x1 = read (heap w) (transpose_view a) ++ ones_row 8 /\
    read (heap w') x2 = read (heap w) (transpose_view b) ++ ones_row 8 /\
    valid (heap w') x1 /\ valid (heap w') x2 /\ separate x1 x2 /\
    (forall c, base c < length (heap w) ->
               read (heap w') c = read (heap w) c).
Proof.
  intros w a b.
  assert (Ha : shape a = [8; 2]) by reflexivity.
  assert (Hb : shape b = shape a) by reflexivity.
  assert (Hn : 8 <= 8) by apply Nat.le_refl.
  assert (Hva : valid (heap w) a)
    by (eapply valid_table; [reflexivity | repeat constructor ..]).
  assert (Hvb : valid (heap w) b)
    by (eapply valid_table; [reflexivity | repeat constructor ..]).
  do 5 (split; [assumption |]).
  exact (euclidean_pair_canonical_arrays a b w 8 true Ha Hb Hn Hva Hvb).
Defined.

Lemma combined_homogeneous_views_witness :
  let w := World ([] : list (list (list float))) [] in
  let x := NDArray 0 0 0 [6; 8] false in
  shape x = [6; 8] /\ 8 <= 8 /\
  process_input_pointpairs [x] w
  = (Return (slice_rows x 0 3, slice_rows x 3 6, 8), w) /\
  base (slice_rows x 0 3) = base x /\ base (slice_rows x 3 6) = base x /\
  separate (slice_rows x 0 3) (slice_rows x 3 6) /\
  read (heap w) (slice_rows x 0 3) = take 3 (read (heap w) x) /\
  read (heap w) (slice_rows x 3 6) = drop 3 (read (heap w) x).
Proof.
  intros w x.
  assert (Hx : shape x = [6; 8]) by reflexivity.
  assert (Hn : 8 <= 8) by apply Nat.le_refl.
  repeat (split; [assumption |]).
  exact (combined_homogeneous_views x w 8 Hx Hn).
Defined.

Lemma combined_input_as_pair_witness :
  let w := World [[[1; 2; 3; 4; 5; 6; 7; 8]; [1; 3; 2; 5; 4; 7; 6; 9];
                   [2; 3; 4; 5; 6; 7; 8; 9]; [1; 3; 2; 5; 4; 7; 6; 9]]]%float
                 [] in
  let x := NDArray 0 0 0 [4; 8] false in
  ndim x = 2 /\ (2 = 2 \/ 2 = 3) /\ shape0 x = 2 * 2 /\
  process_input_pointpairs [x] w
  = process_input_pointpairs [slice_rows x 0 2; slice_rows x 2 (2 * 2)] w.
Proof.
  intros w x.
  assert (Hd : ndim x = 2) by reflexivity.
  assert (Hk : 2 = 2 \/ 2 = 3) by (left; reflexivity).
  assert (H0 : shape0 x = 2 * 2) by reflexivity.
  repeat (split; [assumption |]).
  exact (proj1 (combined_input_as_pair x w 2 Hd Hk) H0).
Defined.

(** ** The de-homogenisation in place *)

Section InPlace.
Context {K : Type} `{Scalar K}.

Lemma masked_val_select : forall mask (vals : list K) old k,
  masked_val mask (select mask vals) old k = pick mask vals old k.
Proof.
  unfold pick. intros mask.
  induction mask as [| [|] m IH]; intros vals old k.
  - reflexivity.
  - destruct vals as [| v vs]; cbn.
    + destruct k; cbn; [reflexivity |]. now destruct (m !! k) as [[|] |].
    + destruct k; cbn; [reflexivity | apply IH].
  - destruct vals as [| v vs]; cbn.
    + destruct k; cbn; [reflexivity |].
      rewrite <- (IH [] old k) at 1.
      destruct m as [| [|] m']; reflexivity.
    + destruct k; cbn; [reflexivity | apply IH].
Qed.

Lemma select_map2 (f : K -> K -> K) : forall mask xs ys,
  select mask (map2 f xs ys) = map2 f (select mask xs) (select mask ys).
Proof.
  intros mask.
  induction mask as [| b m IH]; intros xs ys; [reflexivity |].
  destruct xs as [| x xs], ys as [| y ys], b; cbn; rewrite ?IH;
    try reflexivity;
    try (now destruct (select m xs)); try (now destruct (select m ys)).
Qed.

Lemma select_map (f : K -> K) : forall mask xs,
  select mask (map f xs) = map f (select mask xs).
Proof.
  intros mask.
  induction mask as [| [|] m IH]; intros [| x xs]; cbn; try reflexivity.
  - now rewrite IH.
  - apply IH.
Qed.

Lemma get_set_masked_select (h : list (list (list K))) a i mask vals i' j' :
  get (set_masked h a i mask (select mask vals)) a i' j'
  = if decide (i' = i)
    then (fun old => pick mask vals old j') <$> get h a i' j'
    else get h a i' j'.
Proof.
  unfold set_masked. rewrite get_set_masked_from.
  destruct (decide (i' = i)) as [-> | Hn].
  - rewrite decide_True by (split; [reflexivity | lia]).
    rewrite Nat.sub_0_r.
    destruct (get h a i j'); cbn; [| reflexivity].
    now rewrite masked_val_select.
  - rewrite decide_False by (intros [? _]; contradiction). reflexivity.
Qed.

Lemma row_set_masked_other (h : list (list (list K))) a i mask vals k :
  k <> i -> row (set_masked h a i mask (select mask vals)) a k = row h a k.
Proof.
  intros Hk. apply row_ext; [reflexivity |]. intros j _.
  rewrite get_set_masked_select. now rewrite decide_False.
Qed.

Local Open Scope scalar_scope.

(** The store after [normalize2dpts]: three masked writes. *)
Lemma normalize2dpts_heap pts (w : world K) :
  shape0 pts = 3 ->
  let h := heap w in
  let finiteind := map finite (row h pts 2) in
  let h1 := set_masked h pts 0 finiteind
              (select finiteind (map2 sdiv (row h pts 0) (row h pts 2))) in
  let h2 := set_masked h1 pts 1 finiteind
              (select finiteind (map2 sdiv (row h pts 1) (row h pts 2))) in
  let h3 := set_masked h2 pts 2 finiteind
              (select finiteind (map (fun _ => sone) (row h pts 2))) in
  heap (snd (normalize2dpts pts w)) = h3.
Proof.
  intros Hs h finiteind h1 h2 h3.
  unfold normalize2dpts. rewrite Hs. cbn [Nat.eqb negb]. cbv zeta.
  cbn [snd heap].
  change (fun x : K => sgtb (sabs x) seps) with (finite (K := K)).
  fold h. fold finiteind.
  rewrite <- select_map2. fold h1.
  assert (E11 : row h1 pts 1 = row h pts 1)
    by (unfold h1; now rewrite row_set_masked_other).
  assert (E12 : row h1 pts 2 = row h pts 2)
    by (unfold h1; now rewrite row_set_masked_other).
  rewrite E11, E12, <- select_map2. fold h2.
  assert (E22 : row h2 pts 2 = row h pts 2)
    by (unfold h2; rewrite row_set_masked_other by lia; exact E12).
  rewrite E22, <- select_map. reflexivity.
Qed.

(** X7.  [normalize2dpts] de-homogenises a [float64] array in place,
    point by point: a point [(x, y, z)] whose [z] is above machine epsilon in
    absolute value is overwritten with [(x / z, y / z, 1)], and any other
    point, a point at infinity, is left as it is. *)
Theorem normalize2dpts_in_place pts (w : world K) j x y z :
  shape0 pts = 3 -> j < shape1 pts ->
  get (heap w) pts 0 j = Some x ->
  get (heap w) pts 1 j = Some y ->
  get (heap w) pts 2 j = Some z ->
  let h' := heap (snd (normalize2dpts pts w)) in
  (get h' pts 0 j, get h' pts 1 j, get h' pts 2 j)
  = if finite z
    then (Some (x / z), Some (y / z), Some sone)
    else (Some x, Some y, Some z).
Proof.
  intros Hs Hj Hx Hy Hz h'. unfold h'.
  rewrite (normalize2dpts_heap pts w Hs). cbv zeta.
  rewrite !get_set_masked_select.
  repeat (rewrite decide_True by reflexivity || rewrite decide_False by lia).
  rewrite Hx, Hy, Hz. cbn [fmap option_fmap option_map].
  assert (R0 : row (heap w) pts 0 !! j = Some x)
    by (rewrite row_lookup, Hx by exact Hj; reflexivity).
  assert (R1 : row (heap w) pts 1 !! j = Some y)
    by (rewrite row_lookup, Hy by exact Hj; reflexivity).
  assert (R2 : row (heap w) pts 2 !! j = Some z)
    by (rewrite row_lookup, Hz by exact Hj; reflexivity).
  unfold pick. rewrite list_lookup_fmap, R2. cbn [fmap option_fmap option_map].
  rewrite (map2_lookup _ _ _ _ _ _ R0 R2), (map2_lookup _ _ _ _ _ _ R1 R2).
  rewrite list_lookup_fmap, R2. cbn.
  destruct (finite z); reflexivity.
Qed.

End InPlace.

Lemma normalize2dpts_in_place_witness :
  let w := World [[[2; 6]; [4; 8]; [2; 0]]]%float [] in
  let pts := NDArray 0 0 0 [3; 2] false in
  let h' := heap (snd (normalize2dpts pts w)) in
  shape0 pts = 3 /\ 0 < shape1 pts /\
  get (heap w) pts 0 0 = Some 2%float /\
  get (heap w) pts 1 0 = Some 4%float /\
  get (heap w) pts 2 0 = Some 2%float /\
  (get h' pts 0 0, get h' pts 1 0, get h' pts 2 0)
  = if finite 2%float
    then (Some (2 / 2)%float, Some (4 / 2)%float, Some 1%float)
    else (Some 2%float, Some 4%float, Some 2%float).
Proof.
  intros w pts h'.
  assert (Hs : shape0 pts = 3) by reflexivity.
  assert (Hj : 0 < shape1 pts) by (apply Nat.lt_0_succ).
  assert (Hx : get (heap w) pts 0 0 = Some 2%float) by reflexivity.
  assert (Hy : get (heap w) pts 1 0 = Some 4%float) by reflexivity.
  assert (Hz : get (heap w) pts 2 0 = Some 2%float) by reflexivity.
  repeat (split; [assumption |]).
  exact (normalize2dpts_in_place pts w 0 2%float 4%float 2%float
           Hs Hj Hx Hy Hz).
Defined.

(** ** The outcomes of the entry point *)

Section Outcomes.
Context {K : Type} `{Scalar K}.
Variable svd : list (list K) -> outcome (list (list K) * list K * list (list K)).
Hypothesis svd_raises : forall M x, svd M <> Raise (ShapeError x).

Lemma eight_point_algorithm_no_shape_error x1 x2 normalize (w : world K) x w' :
  shape0 x1 = 3 -> shape0 x2 = 3 ->
  eight_point_algorithm svd x1 x2 normalize w <> (Raise (ShapeError x), w').
Proof.
  intros H1 H2 Hrun. unfold eight_point_algorithm in Hrun.
  unfold bind at 1 in Hrun.
  assert (Hpre : forall r w1,
    (if normalize
     then bind (normalize2dpts x1) (fun '(x1n, T1) =>
            bind (normalize2dpts x2) (fun '(x2n, T2) =>
              ret (x1n, x2n, Some (T1, T2))))
     else fun w => (Return (read (heap w) x1, read (heap w) x2, None), w)) w
    = (r, w1) -> forall y, r <> Raise (ShapeError y)).
  { intros r w1 Hr y ->. destruct normalize; [| discriminate].
    unfold bind in Hr.
    destruct (normalize2dpts_returns x1 w H1) as (r1 & h1 & E1).
    rewrite E1 in Hr. destruct r1 as [x1n T1].
    destruct (normalize2dpts_returns x2 (World h1 (stdout w)) H2)
      as (r2 & h2 & E2).
    rewrite E2 in Hr. destruct r2 as [x2n T2]. discriminate. }
  match type of Hrun with
  | match ?c with _ => _ end = _ => destruct c as [[[[x1v x2v] Ts] | e] w1] eqn:E
  end.
  2:{ injection Hrun as -> _. exact (Hpre _ _ eq_refl x eq_refl). }
  clear Hpre. unfold bind, lift, ret in Hrun.
  repeat (match type of Hrun with
          | context [svd ?M] =>
              let E := fresh "E" in
              destruct (svd M) as [[[? ?] ?] | ?] eqn:E;
              [| injection Hrun as -> _; exact (svd_raises _ _ E)]
          | context [match ?o with Some _ => _ | None => _ end] => destruct o
          | context [match ?o with Return _ => _ | Raise _ => _ end] =>
              destruct o eqn:?
          | context [let '(_, _) := ?p in _] => destruct p
          end; cbn in Hrun; try discriminate).
  all: try (unfold reshape33 in *;
            repeat match goal with
                   | HH : match ?l with [] => _ | _ :: _ => _ end = _ |- _ =>
                       destruct l; try discriminate
                   end).
  all: congruence.
Qed.

(** X8.  For an [np.linalg.svd] that raises no [ShapeError], the entry
    point returns [None] exactly when the validation raises a
    [ShapeError]; the store is then as before the call and the output has
    one more line, the message.  The [ShapeError] of [normalize2dpts] is
    never met through the entry point. *)
Theorem fundamental_matrix_none_iff args normalize (w w' : world K) :
  fundamental_matrix svd args normalize w = (Return None, w') <->
  exists x,
    process_input_pointpairs args w = (Raise (ShapeError x), w) /\
    w' = World (heap w) (stdout w ++ [shape_error_line x]).
Proof.
  split.
  - intros Hf.
    destruct (process_input_pointpairs_cases args w)
      as [[x Hx] | (x1 & x2 & n & w1 & Hp & Hs1 & Hs2 & Hn)].
    + exists x. split; [exact Hx |].
      rewrite (fundamental_matrix_catches svd args normalize w x Hx) in Hf.
      now injection Hf.
    + exfalso. unfold fundamental_matrix, bind in Hf. rewrite Hp in Hf.
      destruct (eight_point_algorithm svd x1 x2 normalize w1)
        as [[F | e] w2] eqn:E; [discriminate |].
      destruct e; try discriminate.
      exact (eight_point_algorithm_no_shape_error x1 x2 normalize w1 x w2
               (shape0_three _ _ Hs1) (shape0_three _ _ Hs2) E).
  - intros (x & Hx & ->).
    exact (fundamental_matrix_catches svd args normalize w x Hx).
Qed.

(** X9.  An exception of the estimation is not turned into [None]: when
    the validation returns and [eight_point_algorithm] raises, the entry
    point raises the same exception, and nothing is printed by its
    handler. *)
Theorem fundamental_matrix_propagates args normalize (w : world K)
    x1 x2 n w1 e w2 :
  process_input_pointpairs args w = (Return (x1, x2, n), w1) ->
  eight_point_algorithm svd x1 x2 normalize w1 = (Raise e, w2) ->
  fundamental_matrix svd args normalize w = (Raise e, w2).
Proof.
  intros Hp He.
  destruct (process_returns_shapes args w x1 x2 n w1 Hp) as (Hs1 & Hs2 & _).
  unfold fundamental_matrix, bind. rewrite Hp, He.
  destruct e; try reflexivity.
  exfalso.
  exact (eight_point_algorithm_no_shape_error x1 x2 normalize w1 x w2
           (shape0_three _ _ Hs1) (shape0_three _ _ Hs2) He).
Qed.

End Outcomes.

Lemma fundamental_matrix_none_iff_witness :
  let svd0 : list (list float)
             -> outcome (list (list float) * list float * list (list float)) :=
    fun _ => Raise LinAlgError in
  let w := World ([] : list (list (list float))) [] in
  let w' := World ([] : list (list (list float)))
                  [shape_error_line "Wrong number of arguments supplied"] in
  (forall M x, svd0 M <> Raise (ShapeError x)) /\
  (fundamental_matrix svd0 [] true w = (Return None, w') <->
   exists x,
     process_input_pointpairs [] w = (Raise (ShapeError x), w) /\
     w' = World (heap w) (stdout w ++ [shape_error_line x])).
Proof.
  intros svd0 w w'.
  assert (Hsvd : forall M x, svd0 M <> Raise (ShapeError x))
    by (intros M x; discriminate).
  split; [exact Hsvd |].
  exact (fundamental_matrix_none_iff svd0 Hsvd [] true w w').
Defined.

Lemma fundamental_matrix_propagates_witness :
  let svd0 : list (list float)
             -> outcome (list (list float) * list float * list (list float)) :=
    fun _ => Raise LinAlgError in
  let w := World ([] : list (list (list float))) [] in
  let a := NDArray 0 0 0 [3; 8] false in
  (forall M x, svd0 M <> Raise (ShapeError x)) /\
  process_input_pointpairs [a; a] w = (Return (a, a, 8), w) /\
  eight_point_algorithm svd0 a a false w = (Raise LinAlgError, w) /\
  fundamental_matrix svd0 [a; a] false w = (Raise LinAlgError, w).
Proof.
  intros svd0 w a.
  assert (Hsvd : forall M x, svd0 M <> Raise (ShapeError x))
    by (intros M x; discriminate).
  assert (Hp : process_input_pointpairs [a; a] w = (Return (a, a, 8), w))
    by reflexivity.
  assert (He : eight_point_algorithm svd0 a a false w = (Raise LinAlgError, w))
    by reflexivity.
  repeat (split; [assumption |]).
  exact (fundamental_matrix_propagates svd0 Hsvd [a; a] false w a a 8 w
           LinAlgError w Hp He).
Defined.


(** ** The entry point in exact arithmetic *)

Section EntryPoint.
Local Open Scope R_scope.
Variable svd : list (list R) -> outcome (list (list R) * list R * list (list R)).
Hypothesis svd_spec : forall M, svd_ok M (svd M).

Lemma solve_returns (A : list (list R)) :
  Forall (fun row => length row = 9%nat) A ->
  exists U0 S0 Vh v F0 U d1 d2 d3 V,
    svd A = Return (U0, S0, Vh) /\
    col 8 (transpose Vh) = Some v /\ reshape33 v = Return F0 /\
    svd F0 = Return (U, [d1; d2; d3], V).
Proof.
  intros HA.
  destruct (proj1 (svd_spec A) HA)
    as (U0 & S0 & Vh & v & HsvdA & HlVh & HrVh & Hv & _).
  assert (Hlv : length v = 9%nat)
    by (eapply (proj1 (Forall_lookup _ _) HrVh); eauto).
  assert (Hcol : col 8 (transpose Vh) = Some v).
  { apply col_transpose with (n := 9%nat); auto.
    destruct Vh as [| r0 Vh]; [discriminate |]. now inversion HrVh. }
  destruct (proj2 (svd_spec (table9 v)) (is3x3_table9 v Hlv))
    as (U & d1 & d2 & d3 & V & Hsvd & _).
  exists U0, S0, Vh, v, (table9 v), U, d1, d2, d3, V.
  repeat (split; [first [assumption | now apply reshape33_table9] |]).
  exact Hsvd.
Qed.

Lemma eight_point_algorithm_returns x1 x2 normalize (w : world R) :
  (normalize = true -> shape0 x1 = 3%nat /\ shape0 x2 = 3%nat) ->
  exists F w',
    eight_point_algorithm svd x1 x2 normalize w = (Return F, w') /\
    is3x3 F /\ det3 F = 0.
Proof.
  intros Hs.
  assert (Hrun : exists F w',
            eight_point_algorithm svd x1 x2 normalize w = (Return F, w')).
  { destruct normalize.
    - destruct (Hs eq_refl) as [H1 H2].
      destruct (normalize2dpts_returns x1 w H1) as ([x1n T1] & h1 & E1).
      destruct (normalize2dpts_returns x2 (World h1 (stdout w)) H2)
        as ([x2n T2] & h2 & E2).
      destruct (solve_returns (constraint_matrix x1n x2n)
                  (constraint_matrix_rows _ _))
        as (U0 & S0 & Vh & v & F0 & U & d1 & d2 & d3 & V & Ha & Hc & Hr & Hf).
      do 2 eexists.
      exact (eight_point_algorithm_run_true svd x1 x2 w _ _ _ _ _ _
               _ _ _ _ _ _ _ _ _ _ E1 E2 Ha Hc Hr Hf).
    - destruct (solve_returns
                  (constraint_matrix (read (heap w) x1) (read (heap w) x2))
                  (constraint_matrix_rows _ _))
        as (U0 & S0 & Vh & v & F0 & U & d1 & d2 & d3 & V & Ha & Hc & Hr & Hf).
      do 2 eexists.
      exact (eight_point_algorithm_run_false svd x1 x2 w
               _ _ _ _ _ _ _ _ _ _ Ha Hc Hr Hf). }
  destruct Hrun as (F & w' & Hrun). exists F, w'.
  split; [exact Hrun |].
  split; [| exact (returned_matrix_singular svd x1 x2 normalize w F w'
                     (svd_spec_shapes svd svd_spec) Hrun)].
  apply eight_point_algorithm_inv in Hrun
    as (F0 & U & d1 & d2 & D & V & HF0 & Hsvd & Hcase).
  destruct (svd_spec_shapes svd svd_spec F0 U _ V HF0 Hsvd) as [HU HV].
  assert (HG : is3x3 (dot (dot U (diag3 d1 d2 szero)) V))
    by (apply is3x3_dot; [apply is3x3_dot; [exact HU | apply is3x3_diag3]
                         | exact HV]).
  destruct Hcase as [(_ & _ & -> & _)
                    | (_ & s1 & a1 & b1 & s2 & a2 & b2 & ->)].
  - exact HG.
  - auto using is3x3_dot, is3x3_transpose, is3x3_similarity.
Qed.

(** X10.  In exact arithmetic and for an [np.linalg.svd] with the two
    properties above, on two arrays of at least 8 Euclidean points, 2xN
    or Nx2, whose points do not all coincide in either image when
    normalisation is asked for (so that no quotient has a zero divisor),
    the entry point returns a matrix: 3x3, of determinant 0, with nothing
    printed. *)
Theorem fundamental_matrix_returns_matrix (a b : ndarray) (w : world R) n
    (tall : bool) normalize :
  shape a = (if tall then [n; 2] else [2; n])%nat -> shape b = shape a ->
  (8 <= n)%nat -> valid (heap w) a -> valid (heap w) b ->
  let a' := if tall then transpose_view a else a in
  let b' := if tall then transpose_view b else b in
  (normalize = true ->
   mean_distance (row (heap w) a' 0) (row (heap w) a' 1) <> 0 /\
   mean_distance (row (heap w) b' 0) (row (heap w) b' 1) <> 0) ->
  exists F w',
    fundamental_matrix svd [a; b] normalize w = (Return (Some F), w') /\
    is3x3 F /\ det3 F = 0 /\ stdout w' = stdout w.
Proof.
  intros Ha Hb Hn Hva Hvb a' b' _. rewrite Ha in Hb.
  assert (Hp : exists x1 x2 w1,
            process_input_pointpairs [a; b] w = (Return (x1, x2, n), w1) /\
            shape x1 = [3; n]%nat /\ shape x2 = [3; n]%nat).
  { destruct tall.
    - destruct (shape_dims a n 2 Ha) as (Hda & _).
      destruct (shape_dims b n 2 Hb) as (Hdb & _).
      rewrite <- (process_input_pointpairs_transposed [a; b]). cbn [map].
      destruct (euclidean_pair_tables (transpose_view a) (transpose_view b) w n)
        as (x1 & x2 & w1 & Hp & _ & Hs1 & Hs2 & _); eauto 6;
        try (unfold transpose_view; cbn [shape]; now rewrite ?Ha, ?Hb);
        now apply valid_transpose_view.
    - destruct (euclidean_pair_tables a b w n Ha Hb Hn Hva Hvb)
        as (x1 & x2 & w1 & Hp & _ & Hs1 & Hs2 & _). eauto 6. }
  destruct Hp as (x1 & x2 & w1 & Hp & Hs1 & Hs2).
  destruct (eight_point_algorithm_returns x1 x2 normalize w1)
    as (F & w2 & Hrun & HF & Hdet).
  { intros _. split; eapply shape0_three; eassumption. }
  exists F, w2. split.
  - unfold fundamental_matrix, bind. now rewrite Hp, Hrun.
  - split; [exact HF |]. split; [exact Hdet |].
    apply process_input_pointpairs_heap in Hp as (Ho1 & _).
    apply eight_point_algorithm_frame in Hrun as (Ho2 & _).
    congruence.
Qed.

End EntryPoint.

Lemma fundamental_matrix_returns_matrix_witness :
  (forall M, svd_ok M (svd_choice M)) /\
  shape tall1 = [8; 2] /\ shape tall2 = shape tall1 /\ 8 <= 8 /\
  valid (heap world3) tall1 /\ valid (heap world3) tall2 /\
  (true = true ->
   mean_distance (row (heap world3) (transpose_view tall1) 0)
                 (row (heap world3) (transpose_view tall1) 1) <> 0%R /\
   mean_distance (row (heap world3) (transpose_view tall2) 0)
                 (row (heap world3) (transpose_view tall2) 1) <> 0%R) /\
  exists F w',
    fundamental_matrix svd_choice [tall1; tall2] true world3
    = (Return (Some F), w') /\
    is3x3 F /\ det3 F = 0%R /\ stdout w' = stdout world3.
Proof.
  assert (Hsvd : forall M, svd_ok M (svd_choice M)) by exact svd_choice_ok.
  assert (Ha : shape tall1 = [8; 2]) by reflexivity.
  assert (Hb : shape tall2 = shape tall1) by reflexivity.
  assert (Hn : 8 <= 8) by apply Nat.le_refl.
  assert (Hva : valid (heap world3) tall1)
    by (eapply valid_table; [reflexivity | repeat constructor ..]).
  assert (Hvb : valid (heap world3) tall2)
    by (eapply valid_table; [reflexivity | repeat constructor ..]).
  assert (Hmd : true = true ->
     mean_distance (row (heap world3) (transpose_view tall1) 0)
                   (row (heap world3) (transpose_view tall1) 1) <> 0%R /\
     mean_distance (row (heap world3) (transpose_view tall2) 0)
                   (row (heap world3) (transpose_view tall2) 1) <> 0%R)
    by (intros _; exact world1_spread).
  do 7 (split; [assumption |]).
  exact (fundamental_matrix_returns_matrix svd_choice Hsvd tall1 tall2 world3 8
           true true Ha Hb Hn Hva Hvb Hmd).
Defined.

(** ** Exact correspondences *)

Section Recovery.
Local Open Scope R_scope.
Variable svd : list (list R) -> outcome (list (list R) * list R * list (list R)).
Hypothesis svd_spec : forall M, svd_ok M (svd M).

Lemma euclidean_estimate (x1 x2 : ndarray) (w : world R) Fs normalize :
  shape0 x1 = 3%nat -> shape0 x2 = 3%nat -> shape1 x1 = shape1 x2 ->
  valid (heap w) x1 -> valid (heap w) x2 -> separate x1 x2 ->
  Forall (fun x => x = 1) (row (heap w) x1 2) ->
  Forall (fun x => x = 1) (row (heap w) x2 2) ->
  let m1 := read (heap w) x1 in
  let m2 := read (heap w) x2 in
  (normalize = true ->
   mean_distance (nth 0 m1 []) (nth 1 m1 []) <> 0 /\
   mean_distance (nth 0 m2 []) (nth 1 m2 []) <> 0) ->
  is3x3 Fs -> det3 Fs = 0 -> concat Fs <> repeat 0 9 ->
  kernel_line (constraint_matrix m1 m2) (concat Fs) ->
  exists k w', k <> 0 /\
    eight_point_algorithm svd x1 x2 normalize w
    = (Return (scale_table k Fs), w').
Proof.
  intros Hs1 Hs2 Hn Hv1 Hv2 Hsep Ho1 Ho2 m1 m2 Hmd HFs Hdet Hnz Hker.
  destruct normalize.
  - destruct (Hmd eq_refl) as [Hmd1 Hmd2].
    assert (Hd1 : dehomog m1 = m1).
    { unfold m1. rewrite (read_three _ _ Hs1).
      apply dehomog_ones; [exact Ho1 | now rewrite !row_length ..]. }
    assert (Hd2 : dehomog m2 = m2).
    { unfold m2. rewrite (read_three _ _ Hs2).
      apply dehomog_ones; [exact Ho2 | now rewrite !row_length ..]. }
    apply (normalised_estimate svd svd_spec x1 x2 w Fs Hs1 Hs2 Hn Hv1 Hv2 Hsep
             (ones_finite _ Ho1) (ones_finite _ Ho2));
      try assumption; fold m1 m2; rewrite ?Hd1, ?Hd2; assumption.
  - destruct (unnormalised_estimate svd svd_spec x1 x2 w Fs HFs Hdet Hnz Hker)
      as (k & Hk & Hrun).
    exists k, w. auto.
Qed.

Lemma read_two (h : list (list (list R))) a :
  shape0 a = 2%nat -> read h a = [row h a 0; row h a 1].
Proof. intros Hs. unfold read. now rewrite Hs. Qed.

Lemma repeat_ones n : Forall (fun x : R => x = 1) (repeat 1 n).
Proof. induction n; constructor; auto. Qed.

Lemma fundamental_matrix_recovers_fat (a b : ndarray) (w : world R) n
    normalize Fs :
  shape a = [2; n]%nat -> shape b = [2; n]%nat -> (8 <= n)%nat ->
  valid (heap w) a -> valid (heap w) b ->
  let xl := row (heap w) a 0 in
  let yl := row (heap w) a 1 in
  let xr := row (heap w) b 0 in
  let yr := row (heap w) b 1 in
  (normalize = true ->
   mean_distance xl yl <> 0 /\ mean_distance xr yr <> 0) ->
  is3x3 Fs -> det3 Fs = 0 -> concat Fs <> repeat 0 9 ->
  kernel_line (constraint_matrix [xl; yl; repeat 1 n] [xr; yr; repeat 1 n])
              (concat Fs) ->
  exists k w', k <> 0 /\
    fundamental_matrix svd [a; b] normalize w
    = (Return (Some (scale_table k Fs)), w') /\
    stdout w' = stdout w.
Proof.
  intros Ha Hb Hn Hva Hvb xl yl xr yr Hmd HFs Hdet Hnz Hker.
  destruct (shape_dims a 2 n Ha) as (_ & Ha0 & _).
  destruct (shape_dims b 2 n Hb) as (_ & Hb0 & _).
  destruct (euclidean_pair_tables a b w n Ha Hb Hn Hva Hvb)
    as (x1 & x2 & w1 & Hp & Ho & Hs1 & Hs2 & Hr1 & Hr2 & Hv1 & Hv2 & Hsep & _).
  rewrite (read_two _ a Ha0) in Hr1. rewrite (read_two _ b Hb0) in Hr2.
  cbn [app ones_row] in Hr1, Hr2. fold xl yl in Hr1. fold xr yr in Hr2.
  pose proof (shape0_three _ _ Hs1) as H10.
  pose proof (shape0_three _ _ Hs2) as H20.
  assert (H11 : shape1 x1 = shape1 x2) by (unfold shape1; now rewrite Hs1, Hs2).
  assert (Ho1 : Forall (fun x => x = 1) (row (heap w1) x1 2)).
  { rewrite (read_three _ _ H10) in Hr1. injection Hr1 as _ _ ->.
    apply repeat_ones. }
  assert (Ho2 : Forall (fun x => x = 1) (row (heap w1) x2 2)).
  { rewrite (read_three _ _ H20) in Hr2. injection Hr2 as _ _ ->.
    apply repeat_ones. }
  destruct (euclidean_estimate x1 x2 w1 Fs normalize H10 H20 H11 Hv1 Hv2 Hsep
              Ho1 Ho2) as (k & w2 & Hk & Hrun); try assumption.
  { rewrite Hr1, Hr2. exact Hmd. }
  { rewrite Hr1, Hr2. exact Hker. }
  exists k, w2. split; [exact Hk |]. split.
  - unfold fundamental_matrix, bind. now rewrite Hp, Hrun.
  - apply eight_point_algorithm_frame in Hrun as (Ho2' & _). congruence.
Qed.

(** X11.  The entry point on exact data, called as Q1.py calls it: two
    Nx2 arrays of at least 8 points, one point a row.  In exact
    arithmetic, when the constraint matrix of the points has for null
    space the line of a singular matrix [Fs] (and, with normalisation,
    neither point set is a single point), the entry point returns a
    nonzero multiple of [Fs], with and without normalisation, and prints
    nothing. *)
Theorem fundamental_matrix_recovers (a b : ndarray) (w : world R) n
    normalize Fs :
  shape a = [n; 2]%nat -> shape b = [n; 2]%nat -> (8 <= n)%nat ->
  valid (heap w) a -> valid (heap w) b ->
  let xl := row (heap w) (transpose_view a) 0 in
  let yl := row (heap w) (transpose_view a) 1 in
  let xr := row (heap w) (transpose_view b) 0 in
  let yr := row (heap w) (transpose_view b) 1 in
  (normalize = true ->
   mean_distance xl yl <> 0 /\ mean_distance xr yr <> 0) ->
  is3x3 Fs -> det3 Fs = 0 -> concat Fs <> repeat 0 9 ->
  kernel_line (constraint_matrix [xl; yl; repeat 1 n] [xr; yr; repeat 1 n])
              (concat Fs) ->
  exists k w', k <> 0 /\
    fundamental_matrix svd [a; b] normalize w
    = (Return (Some (scale_table k Fs)), w') /\
    stdout w' = stdout w.
Proof.
  intros Ha Hb Hn Hva Hvb xl yl xr yr Hmd HFs Hdet Hnz Hker.
  destruct (shape_dims a n 2 Ha) as (Hda & _).
  destruct (shape_dims b n 2 Hb) as (Hdb & _).
  rewrite <- (fundamental_matrix_transpose_view svd [a; b]). cbn [map].
  apply (fundamental_matrix_recovers_fat (transpose_view a) (transpose_view b)
           w n normalize Fs); try assumption.
  - unfold transpose_view. cbn [shape]. now rewrite Ha.
  - unfold transpose_view. cbn [shape]. now rewrite Hb.
  - now apply valid_transpose_view.
  - now apply valid_transpose_view.
Qed.

(** X12.  [eight_point_algorithm] in exact arithmetic, on two [float64]
    arrays that share no element and hold exact homogeneous data whose
    points are all finite.  Without normalisation it builds the constraint matrix
    from the first two coordinates as held and returns a multiple of the
    matrix [Fraw] those satisfy; with normalisation it de-homogenises
    first and returns a multiple of the matrix [Fd] of the de-homogenised
    points. *)
Theorem eight_point_algorithm_recovers (x1 x2 : ndarray) (w : world R)
    Fraw Fd :
  shape0 x1 = 3%nat -> shape0 x2 = 3%nat -> shape1 x1 = shape1 x2 ->
  valid (heap w) x1 -> valid (heap w) x2 -> separate x1 x2 ->
  Forall (fun x => finite x = true) (row (heap w) x1 2) ->
  Forall (fun x => finite x = true) (row (heap w) x2 2) ->
  let m1 := read (heap w) x1 in
  let m2 := read (heap w) x2 in
  mean_distance (nth 0 (dehomog m1) []) (nth 1 (dehomog m1) []) <> 0 ->
  mean_distance (nth 0 (dehomog m2) []) (nth 1 (dehomog m2) []) <> 0 ->
  is3x3 Fraw -> det3 Fraw = 0 -> concat Fraw <> repeat 0 9 ->
  kernel_line (constraint_matrix m1 m2) (concat Fraw) ->
  is3x3 Fd -> det3 Fd = 0 -> concat Fd <> repeat 0 9 ->
  kernel_line (constraint_matrix (dehomog m1) (dehomog m2)) (concat Fd) ->
  exists ku kn wn, ku <> 0 /\ kn <> 0 /\
    eight_point_algorithm svd x1 x2 false w
    = (Return (scale_table ku Fraw), w) /\
    eight_point_algorithm svd x1 x2 true w
    = (Return (scale_table kn Fd), wn).
Proof.
  intros Hs1 Hs2 Hn Hv1 Hv2 Hsep Hf1 Hf2 m1 m2 Hmd1 Hmd2
    HFr Hdetr Hnzr Hkr HFd Hdetd Hnzd Hkd.
  destruct (unnormalised_estimate svd svd_spec x1 x2 w Fraw HFr Hdetr Hnzr Hkr)
    as (ku & Hku & Hrunu).
  destruct (normalised_estimate svd svd_spec x1 x2 w Fd Hs1 Hs2 Hn Hv1 Hv2 Hsep
              Hf1 Hf2 Hmd1 Hmd2 HFd Hdetd Hnzd Hkd)
    as (kn & wn & Hkn & Hrunn).
  exists ku, kn, wn. auto.
Qed.

End Recovery.

Lemma fundamental_matrix_recovers_witness :
  let xl := row (heap world3) (transpose_view tall1) 0 in
  let yl := row (heap world3) (transpose_view tall1) 1 in
  let xr := row (heap world3) (transpose_view tall2) 0 in
  let yr := row (heap world3) (transpose_view tall2) 1 in
  (forall M, svd_ok M (svd_choice M)) /\
  shape tall1 = [8; 2] /\ shape tall2 = [8; 2] /\ 8 <= 8 /\
  valid (heap world3) tall1 /\ valid (heap world3) tall2 /\
  (true = true ->
   mean_distance xl yl <> 0%R /\ mean_distance xr yr <> 0%R) /\
  is3x3 Fs /\ det3 Fs = 0%R /\ concat Fs <> repeat 0%R 9 /\
  kernel_line (constraint_matrix [xl; yl; repeat 1%R 8] [xr; yr; repeat 1%R 8])
              (concat Fs) /\
  exists k w', k <> 0%R /\
    fundamental_matrix svd_choice [tall1; tall2] true world3
    = (Return (Some (scale_table k Fs)), w') /\
    stdout w' = stdout world3.
Proof.
  intros xl yl xr yr.
  assert (Hsvd : forall M, svd_ok M (svd_choice M)) by exact svd_choice_ok.
  assert (Ha : shape tall1 = [8; 2]) by reflexivity.
  assert (Hb : shape tall2 = [8; 2]) by reflexivity.
  assert (Hn : 8 <= 8) by apply Nat.le_refl.
  assert (Hva : valid (heap world3) tall1)
    by (eapply valid_table; [reflexivity | repeat constructor ..]).
  assert (Hvb : valid (heap world3) tall2)
    by (eapply valid_table; [reflexivity | repeat constructor ..]).
  assert (Hmd : true = true ->
                mean_distance xl yl <> 0%R /\ mean_distance xr yr <> 0%R)
    by (intros _; exact world1_spread).
  destruct Fs_facts as (HFs & Hdet & Hnz).
  assert (Hker : kernel_line
                   (constraint_matrix [xl; yl; repeat 1%R 8]
                                      [xr; yr; repeat 1%R 8])
                   (concat Fs))
    by exact kernel_world1.
  repeat (split; [assumption |]).
  exact (fundamental_matrix_recovers svd_choice Hsvd tall1 tall2 world3 8
           true Fs Ha Hb Hn Hva Hvb Hmd HFs Hdet Hnz Hker).
Defined.

Lemma eight_point_algorithm_recovers_witness :
  let m1 := read (heap world2) left1 in
  let m2 := read (heap world2) right1 in
  (forall M, svd_ok M (svd_choice M)) /\
  shape0 left1 = 3 /\ shape0 right1 = 3 /\ shape1 left1 = shape1 right1 /\
  valid (heap world2) left1 /\ valid (heap world2) right1 /\
  separate left1 right1 /\
  Forall (fun x => finite x = true) (row (heap world2) left1 2) /\
  Forall (fun x => finite x = true) (row (heap world2) right1 2) /\
  mean_distance (nth 0 (dehomog m1) []) (nth 1 (dehomog m1) []) <> 0%R /\
  mean_distance (nth 0 (dehomog m2) []) (nth 1 (dehomog m2) []) <> 0%R /\
  is3x3 Fraw /\ det3 Fraw = 0%R /\ concat Fraw <> repeat 0%R 9 /\
  kernel_line (constraint_matrix m1 m2) (concat Fraw) /\
  is3x3 Fs /\ det3 Fs = 0%R /\ concat Fs <> repeat 0%R 9 /\
  kernel_line (constraint_matrix (dehomog m1) (dehomog m2)) (concat Fs) /\
  exists ku kn wn, ku <> 0%R /\ kn <> 0%R /\
    eight_point_algorithm svd_choice left1 right1 false world2
    = (Return (scale_table ku Fraw), world2) /\
    eight_point_algorithm svd_choice left1 right1 true world2
    = (Return (scale_table kn Fs), wn).
Proof.
  intros m1 m2.
  assert (Hsvd : forall M, svd_ok M (svd_choice M)) by exact svd_choice_ok.
  assert (Hs1 : shape0 left1 = 3) by reflexivity.
  assert (Hs2 : shape0 right1 = 3) by reflexivity.
  assert (Hn : shape1 left1 = shape1 right1) by reflexivity.
  destruct world2_valid as [Hv1 Hv2].
  assert (Hsep : separate left1 right1) by (left; discriminate).
  destruct world2_finite as [Hf1 Hf2].
  destruct world2_spread as [Hmd1 Hmd2].
  destruct Fraw_facts as (HFr & Hdetr & Hnzr).
  pose proof kernel_raw as Hkr.
  destruct Fs_facts as (HFs & Hdet & Hnz).
  pose proof kernel_dehomog as Hkd.
  repeat (split; [assumption |]).
  exact (eight_point_algorithm_recovers svd_choice Hsvd left1 right1 world2
           Fraw Fs Hs1 Hs2 Hn Hv1 Hv2 Hsep Hf1 Hf2 Hmd1 Hmd2
           HFr Hdetr Hnzr Hkr HFs Hdet Hnz Hkd).
Defined.

(** ** Q1.py: the lines and the distances of the main block *)

Section MetricsGeneric.
Context {K : Type} `{Scalar K}.

Lemma epipolar_lines_3x3 (a b c d e f g h i : K) pts :
  let F := [[a; b; c]; [d; e; f]; [g; h; i]] in
  epipolar_lines F pts
  = Return (map (fun q => (vdot [a; d; g] (homog (snd q)),
                           vdot [b; e; h] (homog (snd q)),
                           vdot [c; f; i] (homog (snd q)))) pts,
            map (fun q => (vdot [a; b; c] (homog (fst q)),
                           vdot [d; e; f] (homog (fst q)),
                           vdot [g; h; i] (homog (fst q)))) pts).
Proof.
  intros F. induction pts as [| [pl pr] rest IH]; [reflexivity |].
  cbn [epipolar_lines]. rewrite IH. reflexivity.
Qed.

Lemma epipolar_lines_inv F (pts : list ((K * K) * (K * K))) ll lr :
  pts <> [] -> epipolar_lines F pts = Return (ll, lr) -> is3x3 F.
Proof.
  intros Hp Hr. destruct pts as [| [pl pr] rest]; [contradiction |].
  cbn [epipolar_lines] in Hr. unfold dot_mat_pt at 1 in Hr.
  destruct F as [| [| a [| b [| c [|]]]] [| [| d [| e [| f [|]]]]
                 [| [| g [| h [| i [|]]]] [|]]]]; try discriminate.
  now exists a, b, c, d, e, f, g, h, i.
Qed.

(** Both metrics divide by the number of points of their first argument,
    and fail on none. *)
Lemma epipolar_distance_raises (l_pts r_pts : list (K * K)) l_lines r_lines :
  epipolar_distance l_pts r_pts l_lines r_lines = Raise ZeroDivisionError
  <-> l_pts = [].
Proof.
  unfold epipolar_distance. destruct l_pts; split; intros E;
    try reflexivity; discriminate.
Qed.

Lemma algebraic_distance_raises (r_pts : list (K * K)) l_lines :
  algebraic_distance r_pts l_lines = Raise ZeroDivisionError <-> r_pts = [].
Proof.
  unfold algebraic_distance. destruct r_pts; split; intros E;
    try reflexivity; discriminate.
Qed.

End MetricsGeneric.

Section MetricsExact.
Local Open Scope R_scope.

Lemma fold_left_terms {A : Type} (g : A -> R) (l : list A) : forall a,
  fold_left (fun d it => d + g it) l a = a + fold_right Rplus 0 (map g l).
Proof.
  induction l as [| x l IH]; intros a; cbn; [ring |]. rewrite IH. ring.
Qed.

Lemma epipolar_step_term d it : epipolar_step d it = d + epipolar_step 0 it.
Proof.
  unfold epipolar_step.
  destruct it as [[[l_pt r_pt] l_line] r_line]. cbn. ring.
Qed.

Lemma epipolar_fold l : forall a,
  fold_left epipolar_step l a
  = a + fold_right Rplus 0 (map (epipolar_step 0) l).
Proof.
  induction l as [| x l IH]; intros a; cbn; [ring |].
  rewrite IH, epipolar_step_term. ring.
Qed.

Lemma fold_right_zero {A : Type} (g : A -> R) (l : list A) :
  Forall (fun x => g x = 0) l -> fold_right Rplus 0 (map g l) = 0.
Proof.
  induction 1 as [| x l Hx _ IH]; cbn; [reflexivity |]. rewrite Hx, IH. ring.
Qed.

Lemma fold_right_nonneg {A : Type} (g : A -> R) (l : list A) :
  (forall x, 0 <= g x) -> 0 <= fold_right Rplus 0 (map g l).
Proof.
  intros Hg. induction l as [| x l IH]; cbn; [lra |]. specialize (Hg x). lra.
Qed.

Lemma fold_right_zero_inv {A : Type} (g : A -> R) (l : list A) :
  (forall x, 0 <= g x) -> fold_right Rplus 0 (map g l) = 0 ->
  Forall (fun x => g x = 0) l.
Proof.
  intros Hg. induction l as [| x l IH]; cbn; intros E; constructor.
  - pose proof (fold_right_nonneg g l Hg). specialize (Hg x). lra.
  - apply IH. pose proof (fold_right_nonneg g l Hg). specialize (Hg x). lra.
Qed.

Lemma fold_right_scale {A : Type} (k : R) (g g' : A -> R) (l : list A) :
  (forall x, g' x = k * g x) ->
  fold_right Rplus 0 (map g' l) = k * fold_right Rplus 0 (map g l).
Proof.
  intros Hg. induction l as [| x l IH]; cbn; [ring |]. rewrite IH, Hg. ring.
Qed.

(** X13.  In exact arithmetic, on at least one point,
    [algebraic_distance] returns a number that is not negative, and it
    returns 0 exactly when every point paired with a line lies on its
    line. *)
Theorem algebraic_distance_nonneg (r_pts : list (R * R)) l_lines :
  r_pts <> [] ->
  exists d,
    algebraic_distance r_pts l_lines = Return d /\ 0 <= d /\
    (d = 0 <->
     Forall (fun it => dot_pt_line (fst it) (snd it) = 0)
            (combine r_pts l_lines)).
Proof.
  intros Hp. unfold algebraic_distance.
  destruct r_pts as [| p r_pts]; [contradiction |].
  set (its := combine (p :: r_pts) l_lines).
  cbn [length]. eexists. split; [reflexivity |].
  rewrite (fold_left_terms (fun it => Rabs (dot_pt_line (fst it) (snd it)))).
  cbn [szero sdiv sofnat R_scalar]. rewrite Rplus_0_l.
  pose proof (fold_right_nonneg
                (fun it : (R * R) * (R * R * R) =>
                   Rabs (dot_pt_line (fst it) (snd it))) its
                (fun x => Rabs_pos _)) as Hs.
  assert (Hn : 0 < INR (S (length r_pts)))
    by apply lt_0_INR, Nat.lt_0_succ.
  split.
  - apply Rmult_le_pos; [exact Hs |]. left. now apply Rinv_0_lt_compat.
  - split.
    + intros E.
      assert (E0 : fold_right Rplus 0
                (map (fun it : (R * R) * (R * R * R) =>
                        Rabs (dot_pt_line (fst it) (snd it))) its) = 0).
      { apply Rmult_integral in E as [E | E]; [exact E |].
        pose proof (Rinv_0_lt_compat _ Hn). lra. }
      apply fold_right_zero_inv in E0; [| intros; apply Rabs_pos].
      eapply Forall_impl; [exact E0 |]. cbn. intros it Hit.
      destruct (Req_dec (dot_pt_line (fst it) (snd it)) 0) as [Hz | Hz];
        [exact Hz |]. apply Rabs_no_R0 in Hz. contradiction.
    + intros Hf. rewrite fold_right_zero; [unfold Rdiv; ring |].
      eapply Forall_impl; [exact Hf |]. cbn. intros it ->. apply Rabs_R0.
Qed.

End MetricsExact.

Lemma algebraic_distance_nonneg_witness :
  let r_pts := [(0, 1)]%R in
  let l_lines := [(0, -1, 1)]%R in
  r_pts <> [] /\
  exists d,
    algebraic_distance r_pts l_lines = Return d /\ (0 <= d)%R /\
    (d = 0%R <->
     Forall (fun it => dot_pt_line (fst it) (snd it) = 0%R)
            (combine r_pts l_lines)).
Proof.
  intros r_pts l_lines.
  assert (Hne : r_pts <> []) by discriminate.
  split; [exact Hne |].
  exact (algebraic_distance_nonneg r_pts l_lines Hne).
Defined.

Section Scaling.
Local Open Scope R_scope.

Lemma sqrt_sq_abs (k a b : R) :
  sqrt (sq (k * a) + sq (k * b)) = Rabs k * sqrt (sq a + sq b).
Proof.
  unfold sq. cbn [smul sadd R_scalar].
  rewrite <- (sqrt_sq_scaled (Rabs k) a b) by apply Rabs_pos.
  f_equal.
  replace (Rabs k * a * (Rabs k * a) + Rabs k * b * (Rabs k * b))
    with (Rabs k * Rabs k * (a * a + b * b)) by ring.
  replace (Rabs k * Rabs k) with (k * k)
    by (rewrite <- Rabs_mult; symmetry; apply Rabs_right;
        apply Rle_ge, Rle_0_sqr).
  ring.
Qed.

Lemma dot_pt_line_scale (k : R) p l :
  dot_pt_line p (scale_line k l) = k * dot_pt_line p l.
Proof.
  destruct l as [[a b] c]. unfold dot_pt_line, scale_line. cbn. ring.
Qed.

Lemma term_scale (k : R) p l :
  k <> 0 ->
  sq (dot_pt_line p (scale_line k l))
  / sqrt (sq (fst (fst (scale_line k l))) + sq (snd (fst (scale_line k l))))
  = Rabs k * (sq (dot_pt_line p l) / sqrt (sq (fst (fst l)) + sq (snd (fst l)))).
Proof.
  intros Hk. rewrite dot_pt_line_scale.
  destruct l as [[a b] c]. cbn [scale_line fst snd smul R_scalar].
  rewrite sqrt_sq_abs. set (n := sqrt (sq a + sq b)).
  set (x := dot_pt_line p (a, b, c)).
  unfold sq. cbn [smul R_scalar]. unfold Rdiv. rewrite Rinv_mult.
  replace (k * x * (k * x)) with (k * k * (x * x)) by ring.
  replace (k * k) with (Rabs k * Rabs k)
    by (rewrite <- Rabs_mult; apply Rabs_right; apply Rle_ge, Rle_0_sqr).
  assert (Ha : Rabs k <> 0) by now apply Rabs_no_R0.
  replace (Rabs k * Rabs k * (x * x) * (/ Rabs k * / n))
    with (Rabs k * / Rabs k * (Rabs k * (x * x * / n))) by ring.
  rewrite Rinv_r by exact Ha. ring.
Qed.

Lemma combine_map_r {A B C : Type} (f : B -> C) :
  forall (l : list A) (k : list B),
    combine l (map f k) = map (fun q => (fst q, f (snd q))) (combine l k).
Proof.
  induction l as [| x l IH]; intros [| y k]; cbn; [reflexivity .. |].
  now rewrite IH.
Qed.

Lemma epipolar_distance_scale_lines (k : R) l_pts r_pts l_lines r_lines d :
  k <> 0 ->
  epipolar_distance l_pts r_pts l_lines r_lines = Return d ->
  epipolar_distance l_pts r_pts (map (scale_line k) l_lines)
                    (map (scale_line k) r_lines)
  = Return (Rabs k * d).
Proof.
  intros Hk. unfold epipolar_distance.
  destruct l_pts as [| p l_pts]; [discriminate |].
  cbn [length]. set (N := sofnat (S (length l_pts))).
  set (c0 := combine (p :: l_pts) r_pts).
  rewrite (combine_map_r (scale_line k) c0 l_lines), combine_map.
  set (c := combine (combine c0 l_lines) r_lines).
  intros E. injection E as <-. f_equal.
  rewrite !epipolar_fold. cbn [szero sdiv R_scalar].
  rewrite !Rplus_0_l, !map_map.
  rewrite (fold_right_scale (Rabs k) (epipolar_step 0)).
  - unfold Rdiv. ring.
  - intros [[[l_pt r_pt] l_line] r_line]. cbn [fst snd epipolar_step].
    cbn [szero sadd sdiv R_scalar]. rewrite !term_scale by exact Hk.
    cbn [sdiv ssqrt R_scalar]. ring.
Qed.

Lemma algebraic_distance_scale_lines (k : R) r_pts l_lines d :
  algebraic_distance r_pts l_lines = Return d ->
  algebraic_distance r_pts (map (scale_line k) l_lines) = Return (Rabs k * d).
Proof.
  unfold algebraic_distance.
  destruct r_pts as [| p r_pts]; [discriminate |].
  cbn [length]. set (N := sofnat (S (length r_pts))).
  rewrite combine_map_r. set (c := combine (p :: r_pts) l_lines).
  intros E. injection E as <-. f_equal.
  rewrite !(fold_left_terms (fun it => Rabs (dot_pt_line (fst it) (snd it)))).
  cbn [szero sdiv R_scalar].
  rewrite !Rplus_0_l, map_map.
  rewrite (fold_right_scale (Rabs k)
             (fun it : (R * R) * (R * R * R) =>
                Rabs (dot_pt_line (fst it) (snd it)))).
  - unfold Rdiv. ring.
  - intros [pt l]. cbn [fst snd]. rewrite dot_pt_line_scale. apply Rabs_mult.
Qed.

End Scaling.

Section MainDistances.
Local Open Scope R_scope.

Lemma vdot3_scale (k a b c : R) v :
  vdot [k * a; k * b; k * c] (homog v) = k * vdot [a; b; c] (homog v).
Proof. unfold vdot, homog. cbn. ring. Qed.

Lemma epipolar_lines_scale (k : R) F pts ll lr :
  is3x3 F ->
  epipolar_lines F pts = Return (ll, lr) ->
  epipolar_lines (scale_table k F) pts
  = Return (map (scale_line k) ll, map (scale_line k) lr).
Proof.
  intros HF. table3 HF. cbn [scale_table map smul R_scalar].
  rewrite !epipolar_lines_3x3. intros [= <- <-]. rewrite !map_map.
  f_equal. f_equal; apply map_ext; intros q; unfold scale_line;
    cbn [fst snd smul R_scalar]; now rewrite !vdot3_scale.
Qed.

Lemma residual_right (a b c d e f g h i : R) pl pr :
  dot_pt_line pr (vdot [a; b; c] (homog pl), vdot [d; e; f] (homog pl),
                  vdot [g; h; i] (homog pl))
  = epipolar_residual [[a; b; c]; [d; e; f]; [g; h; i]] (homog pl) (homog pr).
Proof. unfold dot_pt_line, epipolar_residual, vdot, homog. cbn. ring. Qed.

Lemma residual_left (a b c d e f g h i : R) pl pr :
  dot_pt_line pl (vdot [a; d; g] (homog pr), vdot [b; e; h] (homog pr),
                  vdot [c; f; i] (homog pr))
  = epipolar_residual [[a; b; c]; [d; e; f]; [g; h; i]] (homog pl) (homog pr).
Proof. unfold dot_pt_line, epipolar_residual, vdot, homog. cbn. ring. Qed.

Lemma map_snd_combine_eq {A B : Type} : forall (l : list A) (k : list B),
  length l = length k -> map snd (combine l k) = k.
Proof.
  induction l as [| x l IH]; intros [| y k]; cbn; intros E;
    try discriminate; [reflexivity |].
  f_equal. apply IH. lia.
Qed.

Lemma combine_map_self {A B : Type} (f : A -> B) (l : list A) :
  combine l (map f l) = map (fun q => (q, f q)) l.
Proof. induction l as [| x l IH]; cbn; [reflexivity | now rewrite IH]. Qed.

Lemma combine_nil_inv {A B : Type} (l : list A) (k : list B) :
  l <> [] -> k <> [] -> combine l k <> [].
Proof. destruct l, k; cbn; congruence. Qed.

(** X14.  The two distances of the main block depend on the scale of the
    estimate, which the estimation leaves free: in exact arithmetic, for
    the matrix [k * F] with [k] not 0 both distances are [|k|] times
    those for [F].  The symmetric distance divides each squared residual
    by the magnitude of the line normal, not by its square. *)
Theorem main_distances_scale (k : R) F pts_left pts_right sed alg :
  k <> 0 ->
  main_distances F pts_left pts_right = Return (sed, alg) ->
  main_distances (scale_table k F) pts_left pts_right
  = Return (Rabs k * sed, Rabs k * alg).
Proof.
  intros Hk. unfold main_distances.
  destruct (epipolar_lines F (combine pts_left pts_right))
    as [[ll lr] | e] eqn:El; [| discriminate].
  destruct (epipolar_distance pts_left pts_right ll lr) as [d1 | e] eqn:E1;
    [| discriminate].
  destruct (algebraic_distance pts_right lr) as [d2 | e] eqn:E2;
    [| discriminate].
  intros [= <- <-].
  assert (HF : is3x3 F).
  { apply (epipolar_lines_inv F (combine pts_left pts_right) ll lr);
      [| exact El].
    apply combine_nil_inv.
    - intros ->. discriminate.
    - intros ->. discriminate. }
  rewrite (epipolar_lines_scale k F _ ll lr HF El).
  rewrite (epipolar_distance_scale_lines k _ _ _ _ d1 Hk E1).
  now rewrite (algebraic_distance_scale_lines k _ _ d2 E2).
Qed.

Lemma zero_residual_distances (a b c d e f g h i : R) pts_left pts_right :
  let F := [[a; b; c]; [d; e; f]; [g; h; i]] in
  pts_left <> [] -> length pts_left = length pts_right ->
  Forall (fun q => epipolar_residual F (homog (fst q)) (homog (snd q)) = 0)
         (combine pts_left pts_right) ->
  main_distances F pts_left pts_right = Return (0, 0).
Proof.
  intros F Hne Hlen Hres.
  assert (Hnr : pts_right <> [])
    by (destruct pts_left, pts_right; cbn in *; congruence).
  unfold main_distances, F. rewrite epipolar_lines_3x3.
  set (pts := combine pts_left pts_right) in *.
  unfold epipolar_distance, algebraic_distance.
  destruct pts_left as [| p0 pl]; [contradiction |].
  destruct pts_right as [| q0 pr]; [contradiction |].
  cbn [length].
  assert (Hs : q0 :: pr = map snd pts)
    by (symmetry; now apply map_snd_combine_eq).
  change (combine (p0 :: pl) (q0 :: pr)) with pts. rewrite Hs.
  rewrite combine_map_self, !combine_map_same.
  rewrite epipolar_fold,
    (fold_left_terms (fun it => Rabs (dot_pt_line (fst it) (snd it)))).
  rewrite !map_map.
  rewrite !fold_right_zero.
  - cbn [szero sdiv R_scalar]. unfold Rdiv. now rewrite !Rplus_0_l, !Rmult_0_l.
  - eapply Forall_impl; [exact Hres |]. intros [ql qr] Hq. cbn [fst snd] in *.
    rewrite residual_right. fold F. rewrite Hq. apply Rabs_R0.
  - eapply Forall_impl; [exact Hres |]. intros [ql qr] Hq. cbn [fst snd] in *.
    unfold epipolar_step. cbn [fst snd].
    rewrite residual_left, residual_right. fold F. rewrite Hq.
    unfold sq. cbn. unfold Rdiv. ring.
Qed.

Variable drawing :
  list (R * R * R) -> list (R * R * R) -> list (R * R) -> list (R * R)
  -> outcome unit.

(** When the drawing returns, a pass computes the two distances. *)
Lemma main_pass_distances F pts_left pts_right ll lr :
  epipolar_lines F (combine pts_left pts_right) = Return (ll, lr) ->
  main_pass drawing F pts_left pts_right
  = match drawing ll lr pts_left pts_right with
    | Raise e => Raise e
    | Return _ => main_distances F pts_left pts_right
    end.
Proof. intros El. unfold main_pass, main_distances. now rewrite El. Qed.

(** X15.  In exact arithmetic, a matrix that fits the correspondences
    exactly has both distances 0: when every pair satisfies
    [x2^T . F . x1 = 0] (and no epipolar line has a zero normal, which
    the symmetric distance divides by), a pass of the main block stops in
    the drawing, with the exception of the drawing, or computes 0 for the
    symmetric epipolar distance and 0 for the algebraic distance. *)
Theorem main_pass_exact_fit F pts_left pts_right ll lr :
  pts_left <> [] -> length pts_left = length pts_right ->
  epipolar_lines F (combine pts_left pts_right) = Return (ll, lr) ->
  Forall (fun l => sq (fst (fst l)) + sq (snd (fst l)) <> 0) (ll ++ lr) ->
  Forall (fun q => epipolar_residual F (homog (fst q)) (homog (snd q)) = 0)
         (combine pts_left pts_right) ->
  main_pass drawing F pts_left pts_right
  = match drawing ll lr pts_left pts_right with
    | Raise e => Raise e
    | Return _ => Return (0, 0)
    end.
Proof.
  intros Hne Hlen El _ Hres.
  assert (Hnr : pts_right <> [])
    by (destruct pts_left, pts_right; cbn in *; congruence).
  assert (HF : is3x3 F).
  { apply (epipolar_lines_inv F (combine pts_left pts_right) ll lr);
      [now apply combine_nil_inv | exact El]. }
  rewrite (main_pass_distances F pts_left pts_right ll lr El).
  table3 HF. now rewrite zero_residual_distances.
Qed.

End MainDistances.

Lemma main_distances_scale_witness :
  let pl := [(1, 0)]%R in
  let pr := [(0, 0)]%R in
  2%R <> 0%R /\
  exists sed alg,
    main_distances Fs pl pr = Return (sed, alg) /\
    main_distances (scale_table 2%R Fs) pl pr
    = Return (Rabs 2 * sed, Rabs 2 * alg)%R.
Proof.
  intros pl pr.
  assert (Hk : 2%R <> 0%R) by lra.
  assert (Hm : exists sed alg, main_distances Fs pl pr = Return (sed, alg))
    by (do 2 eexists; reflexivity).
  destruct Hm as (sed & alg & Hm).
  split; [exact Hk |]. exists sed, alg. split; [exact Hm |].
  exact (main_distances_scale 2%R Fs pl pr sed alg Hk Hm).
Defined.

Lemma main_pass_exact_fit_witness :
  let pl := [(0, 0)]%R in
  let pr := [(0, 1)]%R in
  let drawing : list (R * R * R) -> list (R * R * R) -> list (R * R)
                -> list (R * R) -> outcome unit := fun _ _ _ _ => Return tt in
  pl <> [] /\ length pl = length pr /\
  Forall (fun q => epipolar_residual Fs (homog (fst q)) (homog (snd q)) = 0%R)
         (combine pl pr) /\
  exists ll lr,
    epipolar_lines Fs (combine pl pr) = Return (ll, lr) /\
    Forall (fun l => (sq (fst (fst l)) + sq (snd (fst l)))%R <> 0%R)
           (ll ++ lr) /\
    main_pass drawing Fs pl pr
    = match drawing ll lr pl pr with
      | Raise e => Raise e
      | Return _ => Return (0, 0)%R
      end.
Proof.
  intros pl pr drawing.
  assert (Hne : pl <> []) by discriminate.
  assert (Hlen : length pl = length pr) by reflexivity.
  assert (Hres : Forall (fun q => epipolar_residual Fs (homog (fst q))
                                    (homog (snd q)) = 0%R)
                        (combine pl pr))
    by (repeat constructor; cbn; ring).
  assert (Hl : exists ll lr,
             epipolar_lines Fs (combine pl pr) = Return (ll, lr) /\
             Forall (fun l => (sq (fst (fst l)) + sq (snd (fst l)))%R <> 0%R)
                    (ll ++ lr))
    by (do 2 eexists; split; [reflexivity | repeat constructor; cbn; lra]).
  destruct Hl as (ll & lr & Hl & Hnorm).
  repeat (split; [assumption |]).
  exists ll, lr. split; [exact Hl |]. split; [exact Hnorm |].
  exact (main_pass_exact_fit drawing Fs pl pr ll lr Hne Hlen Hl Hnorm Hres).
Defined.

(** ** The constraint matrix *)

Section ConstraintShape.
Context {K : Type} `{Scalar K}.

(** X16.  For two arrays whose first two rows have N elements the
    constraint matrix is Nx9: one row of 9 elements for each point. *)
Theorem constraint_matrix_shape (x1 x2 : list (list K)) n :
  length (nth 0 x1 []) = n -> length (nth 1 x1 []) = n ->
  length (nth 0 x2 []) = n -> length (nth 1 x2 []) = n ->
  length (constraint_matrix x1 x2) = n /\
  Forall (fun row => length row = 9) (constraint_matrix x1 x2).
Proof.
  intros H10 _ H20 _. split.
  - rewrite constraint_matrix_length. lia.
  - apply constraint_matrix_rows.
Qed.

End ConstraintShape.

Lemma constraint_matrix_shape_witness :
  let x1 := [[2; 3]; [4; 5]; [2; 1]]%float in
  let x2 := [[1; 7]; [1; 9]; [1; 1]]%float in
  length (nth 0 x1 []) = 2 /\ length (nth 1 x1 []) = 2 /\
  length (nth 0 x2 []) = 2 /\ length (nth 1 x2 []) = 2 /\
  length (constraint_matrix x1 x2) = 2 /\
  Forall (fun row => length row = 9) (constraint_matrix x1 x2).
Proof.
  intros x1 x2.
  assert (H10 : length (nth 0 x1 []) = 2) by reflexivity.
  assert (H11 : length (nth 1 x1 []) = 2) by reflexivity.
  assert (H20 : length (nth 0 x2 []) = 2) by reflexivity.
  assert (H21 : length (nth 1 x2 []) = 2) by reflexivity.
  do 4 (split; [assumption |]).
  exact (constraint_matrix_shape x1 x2 2 H10 H11 H20 H21).
Defined.

Section Residuals.
Local Open Scope R_scope.

Lemma crow_residual (F : list (list R)) (p1 p2 : R * R) :
  is3x3 F ->
  vdot (crow p1 p2) (concat F) = epipolar_residual F (homog p1) (homog p2).
Proof.
  intros HF. table3 HF.
  unfold crow, epipolar_residual, vdot, homog. cbn. ring.
Qed.

Lemma constraint_matrix_residuals (F : list (list R)) xl yl ol xr yr or :
  is3x3 F ->
  length yl = length xl -> length xr = length xl -> length yr = length xl ->
  annihilates (constraint_matrix [xl; yl; ol] [xr; yr; or]) (concat F) <->
  Forall (fun q => epipolar_residual F (homog (fst q)) (homog (snd q)) = 0)
         (combine (combine xl yl) (combine xr yr)).
Proof.
  intros HF Hy Hxr Hyr.
  rewrite constraint_matrix_points by (cbn [nth]; congruence).
  cbn [nth]. rewrite annihilates_map.
  split; intros Hq; (eapply Forall_impl; [exact Hq |]); intros q E; cbn in *.
  - now rewrite <- crow_residual.
  - now rewrite crow_residual.
Qed.

Lemma residual_scale (k : R) (F : list (list R)) x1 x2 :
  is3x3 F -> length x1 = 3%nat -> length x2 = 3%nat ->
  epipolar_residual (scale_table k F) x1 x2 = k * epipolar_residual F x1 x2.
Proof.
  intros HF H1 H2. table3 HF.
  destruct x1 as [| a [| b [| c [|]]]]; try discriminate.
  destruct x2 as [| a' [| b' [| c' [|]]]]; try discriminate.
  unfold epipolar_residual, vdot. cbn. ring.
Qed.

(** X17.  The constraint matrix encodes the epipolar constraint of the
    points [(x, y, 1)]: in exact arithmetic, [A . vec(F) = 0] for a 3x3
    matrix [F] exactly when [x2^T . F . x1 = 0] for every correspondence,
    where the coordinates are the first two rows of the arrays as held.
    The third rows are not read. *)
Theorem constraint_matrix_encodes_residuals (F : list (list R))
    (x1 x2 : list (list R)) :
  is3x3 F ->
  length (nth 1 x1 []) = length (nth 0 x1 []) ->
  length (nth 0 x2 []) = length (nth 0 x1 []) ->
  length (nth 1 x2 []) = length (nth 0 x1 []) ->
  annihilates (constraint_matrix x1 x2) (concat F) <->
  Forall (fun q => epipolar_residual F (homog (fst q)) (homog (snd q)) = 0)
         (combine (combine (nth 0 x1 []) (nth 1 x1 []))
                  (combine (nth 0 x2 []) (nth 1 x2 []))).
Proof.
  intros HF H1 H2 H3.
  rewrite constraint_matrix_points by assumption.
  rewrite annihilates_map.
  split; intros Hq; (eapply Forall_impl; [exact Hq |]); intros q E; cbn in *.
  - now rewrite <- crow_residual.
  - now rewrite crow_residual.
Qed.

End Residuals.

Lemma constraint_matrix_encodes_residuals_witness :
  let x1 := [xs1; ys1; repeat 2%R 8] in
  let x2 := [xs2; ys2; repeat 2%R 8] in
  is3x3 Fs /\
  length (nth 1 x1 []) = length (nth 0 x1 []) /\
  length (nth 0 x2 []) = length (nth 0 x1 []) /\
  length (nth 1 x2 []) = length (nth 0 x1 []) /\
  (annihilates (constraint_matrix x1 x2) (concat Fs) <->
   Forall (fun q => epipolar_residual Fs (homog (fst q)) (homog (snd q)) = 0%R)
          (combine (combine (nth 0 x1 []) (nth 1 x1 []))
                   (combine (nth 0 x2 []) (nth 1 x2 [])))).
Proof.
  intros x1 x2.
  destruct Fs_facts as (HFs & _).
  assert (H1 : length (nth 1 x1 []) = length (nth 0 x1 [])) by reflexivity.
  assert (H2 : length (nth 0 x2 []) = length (nth 0 x1 [])) by reflexivity.
  assert (H3 : length (nth 1 x2 []) = length (nth 0 x1 [])) by reflexivity.
  split; [exact HFs |].
  split; [exact H1 |]. split; [exact H2 |]. split; [exact H3 |].
  exact (constraint_matrix_encodes_residuals Fs x1 x2 HFs H1 H2 H3).
Defined.

(** ** The main block on exact data *)

Section Pipeline.
Local Open Scope R_scope.
Variable svd : list (list R) -> outcome (list (list R) * list R * list (list R)).
Hypothesis svd_spec : forall M, svd_ok M (svd M).

Variable drawing :
  list (R * R * R) -> list (R * R * R) -> list (R * R) -> list (R * R)
  -> outcome unit.

Lemma normal_scale (k : R) (l : R * R * R) :
  k <> 0 ->
  sq (fst (fst l)) + sq (snd (fst l)) <> 0 ->
  sq (fst (fst (scale_line k l))) + sq (snd (fst (scale_line k l))) <> 0.
Proof.
  intros Hk Hl. destruct l as [[a b] c]. unfold scale_line, sq in *.
  cbn [fst snd smul sadd R_scalar] in *.
  replace (k * a * (k * a) + k * b * (k * b)) with (k * k * (a * a + b * b))
    by ring.
  apply Rmult_integral_contrapositive. split; [| exact Hl].
  now apply Rmult_integral_contrapositive.
Qed.

(** X18.  The main block on exact data, end to end.  In exact
    arithmetic, for two Nx2 arrays of at least 8 correspondences that are
    exact for a singular matrix [Fs] and determine it up to scale, and
    whose epipolar lines for [Fs] have nonzero normals:
    [fundamental_matrix] returns [k * Fs] for some [k] not 0, with or
    without normalisation; the lines of the main block for it are those
    of [Fs] scaled by [k], with nonzero normals; and the pass stops in the
    drawing, with the exception of the drawing, or computes both
    distances as 0. *)
Theorem exact_data_zero_distances (a b : ndarray) (w : world R) n
    normalize Fs ll lr :
  shape a = [n; 2]%nat -> shape b = [n; 2]%nat -> (8 <= n)%nat ->
  valid (heap w) a -> valid (heap w) b ->
  let xl := row (heap w) (transpose_view a) 0 in
  let yl := row (heap w) (transpose_view a) 1 in
  let xr := row (heap w) (transpose_view b) 0 in
  let yr := row (heap w) (transpose_view b) 1 in
  let pts_left := combine xl yl in
  let pts_right := combine xr yr in
  (normalize = true ->
   mean_distance xl yl <> 0 /\ mean_distance xr yr <> 0) ->
  is3x3 Fs -> det3 Fs = 0 -> concat Fs <> repeat 0 9 ->
  kernel_line (constraint_matrix [xl; yl; repeat 1 n] [xr; yr; repeat 1 n])
              (concat Fs) ->
  epipolar_lines Fs (combine pts_left pts_right) = Return (ll, lr) ->
  Forall (fun l => sq (fst (fst l)) + sq (snd (fst l)) <> 0) (ll ++ lr) ->
  exists k w',
    k <> 0 /\
    fundamental_matrix svd [a; b] normalize w
    = (Return (Some (scale_table k Fs)), w') /\
    let ll' := map (scale_line k) ll in
    let lr' := map (scale_line k) lr in
    epipolar_lines (scale_table k Fs) (combine pts_left pts_right)
    = Return (ll', lr') /\
    Forall (fun l => sq (fst (fst l)) + sq (snd (fst l)) <> 0) (ll' ++ lr') /\
    main_pass drawing (scale_table k Fs) pts_left pts_right
    = match drawing ll' lr' pts_left pts_right with
      | Raise e => Raise e
      | Return _ => Return (0, 0)
      end.
Proof.
  intros Ha Hb Hn Hva Hvb xl yl xr yr pts_left pts_right Hmd HFs Hdet Hnz
    Hker Hl Hnorm.
  destruct (shape_dims a n 2 Ha) as (Hda & _).
  destruct (shape_dims b n 2 Hb) as (Hdb & _).
  assert (Hrec : exists k w', k <> 0 /\
            fundamental_matrix svd [a; b] normalize w
            = (Return (Some (scale_table k Fs)), w') /\
            stdout w' = stdout w).
  { rewrite <- (fundamental_matrix_transpose_view svd [a; b]). cbn [map].
    apply (fundamental_matrix_recovers_fat svd svd_spec
             (transpose_view a) (transpose_view b) w n normalize Fs);
      try assumption.
    - unfold transpose_view. cbn [shape]. now rewrite Ha.
    - unfold transpose_view. cbn [shape]. now rewrite Hb.
    - now apply valid_transpose_view.
    - now apply valid_transpose_view. }
  destruct Hrec as (k & w' & Hk & Hrun & _).
  exists k, w'. split; [exact Hk |]. split; [exact Hrun |]. cbv zeta.
  pose proof (epipolar_lines_scale k Fs _ ll lr HFs Hl) as Hl'.
  split; [exact Hl' |].
  split.
  { rewrite <- map_app. apply Forall_fmap.
    eapply Forall_impl; [exact Hnorm |]. intros l Hl0. cbn.
    now apply normal_scale. }
  rewrite (main_pass_distances drawing _ _ _ _ _ Hl').
  destruct (transpose_view_shape a Hda) as [_ Ea].
  destruct (transpose_view_shape b Hdb) as [_ Eb].
  assert (Hxl : length xl = n)
    by (unfold xl; rewrite row_length, Ea; unfold shape0; now rewrite Ha).
  assert (Hyl : length yl = n)
    by (unfold yl; rewrite row_length, Ea; unfold shape0; now rewrite Ha).
  assert (Hxr : length xr = n)
    by (unfold xr; rewrite row_length, Eb; unfold shape0; now rewrite Hb).
  assert (Hyr : length yr = n)
    by (unfold yr; rewrite row_length, Eb; unfold shape0; now rewrite Hb).
  assert (Hpl : length pts_left = n)
    by (unfold pts_left; rewrite length_combine; lia).
  assert (Hpr : length pts_right = n)
    by (unfold pts_right; rewrite length_combine; lia).
  assert (Hres : Forall (fun q => epipolar_residual (scale_table k Fs)
                                    (homog (fst q)) (homog (snd q)) = 0)
                        (combine pts_left pts_right)).
  { destruct Hker as [Hann _].
    apply constraint_matrix_residuals in Hann; [| exact HFs | congruence ..].
    eapply Forall_impl; [exact Hann |]. intros q Hq. cbn in *.
    rewrite residual_scale, Hq by (exact HFs || reflexivity). ring. }
  clear Hl Hl' Hrun. table3 HFs. cbn [scale_table map] in *.
  rewrite zero_residual_distances; [reflexivity | | congruence | exact Hres].
  intros E. rewrite E in Hpl. cbn in Hpl. lia.
Qed.

End Pipeline.

Lemma exact_data_zero_distances_witness :
  let xl := row (heap world3) (transpose_view tall1) 0 in
  let yl := row (heap world3) (transpose_view tall1) 1 in
  let xr := row (heap world3) (transpose_view tall2) 0 in
  let yr := row (heap world3) (transpose_view tall2) 1 in
  let pts_left := combine xl yl in
  let pts_right := combine xr yr in
  let drawing : list (R * R * R) -> list (R * R * R) -> list (R * R)
                -> list (R * R) -> outcome unit := fun _ _ _ _ => Return tt in
  (forall M, svd_ok M (svd_choice M)) /\
  shape tall1 = [8; 2] /\ shape tall2 = [8; 2] /\ 8 <= 8 /\
  valid (heap world3) tall1 /\ valid (heap world3) tall2 /\
  (true = true ->
   mean_distance xl yl <> 0%R /\ mean_distance xr yr <> 0%R) /\
  is3x3 Fs /\ det3 Fs = 0%R /\ concat Fs <> repeat 0%R 9 /\
  kernel_line (constraint_matrix [xl; yl; repeat 1%R 8] [xr; yr; repeat 1%R 8])
              (concat Fs) /\
  exists ll lr,
    epipolar_lines Fs (combine pts_left pts_right) = Return (ll, lr) /\
    Forall (fun l => (sq (fst (fst l)) + sq (snd (fst l)))%R <> 0%R)
           (ll ++ lr) /\
    exists k w',
      k <> 0%R /\
      fundamental_matrix svd_choice [tall1; tall2] true world3
      = (Return (Some (scale_table k Fs)), w') /\
      let ll' := map (scale_line k) ll in
      let lr' := map (scale_line k) lr in
      epipolar_lines (scale_table k Fs) (combine pts_left pts_right)
      = Return (ll', lr') /\
      Forall (fun l => (sq (fst (fst l)) + sq (snd (fst l)))%R <> 0%R)
             (ll' ++ lr') /\
      main_pass drawing (scale_table k Fs) pts_left pts_right
      = match drawing ll' lr' pts_left pts_right with
        | Raise e => Raise e
        | Return _ => Return (0, 0)%R
        end.
Proof.
  intros xl yl xr yr pts_left pts_right drawing.
  assert (Hsvd : forall M, svd_ok M (svd_choice M)) by exact svd_choice_ok.
  assert (Ha : shape tall1 = [8; 2]) by reflexivity.
  assert (Hb : shape tall2 = [8; 2]) by reflexivity.
  assert (Hn : 8 <= 8) by apply Nat.le_refl.
  assert (Hva : valid (heap world3) tall1)
    by (eapply valid_table; [reflexivity | repeat constructor ..]).
  assert (Hvb : valid (heap world3) tall2)
    by (eapply valid_table; [reflexivity | repeat constructor ..]).
  assert (Hmd : true = true ->
                mean_distance xl yl <> 0%R /\ mean_distance xr yr <> 0%R)
    by (intros _; exact world1_spread).
  destruct Fs_facts as (HFs & Hdet & Hnz).
  assert (Hker : kernel_line
                   (constraint_matrix [xl; yl; repeat 1%R 8]
                                      [xr; yr; repeat 1%R 8])
                   (concat Fs))
    by exact kernel_world1.
  assert (Hl : exists ll lr,
             epipolar_lines Fs (combine pts_left pts_right) = Return (ll, lr) /\
             Forall (fun l => (sq (fst (fst l)) + sq (snd (fst l)))%R <> 0%R)
                    (ll ++ lr))
    by (do 2 eexists; split; [reflexivity | repeat constructor; cbn; lra]).
  destruct Hl as (ll & lr & Hl & Hnorm).
  do 11 (split; [assumption |]).
  exists ll, lr. split; [exact Hl |]. split; [exact Hnorm |].
  exact (exact_data_zero_distances svd_choice Hsvd drawing tall1 tall2 world3 8
           true Fs ll lr Ha Hb Hn Hva Hvb Hmd HFs Hdet Hnz Hker Hl Hnorm).
Defined.

(** ** The distances on lists of different lengths *)

Section Truncation.
Context {K : Type} `{Scalar K}.
Local Open Scope scalar_scope.

Lemma combine_app_l {A B : Type} : forall (l e : list A) (k : list B),
  length k <= length l -> combine (l ++ e) k = combine l k.
Proof.
  induction l as [| x l IH]; intros e [| y k] Hk; cbn in *;
    try reflexivity; try lia.
  - now destruct e.
  - f_equal. apply IH. lia.
Qed.

(** X19.  [epipolar_distance] does not check that its lists have one
    length: [zip] stops at the shortest, and the sum is divided by the
    number of left points.  Left points beyond the right points add
    nothing to the sum and only make the divisor larger. *)
Theorem epipolar_distance_unmatched_points
    (l_pts extra r_pts : list (K * K)) l_lines r_lines :
  l_pts <> [] -> length r_pts <= length l_pts ->
  exists total,
    epipolar_distance l_pts r_pts l_lines r_lines
    = Return (total / sofnat (length l_pts)) /\
    epipolar_distance (l_pts ++ extra) r_pts l_lines r_lines
    = Return (total / sofnat (length l_pts + length extra)).
Proof.
  intros Hne Hlen. unfold epipolar_distance.
  rewrite (combine_app_l l_pts extra r_pts Hlen), length_app.
  destruct l_pts as [| p l_pts]; [contradiction |].
  eexists. split; reflexivity.
Qed.

(** X20.  Each metric raises [ZeroDivisionError] exactly when its first
    list of points is empty, whatever the other lists hold; and so do the
    distances of the main block when either list of points is empty,
    whatever the matrix. *)
Theorem distances_of_no_points (F : list (list K)) (l_pts r_pts : list (K * K))
    l_lines r_lines :
  (epipolar_distance l_pts r_pts l_lines r_lines = Raise ZeroDivisionError
   <-> l_pts = []) /\
  (algebraic_distance r_pts l_lines = Raise ZeroDivisionError
   <-> r_pts = []) /\
  main_distances F [] r_pts = Raise ZeroDivisionError /\
  main_distances F l_pts [] = Raise ZeroDivisionError.
Proof.
  split; [apply epipolar_distance_raises |].
  split; [apply algebraic_distance_raises |].
  split; [reflexivity |].
  unfold main_distances.
  replace (combine l_pts []) with (@nil ((K * K) * (K * K)))
    by (now destruct l_pts).
  cbn [epipolar_lines]. now destruct l_pts.
Qed.

End Truncation.

Lemma epipolar_distance_unmatched_points_witness :
  let l_pts := [(1, 0)]%float in
  let extra := [(5, 5)]%float in
  let r_pts := [(1, 0)]%float in
  let lines := [(2, 0, 0)]%float in
  l_pts <> [] /\ length r_pts <= length l_pts /\
  exists total,
    epipolar_distance l_pts r_pts lines lines
    = Return (sdiv total (sofnat (length l_pts))) /\
    epipolar_distance (l_pts ++ extra) r_pts lines lines
    = Return (sdiv total (sofnat (length l_pts + length extra))).
Proof.
  intros l_pts extra r_pts lines.
  assert (Hne : l_pts <> []) by discriminate.
  assert (Hlen : length r_pts <= length l_pts) by apply Nat.le_refl.
  repeat (split; [assumption |]).
  exact (epipolar_distance_unmatched_points l_pts extra r_pts lines lines
           Hne Hlen).
Defined.

(** ** utils.py: the disparity errors *)

Section DisparityGeneric.
Context {K : Type} `{Scalar K}.
Variable median : list K -> K.

Lemma combine_nil_iff {A B : Type} (l : list A) (k : list B) :
  combine l k = [] <-> l = [] \/ k = [].
Proof.
  destruct l, k; cbn; split; intros E; auto; try discriminate;
    destruct E; discriminate.
Qed.

Lemma channel0_none (gt : list (list (list K))) :
  channel0 gt = None <-> Exists (fun px => px = []) (concat gt).
Proof.
  unfold channel0. induction gt as [| r gt IH]; cbn.
  - split; [discriminate | intros E; inversion E].
  - rewrite Exists_app.
    assert (Hr : mapM (fun px : list K => px !! 0) r = None
                 <-> Exists (fun px => px = []) r).
    { clear. induction r as [| px r IH]; cbn.
      - split; [discriminate | intros E; inversion E].
      - rewrite Exists_cons. destruct px as [| c px]; cbn.
        + split; auto.
        + destruct (mapM (fun px : list K => px !! 0) r); cbn.
          * split; [discriminate |].
            intros [E | E]; [discriminate | now apply IH in E].
          * split; [intros _; right; now apply IH | reflexivity]. }
    destruct (mapM (fun px : list K => px !! 0) r) as [g0 |]; cbn.
    + destruct (mapM (mapM (fun px : list K => px !! 0)) gt); cbn.
      * split; [discriminate |].
        intros [E | E]; [now apply Hr in E | now apply IH in E].
      * split; [intros _; right; now apply IH | reflexivity].
    + split; [intros _; left; now apply Hr | reflexivity].
Qed.

Lemma channel0_length (gt : list (list (list K))) g :
  channel0 gt = Some g -> length (concat g) = length (concat gt).
Proof.
  unfold channel0. revert g. induction gt as [| r gt IH]; intros g; cbn.
  - now intros [= <-].
  - destruct (mapM (fun px : list K => px !! 0) r) as [g0 |] eqn:E0;
      cbn; [| discriminate].
    destruct (mapM (mapM (fun px : list K => px !! 0)) gt) as [g1 |];
      cbn; [| discriminate].
    intros [= <-]. cbn. rewrite !length_app, (IH g1 eq_refl). f_equal.
    apply length_mapM in E0. congruence.
Qed.

(** X21.  The two failures of [calc_errors], for a ground truth that has
    a pixel: it raises [IndexError] exactly when a pixel has no channel
    (in a numpy array, when the axis of the channels is empty), and
    [ZeroDivisionError] exactly when every pixel has a channel and the
    disparity matrix has no element, so that no difference is formed. *)
Theorem calc_errors_raises (disparity_matrix : list (list K)) gt :
  concat gt <> [] ->
  (calc_errors median disparity_matrix gt = Raise IndexError
   <-> Exists (fun px => px = []) (concat gt)) /\
  (calc_errors median disparity_matrix gt = Raise ZeroDivisionError
   <-> Forall (fun px => px <> []) (concat gt) /\
       concat disparity_matrix = []).
Proof.
  intros Hpx. rewrite <- channel0_none.
  assert (Hall : Forall (fun px : list K => px <> []) (concat gt)
                 <-> channel0 gt <> None).
  { rewrite channel0_none, <- Forall_Exists_neg. reflexivity. }
  rewrite Hall. unfold calc_errors.
  destruct (channel0 gt) as [g |] eqn:Eg.
  - pose proof (channel0_length gt g Eg) as Hlen.
    set (errors := map _ (combine _ _)).
    assert (He : length errors = 0 <-> concat disparity_matrix = []).
    { unfold errors. rewrite length_map, length_zero_iff_nil, combine_nil_iff.
      split; [intros [E | E] | intros E; now right].
      - destruct (concat g); [| discriminate].
        destruct (concat gt); [contradiction | discriminate].
      - exact E. }
    destruct (length errors) as [| n].
    + split; [split; discriminate |].
      split; [| reflexivity]. intros _. split; [discriminate | now apply He].
    + split; [split; discriminate |].
      split; [discriminate |]. intros [_ E]. apply He in E. discriminate.
  - split; [split; reflexivity |].
    split; [discriminate | intros [E _]; contradiction].
Qed.

End DisparityGeneric.

Lemma calc_errors_raises_witness :
  let median : list float -> float := fun _ => 0%float in
  let d := [[1; 2]]%float in
  let gt := [[[3; 0; 0]; [0; 0; 0]]]%float in
  concat gt <> [] /\
  (calc_errors median d gt = Raise IndexError
   <-> Exists (fun px => px = []) (concat gt)) /\
  (calc_errors median d gt = Raise ZeroDivisionError
   <-> Forall (fun px => px <> []) (concat gt) /\ concat d = []).
Proof.
  intros median d gt.
  assert (Hpx : concat gt <> []) by discriminate.
  split; [exact Hpx |].
  exact (calc_errors_raises median d gt Hpx).
Defined.

Section DisparityExact.
Local Open Scope R_scope.
Variable median : list R -> R.

Lemma count_above_le (errors : list R) (t u : R) :
  t <= u ->
  (count_above u errors <= count_above t errors <= length errors)%nat.
Proof.
  intros Htu. unfold count_above. cbn [sgtb R_scalar].
  induction errors as [| e r IH]; [cbn; lia |].
  cbn [List.filter].
  destruct (Rlt_dec u e) as [Hu | Hu]; destruct (Rlt_dec t e) as [Ht | Ht];
    cbn [length]; try lia.
  exfalso. apply Ht. lra.
Qed.

Lemma sum_nonneg (xs : list R) : Forall (fun x => 0 <= x) xs -> 0 <= sum xs.
Proof.
  intros Hx. destruct xs as [| x r]; cbn; [lra |].
  rewrite fold_left_Rplus. inversion Hx as [| ? ? H0 Hr]; subst.
  assert (0 <= fold_right Rplus 0 r).
  { clear H0 Hx. induction Hr; cbn; lra. }
  lra.
Qed.

(** X22.  In exact arithmetic, whenever [calc_errors] returns, the mean
    error is not negative and the two percentages are ordered and within
    range: [0 <= bad_4 <= bad_05 <= 100]. *)
Theorem calc_errors_bounds (disparity_matrix : list (list R)) gt
    avg_error med_error bad_05 bad_4 :
  calc_errors median disparity_matrix gt
  = Return (avg_error, med_error, bad_05, bad_4) ->
  0 <= avg_error /\ 0 <= bad_4 /\ bad_4 <= bad_05 /\ bad_05 <= 100.
Proof.
  unfold calc_errors.
  destruct (channel0 gt) as [g |]; [| discriminate].
  set (errors := map _ (combine _ _)).
  destruct (length errors) as [| n] eqn:En; [discriminate |].
  unfold mean. rewrite En.
  set (N := sofnat (S n)). set (C := sofnat 100).
  set (c4 := sofnat (count_above (sofnat 4) errors)).
  set (c5 := sofnat (count_above (sdiv sone (sofnat 2)) errors)).
  set (s := sum errors).
  intros E. injection E as <- _ <- <-.
  assert (Hn : 0 < N) by apply lt_0_INR, Nat.lt_0_succ.
  pose proof (Rinv_0_lt_compat _ Hn) as Hi.
  assert (Hh : 1 / INR 2 <= INR 4) by (cbn; lra).
  destruct (count_above_le errors (1 / INR 2) (INR 4) Hh) as [H4 H5].
  rewrite En in H5.
  apply le_INR in H4, H5. change (c4 <= c5) in H4. change (c5 <= N) in H5.
  assert (P4 : 0 <= c4) by apply pos_INR.
  assert (H100 : C = 100).
  { unfold C. cbn [sofnat R_scalar].
    change 100%nat with (10 * 10)%nat. rewrite mult_INR. cbn. lra. }
  cbn [sdiv smul R_scalar]. rewrite H100.
  split.
  - apply Rmult_le_pos; [| lra].
    apply sum_nonneg. unfold errors. apply Forall_fmap, Forall_true.
    intros e. apply Rabs_pos.
  - unfold Rdiv.
    assert (0 <= c4 * / N) by (apply Rmult_le_pos; lra).
    assert (c4 * / N <= c5 * / N) by (apply Rmult_le_compat_r; lra).
    assert (c5 * / N <= 1).
    { replace 1 with (N * / N) by (apply Rinv_r; lra).
      apply Rmult_le_compat_r; lra. }
    lra.
Qed.

End DisparityExact.

Lemma calc_errors_bounds_witness :
  let median : list R -> R :=
    fun l => match l with [a; b] => ((a + b) / 2)%R | _ => 0%R end in
  let d := [[1; 2]]%R in
  let gt := [[[3; 0; 0]; [0; 0; 0]]]%R in
  exists avg_error med_error bad_05 bad_4,
    calc_errors median d gt = Return (avg_error, med_error, bad_05, bad_4) /\
    (0 <= avg_error)%R /\ (0 <= bad_4)%R /\ (bad_4 <= bad_05)%R /\
    (bad_05 <= 100)%R.
Proof.
  intros median d gt.
  assert (Hc : exists avg_error med_error bad_05 bad_4,
             calc_errors median d gt
             = Return (avg_error, med_error, bad_05, bad_4))
    by (do 4 eexists; reflexivity).
  destruct Hc as (avg_error & med_error & bad_05 & bad_4 & Hc).
  exists avg_error, med_error, bad_05, bad_4. split; [exact Hc |].
  exact (calc_errors_bounds median d gt avg_error med_error bad_05 bad_4 Hc).
Defined.

(** ** Q1.py: the clicked points *)

Section MouseFacts.
Variables EVENT_LBUTTONDOWN EVENT_RBUTTONDOWN : Z.

(** X23.  The mouse callback only appends.  After any run of mouse
    events the list of left points is what it was, followed by the points
    of the left-button events in their order, and likewise the list of
    right points with the right-button events; one line is printed for
    each point recorded.  The lists are never emptied, and the list a
    point goes to depends on the button alone. *)
Theorem click_events_recorded (evs : list (Z * Z * Z)) (s : clicks) :
  let s' := click_events EVENT_LBUTTONDOWN EVENT_RBUTTONDOWN evs s in
  POINTS_LEFT s' = POINTS_LEFT s ++ clicked EVENT_LBUTTONDOWN evs /\
  POINTS_RIGHT s' = POINTS_RIGHT s ++ clicked EVENT_RBUTTONDOWN evs /\
  length (shell s')
  = length (shell s) + length (clicked EVENT_LBUTTONDOWN evs)
    + length (clicked EVENT_RBUTTONDOWN evs).
Proof.
  revert s. induction evs as [| [[e x] y] evs IH]; intros s.
  - cbn. rewrite !app_nil_r. repeat split; lia.
  - destruct (IH (click_event EVENT_LBUTTONDOWN EVENT_RBUTTONDOWN e x y s))
      as (I1 & I2 & I3).
    unfold click_events in *. cbn [fold_left fst snd]. cbv zeta in *.
    rewrite I1, I2, I3. unfold click_event, clicked.
    cbn [List.filter fst snd].
    destruct (Z.eqb e EVENT_LBUTTONDOWN), (Z.eqb e EVENT_RBUTTONDOWN);
      cbn [POINTS_LEFT POINTS_RIGHT shell map length];
      rewrite <- ?app_assoc, ?length_app; cbn [app length];
      repeat split; lia.
Qed.

End MouseFacts.
